(** * OpenTimestamps calendar server: [otsserver/calendar.py]

    A shallow embedding of the journal, the calendar, the keyed timestamp
    store and the aggregator of [calendar.py], with the properties of the
    specification stated and settled against it. *)

From Stdlib Require Import ZArith Lia.
From Stdlib Require Import Strings.Byte.
From stdpp Require Import base tactics option list gmap strings sorting.

Local Open Scope Z_scope.

(** ** Bytes and exceptions *)

Abbreviation bytes := (list byte).

#[global] Instance byte_eq_decision : EqDecision byte := Byte.byte_eq_dec.

#[global] Instance byte_countable : Countable byte :=
  inj_countable Byte.to_N Byte.of_N Byte.of_to_N.

(** The Python exceptions the modelled code raises; [OutOfFuel] is not one
    of them, it marks a bounded loop of the model that ran out of steps. *)
Inductive exn :=
  | KeyError
  | ValueError
  | AssertionError
  | OSError
  | StructError
  | NameError
  | AttributeError
  | OutOfFuel.

#[global] Instance exn_eq_decision : EqDecision exn.
Proof. solve_decision. Defined.

(** The outcome of a call: a returned value or a raised exception. *)
Inductive res (A : Type) :=
  | Ok (a : A)
  | Raise (e : exn).
Arguments Ok {A} a.
Arguments Raise {A} e.

(** ** The journal *)

Module Journal.

(** [COMMITMENT_SIZE = 32 + 4] *)
Definition COMMITMENT_SIZE : nat := 32 + 4.

(** The journal file is the sequence of its bytes.  The reader and the
    writer open the same path, so both act on the one file. *)
Abbreviation file := (list byte).

(** [fd.read(n)] with the descriptor at offset [off]: at most [n] bytes
    from there, none when the offset is at or past the end. *)
Definition read_at (f : file) (off n : nat) : bytes := take n (drop off f).

(** [read_fd.seek(off)], with the offset the descriptor is left at.  An
    offset inside the file can always be sought: the file system holds
    the file, whatever its largest offset is.  Of the others, one that
    does not fit a signed 64-bit number raises [ValueError], and a
    negative one, or one past [max_offset], the largest offset of the
    file system, raises [OSError]; it is no error to seek past the end of
    the file otherwise. *)
Definition seek (max_offset : Z) (f : file) (off : Z) : res nat :=
  if (0 <=? off) && (off <=? Z.of_nat (length f)) then Ok (Z.to_nat off)
  else if (off <? - 2 ^ 63) || (2 ^ 63 <=? off) then Raise ValueError
  else if (off <? 0) || (max_offset <? off) then Raise OSError
  else Ok (Z.to_nat off).

(** [Journal.__getitem__]: seek to [idx * COMMITMENT_SIZE], read
    [COMMITMENT_SIZE] bytes, return them when all were there and raise
    [KeyError] otherwise; what [seek] raises is not caught. *)
Definition getitem (max_offset : Z) (f : file) (idx : Z) : res bytes :=
  match seek max_offset f (idx * Z.of_nat COMMITMENT_SIZE) with
  | Raise e => Raise e
  | Ok off =>
      let commitment := read_at f off COMMITMENT_SIZE in
      if Nat.eqb (length commitment) COMMITMENT_SIZE then Ok commitment
      else Raise KeyError
  end.

(** [JournalWriter.__init__]: the file is opened for appending (created
    empty when absent), [pos] is its length; when [pos] is not a multiple
    of the record size, zero bytes are appended up to the next multiple. *)
Definition open_writer (f : file) : file :=
  let pos := length f in
  if Nat.eqb (pos mod COMMITMENT_SIZE) 0 then f
  else f ++ replicate (COMMITMENT_SIZE - pos mod COMMITMENT_SIZE)%nat x00.

(** [JournalWriter.submit]: the file after the call and the outcome.  The
    descriptor is in append mode and is the only writer, so [tell()] is the
    length of the file. *)
Definition submit (f : file) (commitment : bytes) : file * res unit :=
  if negb (Nat.eqb (length commitment) COMMITMENT_SIZE) then (f, Raise ValueError)
  else if negb (Nat.eqb (length f mod COMMITMENT_SIZE) 0) then (f, Raise AssertionError)
  else (f ++ commitment, Ok tt).

(** The number of complete records of a file: the index the next record
    gets. *)
Definition entries (f : file) : Z := Z.of_nat (length f / COMMITMENT_SIZE).

(** The writer's invariant: the file is a whole number of records. *)
Definition aligned (f : file) : Prop := (length f mod COMMITMENT_SIZE = 0)%nat.

End Journal.


(** The exceptions of the interpreter that [calendar.py] does not raise by
    name: [StopIteration], which [next] raises on a generator that has
    ended, and [SystemExit], which [sys.exit] raises. *)
Inductive exc :=
  | Exn (e : exn)
  | StopIteration
  | SystemExit (code : Z).

#[global] Instance exc_eq_decision : EqDecision exc.
Proof. solve_decision. Defined.

(** The outcome of a call that can end in one of them. *)
Inductive outcome (A : Type) :=
  | Return (a : A)
  | Except (e : exc).
Arguments Return {A} a.
Arguments Except {A} e.

(** ** Timestamps (the [opentimestamps] package)

    [calendar.py] imports [Timestamp], the ops, the attestations,
    [make_merkle_tree] and [nonce_timestamp] from the [opentimestamps]
    package.  Timestamps are mutable objects shared by reference: the
    timestamp a caller of [Aggregator.submit] holds is the object the
    aggregation loop later extends.  They are therefore modelled as objects
    of a heap, addressed by location. *)

Module Ots.

(** Modelled from the spec: the ops of the data model, "prepend-bytes,
    append-bytes, sha256-hash", each a deterministic function of a
    digest. *)
Inductive Op :=
  | OpAppend (arg : bytes)
  | OpPrepend (arg : bytes)
  | OpSHA256.

#[global] Instance Op_eq_decision : EqDecision Op.
Proof. solve_decision. Defined.

(** Modelled from the spec: an attestation is "either Pending (holds an
    opaque calendar URI string) or BitcoinBlockHeader (holds a block
    height)". *)
Inductive Attestation :=
  | PendingAttestation (uri : bytes)
  | BitcoinBlockHeaderAttestation (height : Z).

#[global] Instance Attestation_eq_decision : EqDecision Attestation.
Proof. solve_decision. Defined.

Abbreviation loc := nat.

(** Modelled from the spec: a timestamp is "rooted at a message digest"
    and holds "zero, one, or many attestations plus zero or more ops";
    each op maps to the timestamp of its result.  [ops] is the dictionary
    from op to result timestamp, in insertion order. *)
Record Timestamp := mkTimestamp {
  msg : bytes;
  attestations : list Attestation;
  ops : list (Op * loc)
}.

Abbreviation heap := (list Timestamp).

(** Computations on the heap that return or raise; what was written to
    the heap before an exception stays written. *)
Definition M (A : Type) : Type := heap → heap * res A.

#[global] Instance M_ret : MRet M := λ A a h, (h, Ok a).
#[global] Instance M_bind : MBind M := λ A B k m h,
  match m h with
  | (h', Ok a) => k a h'
  | (h', Raise e) => (h', Raise e)
  end.

Definition raise {A} (e : exn) : M A := λ h, (h, Raise e).

(** Every reference of the Python program is to a live object; a location
    outside the heap has no counterpart there and is reported as
    [NameError]. *)
Definition get_obj (l : loc) : M Timestamp := λ h,
  match h !! l with
  | Some t => (h, Ok t)
  | None => (h, Raise NameError)
  end.

Definition set_obj (l : loc) (t : Timestamp) : M unit := λ h, (<[l := t]> h, Ok tt).

Definition alloc (t : Timestamp) : M loc := λ h, (h ++ [t], Ok (length h)).

(** [Timestamp(msg)] *)
Definition new_timestamp (m : bytes) : M loc := alloc (mkTimestamp m [] []).

(** [ops[op]] of a dictionary *)
Fixpoint ops_get (d : list (Op * loc)) (op : Op) : option loc :=
  match d with
  | [] => None
  | (op', l) :: d' => if decide (op' = op) then Some l else ops_get d' op
  end.

(** [dict.__setitem__]: rebinds an existing key in place, appends a new one *)
Fixpoint ops_put (d : list (Op * loc)) (op : Op) (l : loc) : list (Op * loc) :=
  match d with
  | [] => [(op, l)]
  | (op', l') :: d' =>
      if decide (op' = op) then (op, l) :: d' else (op', l') :: ops_put d' op l
  end.

Section WithHash.

(** The SHA-256 function of the cryptographic library. *)
Variable sha256 : bytes → bytes.

(** Modelled from the spec: the result of an op on a message, a
    "deterministic function over a digest". *)
Definition apply_op (op : Op) (m : bytes) : bytes :=
  match op with
  | OpAppend arg => m ++ arg
  | OpPrepend arg => arg ++ m
  | OpSHA256 => sha256 m
  end.

Definition apply_ops (path : list Op) (m : bytes) : bytes :=
  foldl (λ m op, apply_op op m) m path.

(** Modelled from the spec: [timestamp.ops.add(op)], "attach
    sub-timestamps": the timestamp of the result of [op], created for
    the message [op(msg)] when the op is new. *)
Definition ops_add (l : loc) (op : Op) : M loc :=
  t ← get_obj l;
  match ops_get (ops t) op with
  | Some l' => mret l'
  | None =>
      l' ← new_timestamp (apply_op op (msg t));
      _ ← set_obj l (mkTimestamp (msg t) (attestations t) (ops t ++ [(op, l')]));
      mret l'
  end.

(** Modelled from the spec: [timestamp.ops[op] = stamp]: binds [op] to
    another timestamp for the same result message. *)
Definition ops_set (l : loc) (op : Op) (l' : loc) : M unit :=
  t ← get_obj l;
  t' ← get_obj l';
  match ops_get (ops t) op with
  | Some l0 =>
      t0 ← get_obj l0;
      if decide (msg t0 = msg t') then
        set_obj l (mkTimestamp (msg t) (attestations t) (ops_put (ops t) op l'))
      else raise ValueError
  | None =>
      set_obj l (mkTimestamp (msg t) (attestations t) (ops_put (ops t) op l'))
  end.

(** Modelled from the spec: [timestamp.attestations.add(a)]; the
    attestations of a timestamp are a set. *)
Definition attestations_add (l : loc) (a : Attestation) : M unit :=
  t ← get_obj l;
  if decide (a ∈ attestations t) then mret tt
  else set_obj l (mkTimestamp (msg t) (attestations t ++ [a]) (ops t)).

(** Modelled from the spec: "two Timestamps for the same root digest are
    semantically equal if they carry the same set of op-branches and
    attestations": equal messages, equal attestation sets, the same ops,
    and equal result timestamps under each op.  [fuel] bounds the depth
    of the comparison. *)
Fixpoint timestamp_eqb (fuel : nat) (h : heap) (l1 l2 : loc) : bool :=
  match fuel with
  | O => false
  | S fuel' =>
      match h !! l1, h !! l2 with
      | Some t1, Some t2 =>
          bool_decide (msg t1 = msg t2)
          && forallb (λ a, bool_decide (a ∈ attestations t2)) (attestations t1)
          && forallb (λ a, bool_decide (a ∈ attestations t1)) (attestations t2)
          && Nat.eqb (length (ops t1)) (length (ops t2))
          && forallb (λ '(op, s1),
               match ops_get (ops t2) op with
               | Some s2 => timestamp_eqb fuel' h s1 s2
               | None => false
               end) (ops t1)
      | _, _ => false
      end
  end.

(** [t1 == t2] *)
Definition timestamp_eq (l1 l2 : loc) : M bool := λ h,
  (h, Ok (timestamp_eqb (S (length h)) h l1 l2)).

(** Modelled from the spec: [add_nonce(Timestamp) -> Timestamp], which
    "prepends random bytes as an op", the nonce being "added before
    hashing".  [nonce] is the random string drawn by the call. *)
Definition nonce_timestamp (private_timestamp : loc) (nonce : bytes) : M loc :=
  stamp2 ← ops_add private_timestamp (OpPrepend nonce);
  ops_add stamp2 OpSHA256.

(** Modelled from the spec: one node of the Merkle tree.  The left
    message gets the right one appended, the right message gets the left
    one prepended; both give the same message, so both ops lead to one
    timestamp, which is then hashed. *)
Definition cat_sha256 (left right : loc) : M loc :=
  lt ← get_obj left;
  rt ← get_obj right;
  left_append_stamp ← ops_add left (OpAppend (msg rt));
  right_prepend_stamp ← ops_add right (OpPrepend (msg lt));
  same ← timestamp_eq left_append_stamp right_prepend_stamp;
  if negb same then raise AssertionError
  else
    _ ← ops_set left (OpAppend (msg rt)) right_prepend_stamp;
    ops_add right_prepend_stamp OpSHA256.

(** Modelled from the spec: one level of the Merkle tree.  The stamps
    are paired left to right, an odd last one is carried over in
    [prev_stamp]. *)
Fixpoint merkle_pass (prev_stamp : option loc) (stamps : list loc)
    (next_stamps : list loc) : M (option loc * list loc) :=
  match stamps with
  | [] => mret (prev_stamp, next_stamps)
  | stamp :: stamps' =>
      match prev_stamp with
      | Some prev =>
          parent ← cat_sha256 prev stamp;
          merkle_pass None stamps' (next_stamps ++ [parent])
      | None => merkle_pass (Some stamp) stamps' next_stamps
      end
  end.

(** Modelled from the spec: the levels of the Merkle tree, until one
    stamp is left.  The loop of the library runs
    until it returns; here it runs for at most [fuel] levels, and
    [make_merkle_tree_returns] below shows that the levels given to it
    are enough. *)
Fixpoint merkle_levels (fuel : nat) (stamps : list loc) : M (option loc) :=
  match fuel with
  | O => raise OutOfFuel
  | S fuel' =>
      match stamps with
      | [] => raise ValueError
      | first :: stamps' =>
          '(prev_stamp, next_stamps) ← merkle_pass (Some first) stamps' [];
          match next_stamps with
          | [] => mret prev_stamp
          | _ :: _ =>
              merkle_levels fuel'
                (match prev_stamp with
                 | Some prev => next_stamps ++ [prev]
                 | None => next_stamps
                 end)
          end
      end
  end.

(** Modelled from the spec: [build_merkle_tree(list of digests) ->
    Timestamp], whose root is the commitment.  A level has fewer stamps
    than the one before, so as many levels as there are stamps suffice. *)
Definition make_merkle_tree (stamps : list loc) : M (option loc) :=
  merkle_levels (S (length stamps)) stamps.

End WithHash.

(** Following a chain of ops from a timestamp. *)
Fixpoint follow (h : heap) (l : loc) (path : list Op) : option loc :=
  match path with
  | [] => Some l
  | op :: path' =>
      match h !! l with
      | Some t =>
          match ops_get (ops t) op with
          | Some l' => follow h l' path'
          | None => None
          end
      | None => None
      end
  end.

(** The message of the timestamp at a location. *)
Definition msg_at (h : heap) (l : loc) : option bytes := msg <$> h !! l.

End Ots.

(** ** The calendar *)

Module Calendar.
Import Ots.

(** [struct.pack('>L', t)]: the four bytes of [t], most significant
    first; [struct.error] when [t] is not an unsigned 32-bit number. *)
Definition byte_of_Z (z : Z) : byte :=
  default x00 (Byte.of_N (Z.to_N (z `mod` 256))).

Definition pack_be32 (t : Z) : res bytes :=
  if (0 <=? t) && (t <? 2 ^ 32) then
    Ok [byte_of_Z (t ≫ 24); byte_of_Z (t ≫ 16); byte_of_Z (t ≫ 8); byte_of_Z t]
  else Raise StructError.

(** The number a string of bytes stands for, most significant byte
    first ([int.from_bytes(bs, 'big')]). *)
Definition unpack_be (bs : bytes) : Z :=
  foldl (λ acc b, acc * 256 + Z.of_N (Byte.to_N b)) 0 bs.

(** The calendar object: its journal file and the URI read from the [uri]
    file at start-up. *)
Record t := mk {
  journal : Journal.file;
  uri : bytes
}.

Section Submit.
Variable sha256 : bytes → bytes.

(** [Calendar.submit]: [now] is [int(time.time())].  The state is the
    calendar and the heap of timestamps. *)
Definition submit (cal : t) (submitted_commitment : loc) (now : Z)
    : heap → t * heap * res unit := λ h,
  match pack_be32 now with
  | Raise e => (cal, h, Raise e)
  | Ok serialized_time =>
      match (commitment ← ops_add sha256 submitted_commitment (OpPrepend serialized_time);
             _ ← attestations_add commitment (PendingAttestation (uri cal));
             c ← get_obj commitment;
             mret (msg c)) h with
      | (h', Raise e) => (cal, h', Raise e)
      | (h', Ok commitment_msg) =>
          let '(j', r) := Journal.submit (journal cal) commitment_msg in
          (mk j' (uri cal), h', r)
      end
  end.
End Submit.

Section Lookup.
(** The proofs stored on disk are read back by the serialization codec
    of the [opentimestamps] package: [deserialize contents commitment]
    is the timestamp [Timestamp.deserialize] returns for a file with
    these contents, [None] when it raises [DeserializationError]. *)
Context {Stamp : Type}.
Variable deserialize : bytes → bytes → option Stamp.

(** [__commitment_timestamps_path], which the class uses and does not
    define: the directory of a commitment. *)
Variable commitment_timestamps_path : bytes → string.

(** A directory maps file names to file contents; the file system maps
    the path of a directory to the directory. *)
Abbreviation directory := (gmap string bytes).
Abbreviation filesystem := (gmap string (gmap string bytes)).

(** [os.listdir]: the names of a directory, in no particular order. *)
Definition listdir (d : directory) : list string := (map_to_list d).*1.

(** The order of [sorted] on file names. *)
Definition name_le (a b : string) : Prop := String.leb a b = true.

#[global] Instance name_le_dec a b : Decision (name_le a b).
Proof. unfold name_le. apply _. Defined.

(** The loop over the sorted file names: the timestamps yielded, in
    order, and how the generator ends. *)
Fixpoint scan (d : directory) (commitment : bytes) (names : list string)
    (no_valid_timestamps : bool) : list Stamp * res unit :=
  match names with
  | [] => ([], if no_valid_timestamps then Raise KeyError else Ok tt)
  | timestamp_filename :: names' =>
      match d !! timestamp_filename with
      | None => ([], Raise OSError)
      | Some contents =>
          match deserialize contents commitment with
          | None => scan d commitment names' no_valid_timestamps
          | Some timestamp =>
              let '(rest, r) := scan d commitment names' false in
              (timestamp :: rest, r)
          end
      end
  end.

(** [Calendar.__getitem__], a generator: the timestamps it yields and
    the way it ends, [Ok tt] for exhaustion and [Raise KeyError] for "No
    such commitment". *)
Definition getitem (fs : filesystem) (commitment : bytes) : list Stamp * res unit :=
  let commitment_path := commitment_timestamps_path commitment in
  match fs !! commitment_path with
  | None => ([], Raise KeyError)
  | Some d =>
      let timestamps := listdir d in
      match timestamps with
      | [] => ([], Raise KeyError)
      | _ :: _ => scan d commitment (merge_sort name_le timestamps) true
      end
  end.
End Lookup.

(** *** Membership *)

Section Contains.
Context {Stamp : Type}.
Variable deserialize : bytes → bytes → option Stamp.
Variable commitment_timestamps_path : bytes → string.

(** [next(generator)] on a generator just created: the generator runs
    up to its first [yield], whose value [next] returns, and no
    further; when it ends before it yields, [next] raises what the
    generator raised, and [StopIteration] when the generator
    returned. *)
Definition next {A} (generator : list A * res unit) : outcome A :=
  match generator with
  | (a :: _, _) => Return a
  | ([], Raise e) => Except (Exn e)
  | ([], Ok _) => Except StopIteration
  end.

(** [Calendar.__contains__] *)
Definition contains (fs : gmap string (gmap string bytes)) (commitment : bytes)
    : outcome bool :=
  match next (getitem deserialize commitment_timestamps_path fs commitment) with
  | Except (Exn KeyError) => Return false
  | Except e => Except e
  | Return _ => Return true
  end.
End Contains.

(** *** The files of the proofs *)

Import (notations) Stdlib.Strings.Ascii.

(** What [__commitment_verification_path] reads of [verify_op]: its
    attributes [attestation] and [msg]. *)
Module VerifyOp.
Record t := mk {
  attestation : Attestation;
  msg : bytes
}.
End VerifyOp.

(** The objects that reach [__commitment_verification_path] as
    [verify_op]: one with the two attributes, or, from the loop of
    [add_commitment_timestamp], an attestation of the [notary] module,
    which has a height or a URI and neither of the two. *)
Inductive verify_arg :=
  | VerifyOpObject (verify_op : VerifyOp.t)
  | AttestationObject (attestation : Attestation).

(** The character of a decimal digit. *)
Definition digit (d : Z) : Ascii.ascii := Ascii.ascii_of_N (Z.to_N (48 + d)).

(** The decimal digits of a number that is not negative, the most
    significant first, before [acc]; [fuel] bounds their number. *)
Fixpoint decimal_fuel (fuel : nat) (n : Z) (acc : string) : string :=
  match fuel with
  | O => acc
  | S fuel' =>
      let acc' := String (digit (n `mod` 10)) acc in
      if n <? 10 then acc' else decimal_fuel fuel' (n `div` 10) acc'
  end.

(** A number has no more decimal digits than binary ones. *)
Definition decimal (n : Z) : string :=
  decimal_fuel (S (Z.to_nat (Z.log2 n))) n "".

Fixpoint zeros (k : nat) : string :=
  match k with
  | O => ""
  | S k' => String "0"%char (zeros k')
  end.

(** ['%07d' % n]: the decimal digits of [n], after zeros up to a width of
    seven characters, of which the sign of a negative number is one. *)
Definition format_07d (n : Z) : string :=
  let digits := decimal (Z.abs n) in
  if n <? 0 then "-" +:+ zeros (6 - String.length digits) +:+ digits
  else zeros (7 - String.length digits) +:+ digits.

(** The character of a hexadecimal digit, in lower case. *)
Definition hexdigit (d : N) : Ascii.ascii :=
  Ascii.ascii_of_N (if (d <? 10)%N then 48 + d else 87 + d).

(** [binascii.hexlify]: two hexadecimal digits for each byte. *)
Definition hexlify (bs : bytes) : string :=
  foldr (λ b s, String (hexdigit (Byte.to_N b `div` 16))
                  (String (hexdigit (Byte.to_N b `mod` 16)) s)) "" bs.

(** [b2lx] of [bitcoin.core]: the bytes in hexadecimal, the last byte
    first. *)
Definition b2lx (bs : bytes) : string := hexlify (reverse bs).

(** The directory and the name of the file of a path: what is before and
    what is after its last slash; without a slash the file is in the
    current directory. *)
Fixpoint split_at_last_slash (path : string) : option (string * string) :=
  match path with
  | EmptyString => None
  | String c path' =>
      match split_at_last_slash path' with
      | Some (dir, name) => Some (String c dir, name)
      | None => if Ascii.eqb c "/"%char then Some (EmptyString, path') else None
      end
  end.

Definition split_path (path : string) : string * string :=
  default ("."%string, path) (split_at_last_slash path).

(** [os.makedirs(path, exist_ok=True)] *)
Definition makedirs (fs : gmap string (gmap string bytes)) (path : string)
    : gmap string (gmap string bytes) :=
  match fs !! path with
  | Some _ => fs
  | None => <[path := ∅]> fs
  end.

(** [open(path, 'xb')], with what is written to the file before it is
    closed: the file is created, and the call raises [FileNotFoundError]
    without its directory and [FileExistsError] when there is such a
    file; both are [OSError]s. *)
Definition create_file (fs : gmap string (gmap string bytes)) (path : string)
    (contents : bytes) : gmap string (gmap string bytes) * res unit :=
  let '(dir, name) := split_path path in
  match fs !! dir with
  | None => (fs, Raise OSError)
  | Some d =>
      match d !! name with
      | Some _ => (fs, Raise OSError)
      | None => (<[dir := <[name := contents]> d]> fs, Ok tt)
      end
  end.

Section Store.
(** The timestamps are those of the [opentimestamps] package:
    [stamp_msg] is [timestamp.msg], [all_attestations] the pairs of a
    message and an attestation that [timestamp.all_attestations()]
    yields, and [serialize] what [timestamp.serialize] writes. *)
Context {Stamp : Type}.
Variable stamp_msg : Stamp → bytes.
Variable all_attestations : Stamp → list (bytes * Attestation).
Variable serialize : Stamp → bytes.
Variable commitment_timestamps_path : bytes → string.

(** [__commitment_verification_path], on an object with the attributes
    it reads. *)
Definition commitment_verification_path (commitment : bytes) (verify_op : VerifyOp.t)
    : res string :=
  match VerifyOp.attestation verify_op with
  | BitcoinBlockHeaderAttestation height =>
      Ok (commitment_timestamps_path commitment +:+
          "/btcblk-" +:+ format_07d height +:+ "-" +:+ b2lx (VerifyOp.msg verify_op))
  | _ => Raise AssertionError
  end.

(** A call of [__commitment_verification_path]: on an attestation the
    first thing the function does, reading [verify_op.attestation],
    raises [AttributeError]. *)
Definition call_commitment_verification_path (commitment : bytes)
    (verify_op : verify_arg) : res string :=
  match verify_op with
  | VerifyOpObject verify_op => commitment_verification_path commitment verify_op
  | AttestationObject _ => Raise AttributeError
  end.

(** The loop of [add_commitment_timestamp] over the attestations: the
    path is computed before the file is opened. *)
Fixpoint store_attestations (fs : gmap string (gmap string bytes)) (timestamp : Stamp)
    (pairs : list (bytes * Attestation)) : gmap string (gmap string bytes) * res unit :=
  match pairs with
  | [] => (fs, Ok tt)
  | (msg, attestation) :: pairs' =>
      match call_commitment_verification_path msg (AttestationObject attestation) with
      | Raise e => (fs, Raise e)
      | Ok path =>
          match create_file fs path (serialize timestamp) with
          | (fs', Raise e) => (fs', Raise e)
          | (fs', Ok _) => store_attestations fs' timestamp pairs'
          end
      end
  end.

(** [add_commitment_timestamp]: the file system after the call, and how
    the call ends. *)
Definition add_commitment_timestamp (fs : gmap string (gmap string bytes))
    (timestamp : Stamp) : gmap string (gmap string bytes) * res unit :=
  let path := commitment_timestamps_path (stamp_msg timestamp) in
  let fs := makedirs fs path in
  store_attestations fs timestamp (all_attestations timestamp).
End Store.

(** *** Start-up *)

(** [bytes.strip()]: without the white space at both ends. *)
Definition is_space (b : byte) : bool :=
  match b with
  | x20 | x09 | x0a | x0d | x0b | x0c => true
  | _ => false
  end.

Fixpoint lstrip (bs : bytes) : bytes :=
  match bs with
  | b :: bs' => if is_space b then lstrip bs' else bs
  | [] => []
  end.

Definition strip (bs : bytes) : bytes := reverse (lstrip (reverse (lstrip bs))).

Section Init.
(** How [leveldb.LeveLB(path + '/db')] ends, a call into the [leveldb]
    package. *)
Variable LeveLB : res unit.

(** [Calendar.__init__], on the files [journal] and [uri] of the
    directory of the calendar, each with its contents, or absent: the
    journal file after the call, and the calendar, or how the call
    ends without one. *)
Definition init (journal_file : option Journal.file) (uri_file : option bytes)
    : Journal.file * outcome t :=
  let journal := Journal.open_writer (default [] journal_file) in
  match LeveLB with
  | Raise e => (journal, Except (Exn e))
  | Ok _ =>
      match uri_file with
      | Some contents => (journal, Return (mk journal (strip contents)))
      | None => (journal, Except (SystemExit 1))
      end
  end.
End Init.

End Calendar.

(** ** The keyed timestamp store *)

Module LevelDbCalendar.
Import Ots.

(** A LevelDB write batch: the puts and deletes recorded in it, in order. *)
Inductive write :=
  | Put (key value : bytes)
  | Delete (key : bytes).

Abbreviation WriteBatch := (list write).

(** [db.Write(batch)]: the recorded writes, applied in order. *)
Definition db_write (db : gmap bytes bytes) (batch : WriteBatch) : gmap bytes bytes :=
  foldl (λ db w, match w with
                 | Put key value => <[key := value]> db
                 | Delete key => delete key db
                 end) db batch.

(** [__contains__] *)
Definition contains (db : gmap bytes bytes) (m : bytes) : bool :=
  bool_decide (is_Some (db !! m)).

(** [try: ... except KeyError: ...] *)
Definition try_except_KeyError {A} (body handler : M A) : M A := λ h,
  match body h with
  | (h', Raise KeyError) => handler h'
  | r => r
  end.

Section Store.

(** The loop of [__get_timestamp] that reads the stored ops into the
    timestamp is written with names the module does not import
    ([BytesDeserializationContext], [Op]); what it does to the
    timestamp, or what it raises, is left open. *)
Variable deserialize_ops : loc → bytes → M unit.

(** The source of [__add_timestamp] breaks off after the comparison of
    the existing with the new timestamp, inside the loop over the new
    ops.  What follows is left open: any computation on the timestamps
    that reads the database and records its writes in the batch it was
    given. *)
Variable merge_ops : gmap bytes bytes → loc → loc → WriteBatch → M WriteBatch.

(** [__get_timestamp] *)
Definition get_timestamp (db : gmap bytes bytes) (m : bytes) : M loc :=
  match db !! m with
  | None => raise KeyError
  | Some serialized_timestamp =>
      timestamp ← new_timestamp m;
      _ ← deserialize_ops timestamp serialized_timestamp;
      mret timestamp
  end.

(** [__add_timestamp]: the batch after the call. *)
Definition add_timestamp (db : gmap bytes bytes) (new_timestamp_ : loc)
    (batch : WriteBatch) : M WriteBatch :=
  new ← get_obj new_timestamp_;
  existing_timestamp ←
    try_except_KeyError (get_timestamp db (msg new)) (new_timestamp (msg new));
  same ← timestamp_eq existing_timestamp new_timestamp_;
  if (same : bool) then mret batch
  else merge_ops db existing_timestamp new_timestamp_ batch.

(** [add]: [batch] is a new write batch, [__add_timestamp] is called
    with another new write batch, and [batch] is written. *)
Definition add (db : gmap bytes bytes) (new_timestamp_ : loc)
    : heap → gmap bytes bytes * heap * res unit := λ h,
  let batch : WriteBatch := [] in
  match add_timestamp db new_timestamp_ [] h with
  | (h', Raise e) => (db, h', Raise e)
  | (h', Ok _) => (db_write db batch, h', Ok tt)
  end.
End Store.

End LevelDbCalendar.

(** ** The aggregator *)

Module Aggregator.
Import Ots.

(** The state shared by the callers of [submit] and the aggregation loop:
    the timestamp objects, the queue of (digest, event) pairs, the events
    (set or not), and the calendar.  The threads are modelled by their
    steps on this state: a caller's step up to its wait, an iteration of
    the loop, a caller's return.  A caller works on timestamps only it
    holds until it puts the nonced one on the thread-safe queue, and the
    loop is the only consumer, so that these steps do not interleave
    further. *)
Record State := mk {
  heap_ : heap;
  digest_queue : list (loc * nat);
  events : list bool;
  calendar : Calendar.t
}.

Section Aggregator.
Variable sha256 : bytes → bytes.

(** [Aggregator.submit] up to [done_event.wait()]: the timestamp for
    [msg] is created, its nonced derivative is put on the queue with a
    new event.  [nonce] is the random string [nonce_timestamp] draws.
    The caller is left holding the timestamp and the event. *)
Definition submit_enqueue (s : State) (m nonce : bytes) : State * res (loc * nat) :=
  match (timestamp ← new_timestamp m;
         nonced ← nonce_timestamp sha256 timestamp nonce;
         mret (timestamp, nonced)) (heap_ s) with
  | (h', Raise e) => (mk h' (digest_queue s) (events s) (calendar s), Raise e)
  | (h', Ok (timestamp, nonced)) =>
      let done_event := length (events s) in
      (mk h' (digest_queue s ++ [(nonced, done_event)]) (events s ++ [false]) (calendar s),
       Ok (timestamp, done_event))
  end.

(** [done_event.wait(); return timestamp]: the caller returns its
    timestamp once its event is set, and stays blocked until then. *)
Definition submit_return (s : State) (held : loc * nat) : option loc :=
  match events s !! snd held with
  | Some true => Some (fst held)
  | _ => None
  end.

(** [done_event.set()] for every event of the batch *)
Definition set_events (done_events : list nat) (evs : list bool) : list bool :=
  foldl (λ evs done_event, <[done_event := true]> evs) evs done_events.

(** One iteration of [Aggregator.__loop], after the sleep: the queue is
    drained; with no digest the iteration ends; otherwise the Merkle
    tree is built, its root is submitted to the calendar at time [now],
    and the events are set. *)
Definition loop_iteration (s : State) (now : Z) : State * res unit :=
  let digests := (digest_queue s).*1 in
  let done_events := (digest_queue s).*2 in
  match digests with
  | [] => (mk (heap_ s) [] (events s) (calendar s), Ok tt)
  | _ :: _ =>
      match make_merkle_tree sha256 digests (heap_ s) with
      | (h', Raise e) => (mk h' [] (events s) (calendar s), Raise e)
      | (h', Ok None) => (mk h' [] (events s) (calendar s), Raise AttributeError)
      | (h', Ok (Some digests_commitment)) =>
          match Calendar.submit sha256 (calendar s) digests_commitment now h' with
          | (cal', h'', Raise e) => (mk h'' [] (events s) cal', Raise e)
          | (cal', h'', Ok _) =>
              (mk h'' [] (set_events done_events (events s)) cal', Ok tt)
          end
      end
  end.

(** The callers of one interval, one after the other: each is given its
    message and its nonce; the results are what each caller holds. *)
Fixpoint submit_all (s : State) (batch : list (bytes * bytes))
    : State * res (list (loc * nat)) :=
  match batch with
  | [] => (s, Ok [])
  | (m, nonce) :: batch' =>
      match submit_enqueue s m nonce with
      | (s', Raise e) => (s', Raise e)
      | (s', Ok held) =>
          match submit_all s' batch' with
          | (s'', Raise e) => (s'', Raise e)
          | (s'', Ok helds) => (s'', Ok (held :: helds))
          end
      end
  end.
End Aggregator.

End Aggregator.

(** A stand-in for SHA-256 with its output length, to run the model on
    examples: the first 32 bytes of the message, padded with zeros. *)
Definition toy_sha256 (m : bytes) : bytes := take 32 (m ++ replicate 32 x00).

(** A stand-in for the codec, to run the lookup on examples: a stored proof
    is the byte [00] followed by the proof, anything else is malformed. *)
Definition toy_deserialize (contents commitment : bytes) : option bytes :=
  match contents with
  | x00 :: proof => Some proof
  | _ => None
  end.

(** A stand-in for the directory of a commitment: one directory for all. *)
Definition toy_path (commitment : bytes) : string := "calendar/commitment".

(** The largest offset of a file on an ext4 file system with blocks of
    4 KiB, 16 TiB less one block, to run the journal on examples. *)
Definition ext4_max_offset : Z := 2 ^ 44 - 4096.

(** ** Reading a timestamp: paths and their results *)

Section HeapProps.
Import Ots.
Variable sha256 : bytes → bytes.

(** From the timestamp at [x] the ops of [path], applied in order, lead
    to the timestamp at [y], and the message at [y] is the result of
    applying them to the message at [x]. *)
Definition resolves (h : heap) (x : loc) (path : list Op) (y : loc) : Prop :=
  ∃ mx, msg_at h x = Some mx ∧ follow h x path = Some y ∧
        msg_at h y = Some (apply_ops sha256 path mx).

Definition reaches (h : heap) (x y : loc) : Prop := ∃ path, resolves h x path y.

(** A timestamp for a digest, without ops so far. *)
Definition digest_leaf (h : heap) (y : loc) : Prop :=
  ∃ t m, h !! y = Some t ∧ ops t = [] ∧ msg t = sha256 m.

(** From [h] to [h'] the timestamps that have ops are unchanged, and no
    message changes. *)
Definition preserved (h h' : heap) : Prop :=
  (∀ l t, h !! l = Some t → ops t ≠ [] → h' !! l = Some t) ∧
  (∀ l m, msg_at h l = Some m → msg_at h' l = Some m).

(** The stamps [F] still to be combined are distinct digest timestamps
    without ops, and each timestamp of [orig] leads to one of them. *)
Definition frontier (h : heap) (orig F : list loc) : Prop :=
  NoDup F ∧ (∀ y, y ∈ F → digest_leaf h y) ∧
  (∀ x, x ∈ orig → ∃ y, y ∈ F ∧ reaches h x y).

(** The message of a timestamp never changes. *)
Definition msgs_kept (h h' : heap) : Prop :=
  ∀ l m, msg_at h l = Some m → msg_at h' l = Some m.

(** A computation that keeps the messages, however it ends. *)
Definition keeps_msgs {A} (c : M A) : Prop :=
  ∀ h h' r, c h = (h', r) → msgs_kept h h'.

(** Every op of every timestamp leads to a timestamp for the result of
    the op: the invariant under which the ops of the package keep the
    timestamps. *)
Definition consistent (h : heap) : Prop :=
  ∀ l t op l', h !! l = Some t → ops_get (ops t) op = Some l' →
               msg_at h l' = Some (apply_op sha256 op (msg t)).

End HeapProps.

(** ** Reading file names *)

(** All characters of a string satisfy [P]. *)
Fixpoint chars_all (P : Ascii.ascii → Prop) (s : string) : Prop :=
  match s with
  | EmptyString => True
  | String c s' => P c ∧ chars_all P s'
  end.

(** The characters ["0"] to ["9"]. *)
Definition is_digit (c : Ascii.ascii) : Prop := (48 ≤ Ascii.N_of_ascii c ≤ 57)%N.

(** The number that a string of decimal digits stands for. *)
Fixpoint decimal_value (s : string) : Z :=
  match s with
  | EmptyString => 0
  | String c s' =>
      (Z.of_N (Ascii.N_of_ascii c) - 48) * 10 ^ Z.of_nat (String.length s') + decimal_value s'
  end.

(** ** Files *)

(** Every file of [fs] is a file of [fs'], with the contents it has in
    [fs]. *)
Definition files_kept (fs fs' : gmap string (gmap string bytes)) : Prop :=
  ∀ dir d name contents,
    fs !! dir = Some d → d !! name = Some contents →
    ∃ d', fs' !! dir = Some d' ∧ d' !! name = Some contents.
(** ** Properties of the journal *)

Section JournalFacts.
Import Journal.

Lemma read_at_length f off n :
  length (read_at f off n) = (n `min` (length f - off))%nat.
Proof. unfold read_at. by rewrite length_take, length_drop. Qed.

Lemma read_at_app_end f e :
  read_at (f ++ e) (length f) (length e) = e.
Proof.
  unfold read_at. rewrite drop_app_length. apply firstn_all.
Qed.

Lemma open_writer_aligned f : aligned (open_writer f).
Proof.
  unfold aligned, open_writer.
  destruct (Nat.eqb_spec (length f mod COMMITMENT_SIZE) 0) as [E|E]; [done|].
  rewrite length_app, length_replicate.
  pose proof (Nat.mod_upper_bound (length f) COMMITMENT_SIZE ltac:(done)) as Hlt.
  pose proof (Nat.div_mod_eq (length f) COMMITMENT_SIZE) as Hdm.
  set (q := (length f / COMMITMENT_SIZE)%nat) in *.
  set (r := (length f mod COMMITMENT_SIZE)%nat) in *.
  replace (length f + (COMMITMENT_SIZE - r))%nat with ((q + 1) * COMMITMENT_SIZE)%nat by lia.
  apply Nat.Div0.mod_mul.
Qed.

Lemma submit_aligned f e f' :
  aligned f → submit f e = (f', Ok tt) → f' = f ++ e ∧ aligned f'.
Proof.
  unfold aligned, submit. intros Hf.
  destruct (Nat.eqb_spec (length e) COMMITMENT_SIZE) as [He|He]; [|done].
  destruct (Nat.eqb_spec (length f mod COMMITMENT_SIZE) 0) as [_|Hn]; [|done].
  intros [= <-]. split; [done|].
  rewrite length_app, He.
  by rewrite <- Nat.Div0.add_mod_idemp_l, Hf.
Qed.

Lemma aligned_offset f :
  aligned f → Z.to_nat (entries f * Z.of_nat COMMITMENT_SIZE) = length f.
Proof.
  unfold aligned, entries. intros Hf.
  pose proof (Nat.div_mod_eq (length f) COMMITMENT_SIZE) as Hdm.
  rewrite Hf in Hdm. lia.
Qed.

Lemma entries_app f e :
  aligned f → length e = COMMITMENT_SIZE → entries (f ++ e) = entries f + 1.
Proof.
  unfold aligned, entries. intros Hf He.
  pose proof (Nat.div_mod_eq (length f) COMMITMENT_SIZE) as Hdm.
  rewrite Hf, Nat.add_0_r in Hdm.
  rewrite length_app, He. rewrite Hdm at 1.
  replace (COMMITMENT_SIZE * (length f / COMMITMENT_SIZE) + COMMITMENT_SIZE)%nat
    with ((length f / COMMITMENT_SIZE + 1) * COMMITMENT_SIZE)%nat by lia.
  rewrite Nat.div_mul by done. lia.
Qed.

End JournalFacts.

Section JournalClaims.
Import Journal.

(** The largest offset of the file system of the journal. *)
Variable max_offset : Z.

Local Abbreviation getitem := (Journal.getitem max_offset).

(** The offsets [seek] accepts: those inside the file, and those the
    file system can address. *)
Lemma seek_ok f off :
  0 ≤ off →
  off ≤ Z.of_nat (length f) ∨ (off ≤ max_offset ∧ off < 2 ^ 63) →
  seek max_offset f off = Ok (Z.to_nat off).
Proof.
  intros H0 H. unfold seek.
  destruct (Z.leb_spec 0 off); [|lia].
  destruct (Z.leb_spec off (Z.of_nat (length f))); [done|]. cbn [andb].
  destruct H as [?|[? ?]]; [lia|].
  destruct (Z.ltb_spec off (- 2 ^ 63)); [lia|].
  destruct (Z.leb_spec (2 ^ 63) off); [lia|]. cbn [orb].
  destruct (Z.ltb_spec off 0); [lia|].
  by destruct (Z.ltb_spec max_offset off); [lia|].
Qed.

(** What [seek] returns is the offset it was given, which is not
    negative. *)
Lemma seek_ok_inv f off n :
  seek max_offset f off = Ok n →
  0 ≤ off ∧ n = Z.to_nat off ∧
  (off ≤ Z.of_nat (length f) ∨ (off ≤ max_offset ∧ off < 2 ^ 63)).
Proof.
  unfold seek.
  destruct (Z.leb_spec 0 off); destruct (Z.leb_spec off (Z.of_nat (length f)));
    cbn [andb]; try (intros [= <-]; split; [lia|split; [done|by left]]);
    destruct (Z.ltb_spec off (- 2 ^ 63)); destruct (Z.leb_spec (2 ^ 63) off);
    cbn [orb]; try done;
    destruct (Z.ltb_spec off 0); destruct (Z.ltb_spec max_offset off);
    cbn [orb]; try done; try lia;
    intros [= <-]; split; [lia|split; [done|right; lia]].
Qed.

Lemma getitem_nonneg f idx :
  0 ≤ idx →
  idx * 36 ≤ Z.of_nat (length f) ∨ (idx * 36 ≤ max_offset ∧ idx * 36 < 2 ^ 63) →
  getitem f idx =
    let off := Z.to_nat (idx * Z.of_nat COMMITMENT_SIZE) in
    if decide (off + COMMITMENT_SIZE ≤ length f)%nat
    then Ok (read_at f off COMMITMENT_SIZE) else Raise KeyError.
Proof.
  intros Hidx Hoff. unfold Journal.getitem.
  rewrite seek_ok by (unfold COMMITMENT_SIZE; lia). cbv zeta.
  rewrite read_at_length.
  case_decide as Hle;
    destruct (Nat.eqb_spec
      (COMMITMENT_SIZE `min` (length f - Z.to_nat (idx * Z.of_nat COMMITMENT_SIZE)))
      COMMITMENT_SIZE) as [E|E]; try done; unfold COMMITMENT_SIZE in *; lia.
Qed.

Lemma getitem_last f e :
  aligned f → length e = COMMITMENT_SIZE → getitem (f ++ e) (entries f) = Ok e.
Proof.
  intros Hf He.
  pose proof (aligned_offset f Hf) as Hoff. unfold COMMITMENT_SIZE in Hoff.
  rewrite getitem_nonneg;
    [|unfold entries; lia
     |left; rewrite length_app; unfold entries in *; cbn [Nat.add] in Hoff; lia].
  cbv zeta. rewrite aligned_offset by done.
  rewrite decide_True by (rewrite length_app; lia).
  by rewrite <- He, read_at_app_end.
Qed.

Lemma journal_submit_ok f e :
  aligned f → length e = COMMITMENT_SIZE → submit f e = (f ++ e, Ok tt).
Proof.
  intros Hf He. unfold submit. rewrite He, Nat.eqb_refl. cbn [negb].
  unfold aligned in Hf. by rewrite Hf.
Qed.

(** C4: for a 36-byte entry [e] submitted to a journal that holds a whole
    number of records, [submit] appends [e], and [get] at the index [e]
    was assigned, the number of complete records before it, returns
    exactly [e]. *)
Theorem journal_submit_then_get (f : file) (e : bytes) :
  aligned f → length e = COMMITMENT_SIZE →
  submit f e = (f ++ e, Ok tt) ∧ getitem (f ++ e) (entries f) = Ok e.
Proof.
  intros Hf He. split; [by apply journal_submit_ok|by apply getitem_last].
Qed.

(** C8: [submit] raises [ValueError] for every entry whose length is not
    36 and leaves the file as it was; [get] at a record index whose
    offset [index * 36] the file system can address reads at that offset
    and raises [KeyError] exactly when fewer than 36 bytes remain in the
    file there, returning the 36 bytes there otherwise. *)
Theorem journal_rejects_and_not_found (f : file) (e : bytes) (idx : Z) :
  0 ≤ idx → idx * 36 ≤ max_offset → max_offset < 2 ^ 63 →
  (length e ≠ COMMITMENT_SIZE → submit f e = (f, Raise ValueError)) ∧
  (getitem f idx = Raise KeyError ↔
     Z.of_nat (length f) - idx * 36 < 36) ∧
  (36 ≤ Z.of_nat (length f) - idx * 36 →
     getitem f idx = Ok (take 36 (drop (Z.to_nat (idx * 36)) f))).
Proof.
  intros Hidx Hmax Hfit. split; [|split].
  - intros He. unfold submit.
    by destruct (Nat.eqb_spec (length e) COMMITMENT_SIZE).
  - rewrite getitem_nonneg by (done || (right; lia)). cbv zeta.
    case_decide as Hle; unfold COMMITMENT_SIZE in *; split; try done; lia.
  - intros Hge. rewrite getitem_nonneg by (done || (right; lia)). cbv zeta.
    rewrite decide_True by (unfold COMMITMENT_SIZE; lia). done.
Qed.

(** C6, amended: a journal file of [36*n + k] bytes, [0 < k < 36], is
    padded with [36 - k] zero bytes to [36*(n+1)] bytes when opened for
    writing; the next submitted entry is appended after the padding, so
    that record [n] is the [k] stray bytes followed by the zero padding
    and record [n+1] is the entry submitted. *)
Theorem journal_torn_tail_padded (f0 : file) (n k : nat) (e : bytes) :
  length f0 = (36 * n + k)%nat → (0 < k < 36)%nat →
  length e = COMMITMENT_SIZE →
  let f := open_writer f0 in
  f = f0 ++ replicate (36 - k) x00 ∧
  length f = (36 * (n + 1))%nat ∧
  submit f e = (f ++ e, Ok tt) ∧
  getitem (f ++ e) (Z.of_nat n) = Ok (drop (36 * n) f0 ++ replicate (36 - k) x00) ∧
  getitem (f ++ e) (Z.of_nat n + 1) = Ok e.
Proof.
  intros Hlen Hk He f.
  assert (Hmod : (length f0 mod COMMITMENT_SIZE = k)%nat).
  { rewrite Hlen. unfold COMMITMENT_SIZE. cbn [Nat.add].
    rewrite Nat.add_comm, Nat.mul_comm, Nat.Div0.mod_add.
    apply Nat.mod_small. lia. }
  assert (Hf : f = f0 ++ replicate (36 - k) x00).
  { unfold f, open_writer. cbv zeta. rewrite Hmod.
    destruct (Nat.eqb_spec k 0); [lia|done]. }
  assert (Hflen : length f = (36 * (n + 1))%nat).
  { rewrite Hf, length_app, length_replicate. lia. }
  assert (Hal : aligned f) by apply open_writer_aligned.
  assert (Hent : entries f = Z.of_nat n + 1).
  { unfold entries. rewrite Hflen. unfold COMMITMENT_SIZE. cbn [Nat.add].
    rewrite Nat.mul_comm, Nat.div_mul by done. lia. }
  split; [done|]. split; [done|].
  split; [by apply journal_submit_ok|].
  split; [|rewrite <- Hent; by apply getitem_last].
  rewrite getitem_nonneg by (lia || (left; rewrite length_app, Hflen; lia)). cbv zeta.
  replace (Z.to_nat (Z.of_nat n * Z.of_nat COMMITMENT_SIZE)) with (36 * n)%nat
    by (unfold COMMITMENT_SIZE; lia).
  rewrite decide_True by (rewrite length_app, Hflen; unfold COMMITMENT_SIZE; lia).
  f_equal. unfold read_at.
  rewrite drop_app_le by lia.
  rewrite take_app_length'; [|rewrite length_drop, Hflen; unfold COMMITMENT_SIZE; lia].
  rewrite Hf. rewrite drop_app_le by lia. done.
Qed.

End JournalClaims.

Lemma journal_submit_then_get_witness :
  let f := replicate 36 x2a in
  let e := replicate 36 x07 in
  Journal.submit f e = (f ++ e, Ok tt) ∧
  Journal.getitem ext4_max_offset (f ++ e) (Journal.entries f) = Ok e.
Proof. apply journal_submit_then_get; reflexivity. Defined.

Lemma journal_rejects_and_not_found_witness :
  let f := replicate 40 x2a in
  (length [x01; x02] ≠ Journal.COMMITMENT_SIZE →
     Journal.submit f [x01; x02] = (f, Raise ValueError)) ∧
  (Journal.getitem ext4_max_offset f 1 = Raise KeyError ↔
     Z.of_nat (length f) - 1 * 36 < 36) ∧
  (36 ≤ Z.of_nat (length f) - 1 * 36 →
     Journal.getitem ext4_max_offset f 1 = Ok (take 36 (drop (Z.to_nat (1 * 36)) f))).
Proof.
  apply (journal_rejects_and_not_found ext4_max_offset (replicate 40 x2a) [x01; x02] 1);
    unfold ext4_max_offset; lia.
Defined.

(** C6, as the specification states it, fails: a file of one stray byte
    (n = 0, k = 1) is padded to 36 bytes, the next entry is appended after
    the padding, and record 0 is the stray byte with its padding, not the
    entry submitted. *)
Lemma journal_torn_tail_counterexample :
  ¬ (∀ (f0 : Journal.file) (n k : nat) (e : bytes),
       length f0 = (36 * n + k)%nat → (0 < k < 36)%nat →
       length e = Journal.COMMITMENT_SIZE →
       Journal.getitem ext4_max_offset (Journal.submit (Journal.open_writer f0) e).1
         (Z.of_nat n) = Ok e).
Proof.
  intros H.
  specialize (H [xff] 0%nat 1%nat (replicate 36 x01) eq_refl ltac:(lia) eq_refl).
  vm_compute in H. discriminate H.
Qed.

Lemma journal_torn_tail_padded_witness :
  let f0 := replicate 36 x2a ++ [xde; xad] in
  let e := replicate 36 x07 in
  let f := Journal.open_writer f0 in
  f = f0 ++ replicate (36 - 2) x00 ∧
  length f = (36 * (1 + 1))%nat ∧
  Journal.submit f e = (f ++ e, Ok tt) ∧
  Journal.getitem ext4_max_offset (f ++ e) (Z.of_nat 1) =
    Ok (drop (36 * 1) f0 ++ replicate (36 - 2) x00) ∧
  Journal.getitem ext4_max_offset (f ++ e) (Z.of_nat 1 + 1) = Ok e.
Proof.
  apply (journal_torn_tail_padded ext4_max_offset (replicate 36 x2a ++ [xde; xad]) 1 2
           (replicate 36 x07));
    [reflexivity | lia | reflexivity].
Defined.

(** ** Timestamps on the heap *)

Import Ots.

Section OtsFacts.
Import Ots.
Local Open Scope nat_scope.
Variable sha256 : bytes → bytes.

Lemma bind_ok {A B} (m : M A) (k : A → M B) h h1 a :
  m h = (h1, Ok a) → (m ≫= k) h = k a h1.
Proof. intros Hm. unfold mbind, M_bind. by rewrite Hm. Qed.

Lemma bind_raise {A B} (m : M A) (k : A → M B) h h1 e :
  m h = (h1, Raise e) → (m ≫= k) h = (h1, Raise e).
Proof. intros Hm. unfold mbind, M_bind. by rewrite Hm. Qed.

Lemma get_obj_ok h l t : h !! l = Some t → get_obj l h = (h, Ok t).
Proof. intros Hl. unfold get_obj. by rewrite Hl. Qed.

Lemma ops_get_app_None d op l :
  ops_get d op = None → ops_get (d ++ [(op, l)]) op = Some l.
Proof.
  induction d as [|[op' l'] d IH]; simpl.
  - by rewrite decide_True.
  - case_decide; [done|]. apply IH.
Qed.

Lemma ops_get_app_Some d op l op' l' :
  ops_get d op = Some l → ops_get (d ++ [(op', l')]) op = Some l.
Proof.
  induction d as [|[op0 l0] d IH]; simpl; [done|].
  case_decide; [done|]. apply IH.
Qed.

Lemma ops_get_put d op l : ops_get (ops_put d op l) op = Some l.
Proof.
  induction d as [|[op' l'] d IH]; simpl.
  - by rewrite decide_True.
  - case_decide; simpl.
    + by rewrite decide_True.
    + by rewrite decide_False.
Qed.

Lemma ops_get_put_ne d op l op' :
  op ≠ op' → ops_get (ops_put d op l) op' = ops_get d op'.
Proof.
  intros Hne. induction d as [|[op0 l0] d IH]; simpl.
  - by rewrite decide_False.
  - case_decide; simpl.
    + subst. by rewrite !decide_False.
    + case_decide; [done|]. apply IH.
Qed.

Lemma ops_get_nil_ne d op l : ops_get d op = Some l → d ≠ [].
Proof. by destruct d. Qed.

(** [ops.add] of an op the timestamp does not have: a new timestamp for
    the result is allocated and bound to the op. *)
Lemma ops_add_new h l t op :
  h !! l = Some t → ops_get (ops t) op = None →
  ops_add sha256 l op h =
    (<[l := mkTimestamp (msg t) (attestations t) (ops t ++ [(op, length h)])]>
       (h ++ [mkTimestamp (apply_op sha256 op (msg t)) [] []]),
     Ok (length h)).
Proof.
  intros Hl Hop. unfold ops_add.
  rewrite (bind_ok _ _ _ _ _ (get_obj_ok _ _ _ Hl)). rewrite Hop.
  reflexivity.
Qed.

(** [ops.add] of an op the timestamp has: the timestamp bound to it. *)
Lemma ops_add_old h l t op l' :
  h !! l = Some t → ops_get (ops t) op = Some l' →
  ops_add sha256 l op h = (h, Ok l').
Proof.
  intros Hl Hop. unfold ops_add.
  rewrite (bind_ok _ _ _ _ _ (get_obj_ok _ _ _ Hl)). by rewrite Hop.
Qed.

(** Two new timestamps for one message are equal. *)
Lemma timestamp_eq_new h l1 l2 m :
  h !! l1 = Some (mkTimestamp m [] []) → h !! l2 = Some (mkTimestamp m [] []) →
  timestamp_eq l1 l2 h = (h, Ok true).
Proof.
  intros H1 H2. unfold timestamp_eq. cbn [timestamp_eqb].
  rewrite H1, H2. cbn. by rewrite bool_decide_eq_true_2.
Qed.

(** The heap after [ops.add] of a new op, by its lookups. *)
Lemma ops_add_new_spec h l t op :
  h !! l = Some t → ops_get (ops t) op = None →
  ∃ h', ops_add sha256 l op h = (h', Ok (length h)) ∧
    length h' = S (length h) ∧
    h' !! l = Some (mkTimestamp (msg t) (attestations t) (ops t ++ [(op, length h)])) ∧
    h' !! length h = Some (mkTimestamp (apply_op sha256 op (msg t)) [] []) ∧
    (∀ l', l' ≠ l → l' < length h → h' !! l' = h !! l').
Proof.
  intros Hl Hop. pose proof (lookup_lt_Some _ _ _ Hl) as Hlt.
  eexists. split; [by apply ops_add_new|].
  split; [rewrite length_insert, length_app; simpl; lia|].
  split; [apply list_lookup_insert_eq; rewrite length_app; simpl; lia|].
  split.
  - rewrite list_lookup_insert_ne by lia. by rewrite list_lookup_middle.
  - intros l' Hne Hl'. rewrite list_lookup_insert_ne by done.
    by rewrite lookup_app_l.
Qed.

(** Rebinding an op to another timestamp for the same message. *)
Lemma ops_set_rebind h l t op l0 t0 l' t' :
  h !! l = Some t → h !! l' = Some t' →
  ops_get (ops t) op = Some l0 → h !! l0 = Some t0 → msg t0 = msg t' →
  ops_set l op l' h =
    (<[l := mkTimestamp (msg t) (attestations t) (ops_put (ops t) op l')]> h, Ok tt).
Proof.
  intros Hl Hl' Hop Hl0 Hmsg. unfold ops_set.
  rewrite (bind_ok _ _ _ _ _ (get_obj_ok _ _ _ Hl)).
  rewrite (bind_ok _ _ _ _ _ (get_obj_ok _ _ _ Hl')).
  rewrite Hop.
  rewrite (bind_ok _ _ _ _ _ (get_obj_ok _ _ _ Hl0)).
  by rewrite decide_True.
Qed.

(** One node of the Merkle tree over two timestamps without ops: three
    timestamps are allocated, of which the last is the parent; the left
    one leads to it by an append and a hash, the right one by a prepend
    and a hash; nothing else changes. *)
Lemma cat_sha256_spec h left right lt rt :
  left ≠ right → h !! left = Some lt → h !! right = Some rt →
  ops lt = [] → ops rt = [] →
  ∃ h', cat_sha256 sha256 left right h = (h', Ok (length h + 2)%nat) ∧
    length h' = (length h + 3)%nat ∧
    h' !! left = Some (mkTimestamp (msg lt) (attestations lt)
                         [(OpAppend (msg rt), (length h + 1)%nat)]) ∧
    h' !! right = Some (mkTimestamp (msg rt) (attestations rt)
                          [(OpPrepend (msg lt), (length h + 1)%nat)]) ∧
    h' !! (length h + 1)%nat = Some (mkTimestamp (msg lt ++ msg rt) []
                                       [(OpSHA256, (length h + 2)%nat)]) ∧
    h' !! (length h + 2)%nat = Some (mkTimestamp (sha256 (msg lt ++ msg rt)) [] []) ∧
    (∀ l, l ≠ left → l ≠ right → l < length h → h' !! l = h !! l).
Proof.
  intros Hne Hl Hr Hlops Hrops.
  pose proof (lookup_lt_Some _ _ _ Hl) as Hllt.
  pose proof (lookup_lt_Some _ _ _ Hr) as Hrlt.
  destruct (ops_add_new_spec h left lt (OpAppend (msg rt)) Hl)
    as (h1 & E1 & Hlen1 & H1l & H1n & H1f); [by rewrite Hlops|].
  assert (H1r : h1 !! right = Some rt) by (rewrite H1f by (done || lia); done).
  destruct (ops_add_new_spec h1 right rt (OpPrepend (msg lt)) H1r)
    as (h2 & E2 & Hlen2 & H2r & H2n & H2f); [by rewrite Hrops|].
  rewrite Hlops in H1l. rewrite Hrops in H2r. simpl in H1l, H1n, H2r, H2n.
  rewrite Hlen1 in *.
  assert (H2l : h2 !! left = Some (mkTimestamp (msg lt) (attestations lt)
                                     [(OpAppend (msg rt), length h)]))
    by (rewrite H2f by (done || lia); done).
  assert (H2a : h2 !! length h = Some (mkTimestamp (msg lt ++ msg rt) [] []))
    by (rewrite H2f by lia; done).
  pose proof (timestamp_eq_new h2 _ _ _ H2a H2n) as E3.
  assert (E4 := λ Hop, ops_set_rebind h2 left _ (OpAppend (msg rt)) (length h) _
                          (S (length h)) _ H2l H2n Hop H2a eq_refl).
  simpl in E4. rewrite !decide_True in E4 by done.
  specialize (E4 eq_refl).
  set (h3 := <[left := _]> h2) in E4.
  assert (Hlen3 : length h3 = S (S (length h))) by (unfold h3; by rewrite length_insert).
  assert (H3n : h3 !! S (length h) = Some (mkTimestamp (msg lt ++ msg rt) [] []))
    by (unfold h3; rewrite list_lookup_insert_ne by lia; done).
  destruct (ops_add_new_spec h3 (S (length h)) _ OpSHA256 H3n)
    as (h4 & E5 & Hlen4 & H4n & H4c & H4f); [done|].
  simpl in H4n, H4c. rewrite Hlen3 in *.
  exists h4. split.
  { unfold cat_sha256.
    rewrite (bind_ok _ _ _ _ _ (get_obj_ok _ _ _ Hl)).
    rewrite (bind_ok _ _ _ _ _ (get_obj_ok _ _ _ Hr)).
    rewrite (bind_ok _ _ _ _ _ E1).
    rewrite (bind_ok _ _ _ _ _ E2).
    rewrite (bind_ok _ _ _ _ _ E3). cbn [negb].
    rewrite (bind_ok _ _ _ _ _ E4).
    rewrite E5. do 2 f_equal. lia. }
  replace (length h + 1)%nat with (S (length h)) by lia.
  replace (length h + 2)%nat with (S (S (length h))) by lia.
  split; [lia|].
  split.
  { rewrite H4f by lia. unfold h3. apply list_lookup_insert_eq. lia. }
  split.
  { rewrite H4f by lia. unfold h3. rewrite list_lookup_insert_ne by done. done. }
  split; [done|]. split; [done|].
  intros l Hl1 Hl2 Hl3. rewrite H4f by lia. unfold h3.
  rewrite list_lookup_insert_ne by done.
  rewrite H2f by lia. by rewrite H1f by lia.
Qed.

End OtsFacts.

(** ** The Merkle tree *)

Section MerkleFacts.
Import Ots.
Local Open Scope nat_scope.
Variable sha256 : bytes → bytes.

Lemma follow_app h x p q :
  follow h x (p ++ q) = follow h x p ≫= λ y, follow h y q.
Proof.
  revert x. induction p as [|op p IH]; intros x; simpl; [done|].
  destruct (h !! x) as [t|]; [|done].
  destruct (ops_get (ops t) op) as [l'|]; [|done]. apply IH.
Qed.

Lemma apply_ops_app p q m :
  apply_ops sha256 (p ++ q) m = apply_ops sha256 q (apply_ops sha256 p m).
Proof. unfold apply_ops. apply foldl_app. Qed.

Lemma resolves_nil h x m : msg_at h x = Some m → resolves sha256 h x [] x.
Proof. intros Hm. exists m. by repeat split. Qed.

Lemma resolves_app h x p y q z :
  resolves sha256 h x p y → resolves sha256 h y q z → resolves sha256 h x (p ++ q) z.
Proof.
  intros (mx & Hx & Hp & Hy) (my & Hy' & Hq & Hz).
  rewrite Hy in Hy'. injection Hy' as <-.
  exists mx. split; [done|]. split.
  - rewrite follow_app, Hp. done.
  - by rewrite apply_ops_app.
Qed.

Lemma reaches_trans h x y z :
  reaches sha256 h x y → reaches sha256 h y z → reaches sha256 h x z.
Proof. intros [p Hp] [q Hq]. exists (p ++ q). by eapply resolves_app. Qed.

Lemma preserved_refl h : preserved h h.
Proof. by split. Qed.

Lemma preserved_trans h1 h2 h3 : preserved h1 h2 → preserved h2 h3 → preserved h1 h3.
Proof. intros [A1 B1] [A2 B2]. split; eauto. Qed.

Lemma follow_preserved h h' x p y :
  preserved h h' → follow h x p = Some y → follow h' x p = Some y.
Proof.
  intros [Hops _]. revert x. induction p as [|op p IH]; intros x; simpl; [done|].
  destruct (h !! x) as [t|] eqn:Hx; [|done].
  destruct (ops_get (ops t) op) as [l'|] eqn:Hop; [|done].
  intros Hf. rewrite (Hops x t Hx (ops_get_nil_ne _ _ _ Hop)), Hop. by apply IH.
Qed.

Lemma resolves_preserved h h' x p y :
  preserved h h' → resolves sha256 h x p y → resolves sha256 h' x p y.
Proof.
  intros Hpre (mx & Hx & Hp & Hy). exists mx.
  split; [by apply Hpre|]. split; [by eapply follow_preserved|by apply Hpre].
Qed.

Lemma reaches_preserved h h' x y :
  preserved h h' → reaches sha256 h x y → reaches sha256 h' x y.
Proof. intros Hpre [p Hp]. exists p. by eapply resolves_preserved. Qed.

Lemma digest_leaf_lt h y : digest_leaf sha256 h y → y < length h.
Proof. intros (t & m & Hy & _). by eapply lookup_lt_Some. Qed.

(** One node of the tree over two distinct digest leaves: both lead to the
    parent, which is a new digest leaf; the other leaves stay leaves. *)
Lemma cat_sha256_frontier h left right :
  left ≠ right → digest_leaf sha256 h left → digest_leaf sha256 h right →
  ∃ h' parent, cat_sha256 sha256 left right h = (h', Ok parent) ∧
    length h ≤ parent ∧
    preserved h h' ∧
    digest_leaf sha256 h' parent ∧
    reaches sha256 h' left parent ∧ reaches sha256 h' right parent ∧
    (∀ y, y ≠ left → y ≠ right → digest_leaf sha256 h y → digest_leaf sha256 h' y).
Proof.
  intros Hne (lt & ml & Hl & Hlops & Hlmsg) (rt & mr & Hr & Hrops & Hrmsg).
  destruct (cat_sha256_spec sha256 h left right lt rt Hne Hl Hr Hlops Hrops)
    as (h' & E & Hlen & Hl' & Hr' & Hmid & Hpar & Hframe).
  exists h', (length h + 2). split; [done|]. split; [lia|].
  assert (Hpre : preserved h h').
  { split.
    - intros l t Hlt Hops.
      assert (l ≠ left) by (intros ->; congruence).
      assert (l ≠ right) by (intros ->; congruence).
      rewrite Hframe; [done..|]. by eapply lookup_lt_Some.
    - intros l m. unfold msg_at. intros Hm.
      destruct (h !! l) as [t|] eqn:Hlt; [|done]. simpl in Hm.
      destruct (decide (l = left)) as [->|?].
      { rewrite Hl'. simpl. congruence. }
      destruct (decide (l = right)) as [->|?].
      { rewrite Hr'. simpl. congruence. }
      rewrite Hframe; [by rewrite Hlt|done..|]. by eapply lookup_lt_Some. }
  split; [done|]. split.
  { eexists _, _. split; [done|]. by split. }
  split.
  { exists [OpAppend (msg rt); OpSHA256], (msg lt). unfold msg_at.
    split; [by rewrite Hl'|]. split.
    - simpl. rewrite Hl'. simpl. rewrite decide_True by done.
      rewrite Hmid. simpl. by rewrite ?decide_True.
    - by rewrite Hpar. }
  split.
  { exists [OpPrepend (msg lt); OpSHA256], (msg rt). unfold msg_at.
    split; [by rewrite Hr'|]. split.
    - simpl. rewrite Hr'. simpl. rewrite decide_True by done.
      rewrite Hmid. simpl. by rewrite ?decide_True.
    - by rewrite Hpar. }
  intros y Hy1 Hy2 (t & m & Hy & Hops & Hmsg). exists t, m.
  split; [|done]. rewrite Hframe; [done..|]. by eapply lookup_lt_Some.
Qed.

Lemma frontier_perm h orig F F' :
  F ≡ₚ F' → frontier sha256 h orig F → frontier sha256 h orig F'.
Proof.
  intros HP (Hnd & Hleaf & Hreach). split; [by rewrite <- HP|]. split.
  - intros y Hy. apply Hleaf. by rewrite HP.
  - intros x Hx. destruct (Hreach x Hx) as (y & Hy & Hr).
    exists y. split; [by rewrite <- HP|done].
Qed.

(** Combining the first two stamps of the frontier. *)
Lemma frontier_cat h orig left right G :
  frontier sha256 h orig (left :: right :: G) →
  ∃ h' parent, cat_sha256 sha256 left right h = (h', Ok parent) ∧
    preserved h h' ∧ frontier sha256 h' orig (G ++ [parent]).
Proof.
  intros (Hnd & Hleaf & Hreach).
  apply NoDup_cons in Hnd as [Hl Hnd]. apply NoDup_cons in Hnd as [Hr Hnd].
  assert (Hne : left ≠ right) by (intros ->; apply Hl; left).
  assert (HlG : left ∉ G) by (intros ?; apply Hl; by right).
  destruct (cat_sha256_frontier h left right Hne) as
    (h' & parent & E & Hfresh & Hpre & Hpleaf & Hlp & Hrp & Hothers).
  { apply Hleaf. left. }
  { apply Hleaf. right. left. }
  exists h', parent. split; [done|]. split; [done|].
  assert (HG : ∀ y, y ∈ G → y < length h).
  { intros y Hy. apply digest_leaf_lt, Hleaf. by do 2 right. }
  split; [|split].
  - apply NoDup_app. split; [done|]. split; [|apply NoDup_singleton].
    intros y Hy Hin. apply list_elem_of_singleton in Hin as ->.
    specialize (HG _ Hy). lia.
  - intros y Hy. apply elem_of_app in Hy as [Hy|Hy].
    + apply Hothers; [by intros ->..|]. apply Hleaf. by do 2 right.
    + by apply list_elem_of_singleton in Hy as ->.
  - intros x Hx. destruct (Hreach x Hx) as (y & Hy & Hxy).
    pose proof (reaches_preserved _ _ _ _ Hpre Hxy) as Hxy'.
    apply elem_of_cons in Hy as [->|Hy].
    { exists parent. split; [apply elem_of_app; right; left|].
      by eapply reaches_trans. }
    apply elem_of_cons in Hy as [->|Hy].
    { exists parent. split; [apply elem_of_app; right; left|].
      by eapply reaches_trans. }
    exists y. split; [apply elem_of_app; by left|done].
Qed.

(** One level of the tree keeps the frontier, and halves it. *)
Lemma merkle_pass_frontier orig stamps :
  ∀ prev next h,
    frontier sha256 h orig (option_list prev ++ stamps ++ next) →
    ∃ h' prev' next',
      merkle_pass sha256 prev stamps next h = (h', Ok (prev', next')) ∧
      preserved h h' ∧
      frontier sha256 h' orig (option_list prev' ++ next') ∧
      length (option_list prev') + 2 * length next' =
        length (option_list prev) + length stamps + 2 * length next.
Proof.
  induction stamps as [|stamp stamps IH]; intros prev next h HF.
  - exists h, prev, next. simpl. split; [done|].
    split; [apply preserved_refl|]. split; [done|lia].
  - destruct prev as [prev|]; simpl in HF |- *.
    + destruct (frontier_cat h orig prev stamp (stamps ++ next) HF)
        as (h1 & parent & E & Hpre1 & HF1).
      rewrite <- app_assoc in HF1.
      destruct (IH None (next ++ [parent]) h1 HF1)
        as (h' & prev' & next' & E' & Hpre' & HF' & Hlen).
      exists h', prev', next'. split.
      { by rewrite (bind_ok _ _ _ _ _ E). }
      split; [by eapply preserved_trans|]. split; [done|].
      rewrite length_app in Hlen. simpl in *. lia.
    + destruct (IH (Some stamp) next h HF)
        as (h' & prev' & next' & E' & Hpre' & HF' & Hlen).
      exists h', prev', next'. split; [done|]. split; [done|].
      split; [done|]. simpl in *. lia.
Qed.

(** The levels end with one stamp, to which every original stamp leads,
    provided there are at least as many levels as stamps. *)
Lemma merkle_levels_frontier orig fuel :
  ∀ stamps h,
    stamps ≠ [] → length stamps ≤ fuel →
    frontier sha256 h orig stamps →
    ∃ h' root,
      merkle_levels sha256 (S fuel) stamps h = (h', Ok (Some root)) ∧
      preserved h h' ∧ frontier sha256 h' orig [root].
Proof.
  induction fuel as [|fuel IH]; intros stamps h Hne Hlen HF.
  { destruct stamps; [done|simpl in Hlen; lia]. }
  destruct stamps as [|first stamps]; [done|]. clear Hne.
  destruct (merkle_pass_frontier orig stamps (Some first) [] h)
    as (h1 & prev' & next' & E & Hpre & HF1 & Hcount).
  { by rewrite app_nil_r. }
  simpl in Hcount, Hlen.
  cbn [merkle_levels]. rewrite (bind_ok _ _ _ _ _ E).
  destruct next' as [|parent next'].
  - simpl in Hcount. destruct prev' as [root|]; simpl in Hcount; [|lia].
    exists h1, root. split; [done|]. split; [done|].
    by rewrite app_nil_r in HF1.
  - set (stamps' := match prev' with
                    | Some prev => (parent :: next') ++ [prev]
                    | None => parent :: next'
                    end).
    assert (HP : option_list prev' ++ parent :: next' ≡ₚ stamps').
    { unfold stamps'. destruct prev' as [prev|]; [|done].
      apply (Permutation_cons_append (parent :: next') prev). }
    assert (Hlen' : length stamps' ≤ fuel).
    { rewrite <- HP, length_app. simpl in *. lia. }
    destruct (IH stamps' h1) as (h' & root & E' & Hpre' & HF').
    { unfold stamps'. by destruct prev'. }
    { done. }
    { by eapply frontier_perm. }
    exists h', root. split; [done|]. split; [by eapply preserved_trans|done].
Qed.

(** [make_merkle_tree] returns: over distinct digest leaves it ends with a
    root to which each of them leads. *)
Lemma make_merkle_tree_returns orig stamps h :
  stamps ≠ [] → frontier sha256 h orig stamps →
  ∃ h' root,
    make_merkle_tree sha256 stamps h = (h', Ok (Some root)) ∧
    preserved h h' ∧ frontier sha256 h' orig [root].
Proof.
  intros Hne HF. unfold make_merkle_tree.
  by apply merkle_levels_frontier.
Qed.

End MerkleFacts.

(** ** The message of a timestamp is immutable *)

Section MsgsKept.
Local Open Scope nat_scope.
Variable sha256 : bytes → bytes.

Lemma msgs_kept_refl h : msgs_kept h h.
Proof. by intros l m. Qed.

Lemma msgs_kept_trans h1 h2 h3 : msgs_kept h1 h2 → msgs_kept h2 h3 → msgs_kept h1 h3.
Proof. intros H1 H2 l m Hl. by apply H2, H1. Qed.

Lemma msgs_kept_app h k : msgs_kept h (h ++ k).
Proof.
  intros l m. unfold msg_at. destruct (h !! l) as [t|] eqn:Hl; [|done].
  by rewrite (lookup_app_l_Some _ _ _ _ Hl).
Qed.

Lemma msgs_kept_insert h l t t' :
  h !! l = Some t → msg t' = msg t → msgs_kept h (<[l := t']> h).
Proof.
  intros Hl Hmsg l0 m. unfold msg_at. destruct (decide (l = l0)) as [<-|Hne].
  - rewrite Hl, list_lookup_insert_eq by (by eapply lookup_lt_Some).
    simpl. congruence.
  - by rewrite list_lookup_insert_ne.
Qed.

Lemma keeps_ret {A} (a : A) : keeps_msgs (mret a).
Proof. intros h h' r [= <- _]. apply msgs_kept_refl. Qed.

Lemma keeps_raise {A} e : keeps_msgs (@raise A e).
Proof. intros h h' r [= <- _]. apply msgs_kept_refl. Qed.

Lemma keeps_bind {A B} (c : M A) (k : A → M B) :
  keeps_msgs c → (∀ a, keeps_msgs (k a)) → keeps_msgs (c ≫= k).
Proof.
  intros Hc Hk h h' r. unfold mbind, M_bind.
  destruct (c h) as [h1 [a|e]] eqn:E.
  - intros Hka. eapply msgs_kept_trans; [by eapply Hc|by eapply Hk].
  - intros [= <- _]. by eapply Hc.
Qed.

Lemma keeps_get_obj l : keeps_msgs (get_obj l).
Proof.
  intros h h' r. unfold get_obj.
  destruct (h !! l); intros [= <- _]; apply msgs_kept_refl.
Qed.

Lemma keeps_timestamp_eq l1 l2 : keeps_msgs (timestamp_eq l1 l2).
Proof. intros h h' r [= <- _]. apply msgs_kept_refl. Qed.

Lemma keeps_new_timestamp m : keeps_msgs (new_timestamp m).
Proof. intros h h' r [= <- _]. apply msgs_kept_app. Qed.

Lemma keeps_ops_add l op : keeps_msgs (ops_add sha256 l op).
Proof.
  intros h h' r. unfold ops_add, mbind, M_bind, get_obj.
  destruct (h !! l) as [t|] eqn:Hl; [|intros [= <- _]; apply msgs_kept_refl].
  destruct (ops_get (ops t) op); [intros [= <- _]; apply msgs_kept_refl|].
  simpl. intros [= <- _].
  eapply msgs_kept_trans; [apply msgs_kept_app|].
  eapply msgs_kept_insert; [by apply lookup_app_l_Some|done].
Qed.

Lemma keeps_ops_set l op l' : keeps_msgs (ops_set l op l').
Proof.
  intros h h' r. unfold ops_set, mbind, M_bind, get_obj.
  destruct (h !! l) as [t|] eqn:Hl; [|intros [= <- _]; apply msgs_kept_refl].
  destruct (h !! l') as [t'|] eqn:Hl'; [|intros [= <- _]; apply msgs_kept_refl].
  destruct (ops_get (ops t) op) as [l0|].
  - destruct (h !! l0) as [t0|]; [|intros [= <- _]; apply msgs_kept_refl].
    case_decide; intros [= <- _]; [|apply msgs_kept_refl].
    by eapply msgs_kept_insert.
  - intros [= <- _]. by eapply msgs_kept_insert.
Qed.

Lemma keeps_attestations_add l a : keeps_msgs (attestations_add l a).
Proof.
  intros h h' r. unfold attestations_add, mbind, M_bind, get_obj.
  destruct (h !! l) as [t|] eqn:Hl; [|intros [= <- _]; apply msgs_kept_refl].
  case_decide; intros [= <- _]; [apply msgs_kept_refl|].
  by eapply msgs_kept_insert.
Qed.

Lemma keeps_cat_sha256 left right : keeps_msgs (cat_sha256 sha256 left right).
Proof.
  unfold cat_sha256.
  apply keeps_bind; [apply keeps_get_obj|intros lt].
  apply keeps_bind; [apply keeps_get_obj|intros rt].
  apply keeps_bind; [apply keeps_ops_add|intros la].
  apply keeps_bind; [apply keeps_ops_add|intros rp].
  apply keeps_bind; [apply keeps_timestamp_eq|intros same].
  destruct (negb same); [apply keeps_raise|].
  apply keeps_bind; [apply keeps_ops_set|intros _]. apply keeps_ops_add.
Qed.

Lemma keeps_merkle_pass stamps :
  ∀ prev next, keeps_msgs (merkle_pass sha256 prev stamps next).
Proof.
  induction stamps as [|stamp stamps IH]; intros prev next; simpl.
  - apply keeps_ret.
  - destruct prev as [prev|]; [|apply IH].
    apply keeps_bind; [apply keeps_cat_sha256|intros parent; apply IH].
Qed.

Lemma keeps_merkle_levels fuel :
  ∀ stamps, keeps_msgs (merkle_levels sha256 fuel stamps).
Proof.
  induction fuel as [|fuel IH]; intros stamps; simpl; [apply keeps_raise|].
  destruct stamps as [|first stamps]; [apply keeps_raise|].
  apply keeps_bind; [apply keeps_merkle_pass|intros [prev next]].
  destruct next; [apply keeps_ret|apply IH].
Qed.

Lemma keeps_make_merkle_tree stamps : keeps_msgs (make_merkle_tree sha256 stamps).
Proof. apply keeps_merkle_levels. Qed.

Lemma keeps_nonce_timestamp l nonce : keeps_msgs (nonce_timestamp sha256 l nonce).
Proof.
  unfold nonce_timestamp.
  apply keeps_bind; [apply keeps_ops_add|intros ?; apply keeps_ops_add].
Qed.

(** [Calendar.submit] keeps the messages, however it ends. *)
Lemma calendar_submit_msgs_kept cal c now h cal' h' r :
  Calendar.submit sha256 cal c now h = (cal', h', r) → msgs_kept h h'.
Proof.
  unfold Calendar.submit.
  destruct (Calendar.pack_be32 now) as [st|e]; [|intros [= _ <- _]; apply msgs_kept_refl].
  match goal with
  | |- context [match ?c h with _ => _ end] =>
      assert (keeps_msgs c) as Hk; [|destruct (c h) as [h1 [cm|e]] eqn:E]
  end.
  { apply keeps_bind; [apply keeps_ops_add|intros commitment].
    apply keeps_bind; [apply keeps_attestations_add|intros _].
    apply keeps_bind; [apply keeps_get_obj|intros ?; apply keeps_ret]. }
  - destruct (Journal.submit _ _). intros [= _ <- _]. by eapply Hk.
  - intros [= _ <- _]. by eapply Hk.
Qed.

End MsgsKept.

(** ** The calendar: submission *)

Section CalendarSubmitFacts.
Import Ots.
Variable sha256 : bytes → bytes.

Lemma to_N_byte_of_Z z :
  Z.of_N (Byte.to_N (Calendar.byte_of_Z z)) = z `mod` 256.
Proof.
  unfold Calendar.byte_of_Z.
  pose proof (Z.mod_pos_bound z 256 ltac:(lia)) as Hb.
  destruct (Byte.of_N (Z.to_N (z `mod` 256))) as [b|] eqn:E.
  - simpl. apply Byte.to_of_N in E. rewrite E. lia.
  - apply Byte.of_N_None_iff in E. lia.
Qed.

(** [struct.pack('>L', t)] is four bytes, and they stand for [t]. *)
Lemma pack_be32_spec t :
  0 ≤ t < 2 ^ 32 →
  ∃ st, Calendar.pack_be32 t = Ok st ∧ length st = 4%nat ∧ Calendar.unpack_be st = t.
Proof.
  intros Ht. unfold Calendar.pack_be32.
  destruct (Z.leb_spec 0 t); [|lia]. destruct (Z.ltb_spec t (2 ^ 32)); [|lia].
  eexists. split; [done|]. split; [done|].
  unfold Calendar.unpack_be. cbn [foldl]. rewrite !to_N_byte_of_Z.
  rewrite !Z.shiftr_div_pow2 by lia.
  change (2 ^ 24) with 16777216. change (2 ^ 16) with 65536. change (2 ^ 8) with 256.
  change (2 ^ 32) with 4294967296 in *.
  pose proof (Z.div_mod t 256 ltac:(lia)).
  pose proof (Z.div_mod (t / 256) 256 ltac:(lia)).
  pose proof (Z.div_mod (t / 256 / 256) 256 ltac:(lia)).
  pose proof (Z.div_mod (t / 256 / 256 / 256) 256 ltac:(lia)).
  replace (t / 16777216) with (t / 256 / 256 / 256)
    by (rewrite !Z.div_div by lia; done).
  replace (t / 65536) with (t / 256 / 256) by (rewrite !Z.div_div by lia; done).
  assert (t / 256 / 256 / 256 / 256 = 0).
  { rewrite !Z.div_div by lia. apply Z.div_small. lia. }
  lia.
Qed.

Lemma pack_be32_raises t :
  ¬ (0 ≤ t < 2 ^ 32) → Calendar.pack_be32 t = Raise StructError.
Proof.
  intros Ht. unfold Calendar.pack_be32.
  destruct (Z.leb_spec 0 t); destruct (Z.ltb_spec t (2 ^ 32)); simpl; try done; lia.
Qed.

Lemma attestations_add_spec h l t a :
  h !! l = Some t →
  ∃ atts, attestations_add l a h =
            (<[l := mkTimestamp (msg t) atts (ops t)]> h, Ok tt) ∧ a ∈ atts.
Proof.
  intros Hl. unfold attestations_add.
  rewrite (bind_ok _ _ _ _ _ (get_obj_ok _ _ _ Hl)).
  case_decide as Hin.
  - exists (attestations t). split; [|done].
    rewrite list_insert_id; [done|]. rewrite Hl. by destruct t.
  - exists (attestations t ++ [a]). split; [done|].
    apply elem_of_app. right. left.
Qed.

(** [Calendar.submit] of a commitment that was not submitted at this time
    before: the timestamp of the time-prefixed commitment is created, gets
    the pending attestation, and its message is the record appended to the
    journal. *)
Lemma calendar_submit_new (cal : Calendar.t) c t now st h :
  h !! c = Some t → ops_get (ops t) (OpPrepend st) = None →
  Calendar.pack_be32 now = Ok st → length (st ++ msg t) = Journal.COMMITMENT_SIZE →
  Journal.aligned (Calendar.journal cal) →
  ∃ h', Calendar.submit sha256 cal c now h =
          (Calendar.mk (Calendar.journal cal ++ st ++ msg t) (Calendar.uri cal), h', Ok tt) ∧
    length h' = S (length h) ∧
    h' !! c = Some (mkTimestamp (msg t) (attestations t)
                      (ops t ++ [(OpPrepend st, length h)])) ∧
    h' !! length h = Some (mkTimestamp (st ++ msg t)
                             [PendingAttestation (Calendar.uri cal)] []) ∧
    (∀ l, l ≠ c → (l < length h)%nat → h' !! l = h !! l).
Proof.
  intros Hc Hop Hpack Hlen Hal.
  pose proof (lookup_lt_Some _ _ _ Hc) as Hclt.
  destruct (ops_add_new_spec sha256 h c t (OpPrepend st) Hc Hop)
    as (h1 & E1 & Hlen1 & H1c & H1n & H1f).
  simpl in H1n.
  destruct (attestations_add_spec h1 (length h) _
              (PendingAttestation (Calendar.uri cal)) H1n) as (atts & E2 & _).
  assert (E2' : attestations_add (length h) (PendingAttestation (Calendar.uri cal)) h1 =
            (<[length h := mkTimestamp (st ++ msg t)
                             [PendingAttestation (Calendar.uri cal)] []]> h1, Ok tt)).
  { unfold attestations_add.
    rewrite (bind_ok _ _ _ _ _ (get_obj_ok _ _ _ H1n)). cbn [attestations].
    case_decide as Hin; [by apply not_elem_of_nil in Hin|done]. }
  clear E2 atts.
  set (h2 := <[length h := _]> h1) in E2'.
  assert (H2n : h2 !! length h = Some (mkTimestamp (st ++ msg t)
                                         [PendingAttestation (Calendar.uri cal)] [])).
  { unfold h2. apply list_lookup_insert_eq. lia. }
  exists h2. split.
  { unfold Calendar.submit. rewrite Hpack.
    rewrite (bind_ok _ _ _ _ _ E1), (bind_ok _ _ _ _ _ E2').
    rewrite (bind_ok _ _ _ _ _ (get_obj_ok _ _ _ H2n)).
    cbn [mret M_ret msg].
    by rewrite (journal_submit_ok (Calendar.journal cal) (st ++ msg t) Hal Hlen). }
  split; [unfold h2; rewrite length_insert; lia|].
  split; [unfold h2; rewrite list_lookup_insert_ne by lia; done|].
  split; [done|].
  intros l Hl1 Hl2. unfold h2. rewrite list_lookup_insert_ne by lia. by apply H1f.
Qed.

(** [Calendar.submit] of a commitment that has the time-prefix op
    already: the journal gets the message of the timestamp under it. *)
Lemma calendar_submit_old (cal : Calendar.t) c t now st l' t' h :
  h !! c = Some t → ops_get (ops t) (OpPrepend st) = Some l' → h !! l' = Some t' →
  Calendar.pack_be32 now = Ok st → length (msg t') = Journal.COMMITMENT_SIZE →
  Journal.aligned (Calendar.journal cal) →
  ∃ h', Calendar.submit sha256 cal c now h =
          (Calendar.mk (Calendar.journal cal ++ msg t') (Calendar.uri cal), h', Ok tt).
Proof.
  intros Hc Hop Hl' Hpack Hlen Hal.
  destruct (attestations_add_spec h l' t'
              (PendingAttestation (Calendar.uri cal)) Hl') as (atts & E2 & _).
  set (h2 := <[l' := _]> h) in E2.
  assert (H2 : h2 !! l' = Some (mkTimestamp (msg t') atts (ops t'))).
  { unfold h2. apply list_lookup_insert_eq. by eapply lookup_lt_Some. }
  exists h2. unfold Calendar.submit. rewrite Hpack.
  rewrite (bind_ok _ _ _ _ _ (ops_add_old sha256 _ _ _ _ _ Hc Hop)).
  rewrite (bind_ok _ _ _ _ _ E2).
  rewrite (bind_ok _ _ _ _ _ (get_obj_ok _ _ _ H2)).
  cbn [mret M_ret msg].
  by rewrite (journal_submit_ok (Calendar.journal cal) (msg t') Hal Hlen).
Qed.

End CalendarSubmitFacts.

Section CalendarSubmitClaims.
Import Ots.
Variable sha256 : bytes → bytes.

(** The largest offset of the file system of the journal. *)
Variable max_offset : Z.

(** C5, amended: every record written to the journal by [Calendar.submit]
    for a 32-byte commitment digest is a 36-byte value laid out as the
    4-byte big-endian submission time (seconds since the epoch) followed
    by the 32-byte commitment digest; it is the record at the next index
    of the journal, so that for the first commitment [Journal.get(0)]
    returns the submission time followed by the commitment digest. *)
Theorem calendar_submit_record (cal : Calendar.t) (c : loc) (t : Timestamp)
    (now : Z) (h : heap) :
  consistent sha256 h → h !! c = Some t → length (msg t) = 32%nat →
  0 ≤ now < 2 ^ 32 → Journal.aligned (Calendar.journal cal) →
  ∃ st h',
    length st = 4%nat ∧ Calendar.unpack_be st = now ∧
    Calendar.submit sha256 cal c now h =
      (Calendar.mk (Calendar.journal cal ++ st ++ msg t) (Calendar.uri cal), h', Ok tt) ∧
    length (st ++ msg t) = 36%nat ∧
    Journal.getitem max_offset (Calendar.journal cal ++ st ++ msg t)
      (Journal.entries (Calendar.journal cal)) = Ok (st ++ msg t) ∧
    (Calendar.journal cal = [] → Journal.getitem max_offset (st ++ msg t) 0 = Ok (st ++ msg t)).
Proof.
  intros Hcons Hc Hmsg Hnow Hal.
  destruct (pack_be32_spec now Hnow) as (st & Hpack & Hst & Hun).
  assert (Hlen : length (st ++ msg t) = Journal.COMMITMENT_SIZE)
    by (rewrite length_app, Hst, Hmsg; done).
  assert (Hget := getitem_last max_offset (Calendar.journal cal) (st ++ msg t) Hal Hlen).
  assert (∃ h', Calendar.submit sha256 cal c now h =
      (Calendar.mk (Calendar.journal cal ++ st ++ msg t) (Calendar.uri cal), h', Ok tt))
    as [h' Hsub].
  { destruct (ops_get (ops t) (OpPrepend st)) as [l'|] eqn:Hop.
    - pose proof (Hcons c t _ l' Hc Hop) as Hl'. unfold msg_at in Hl'.
      destruct (h !! l') as [t'|] eqn:Ht'; [|done].
      injection Hl' as Hl'. simpl in Hl'.
      destruct (calendar_submit_old sha256 cal c t now st l' t' h) as [h' E];
        try done; [by rewrite Hl'|].
      exists h'. by rewrite E, Hl'.
    - destruct (calendar_submit_new sha256 cal c t now st h) as (h' & E & _);
        try done.
      by exists h'. }
  exists st, h'. repeat (split; [done|]).
  intros Hnil. rewrite Hnil in Hget. exact Hget.
Qed.

End CalendarSubmitClaims.

(** C5, as the specification states it, fails: for the commitment digest
    of 32 bytes [01] submitted at time 5 to an empty journal, record 0 is
    the four bytes of the time followed by the digest, not the digest
    followed by the time. *)
Lemma calendar_record_layout_counterexample :
  let C := replicate 32 x01 in
  let h := [mkTimestamp C [] []] in
  let '(cal', _, r) := Calendar.submit toy_sha256 (Calendar.mk [] [x75]) 0%nat 5 h in
  r = Ok tt ∧
  Journal.getitem ext4_max_offset (Calendar.journal cal') 0 = Ok ([x00; x00; x00; x05] ++ C) ∧
  Journal.getitem ext4_max_offset (Calendar.journal cal') 0 ≠ Ok (C ++ [x00; x00; x00; x05]).
Proof. vm_compute. split; [done|]. split; [done|]. discriminate. Qed.

Lemma calendar_submit_record_witness :
  let t := mkTimestamp (replicate 32 x01) [] [] in
  ∃ st h',
    length st = 4%nat ∧ Calendar.unpack_be st = 1478197983 ∧
    Calendar.submit toy_sha256 (Calendar.mk [] [x75]) 0%nat 1478197983 [t] =
      (Calendar.mk ([] ++ st ++ msg t) [x75], h', Ok tt) ∧
    length (st ++ msg t) = 36%nat ∧
    Journal.getitem ext4_max_offset ([] ++ st ++ msg t) (Journal.entries []) = Ok (st ++ msg t) ∧
    (@nil byte = [] → Journal.getitem ext4_max_offset (st ++ msg t) 0 = Ok (st ++ msg t)).
Proof.
  apply (calendar_submit_record toy_sha256 ext4_max_offset (Calendar.mk [] [x75]) 0%nat
           (mkTimestamp (replicate 32 x01) [] []) 1478197983
           [mkTimestamp (replicate 32 x01) [] []]).
  - intros l t op l' Hl Hop. destruct l as [|l]; [|done].
    injection Hl as <-. done.
  - reflexivity.
  - reflexivity.
  - lia.
  - reflexivity.
Defined.

(** ** The calendar: lookup *)

Section CalendarLookup.
Context {Stamp : Type}.
Variable deserialize : bytes → bytes → option Stamp.
Variable commitment_timestamps_path : bytes → string.

Local Abbreviation getitem := (Calendar.getitem deserialize commitment_timestamps_path).

(** What the file [name] of directory [d] deserializes to. *)
Local Abbreviation parsed d commitment :=
  (λ name : string, d !! name ≫= λ contents : bytes, deserialize contents commitment).

Lemma scan_spec (d : gmap string bytes) commitment names no_valid :
  (∀ name, name ∈ names → is_Some (d !! name)) →
  Calendar.scan deserialize d commitment names no_valid =
    (omap (parsed d commitment) names,
     match omap (parsed d commitment) names with
     | [] => if no_valid then Raise KeyError else Ok tt
     | _ :: _ => Ok tt
     end).
Proof.
  revert no_valid. induction names as [|name names IH]; intros no_valid Hin; [done|].
  destruct (Hin name) as [contents Hc]; [left|].
  assert (Hin' : ∀ n, n ∈ names → is_Some (d !! n)) by (intros n ?; apply Hin; by right).
  cbn [Calendar.scan omap list_omap]. rewrite Hc. cbn [mbind option_bind].
  destruct (deserialize contents commitment) as [ts|].
  - rewrite (IH false Hin'). by destruct (omap _ names).
  - by rewrite (IH no_valid Hin').
Qed.

Lemma listdir_lookup (d : gmap string bytes) name :
  name ∈ Calendar.listdir d ↔ is_Some (d !! name).
Proof.
  unfold Calendar.listdir. rewrite list_elem_of_fmap. split.
  - intros ([n c] & -> & Hin). apply elem_of_map_to_list in Hin. by exists c.
  - intros [c Hc]. exists (name, c). split; [done|]. by apply elem_of_map_to_list.
Qed.

Lemma omap_nil_iff {A B} (f : A → option B) (l : list A) :
  omap f l = [] ↔ ∀ x, x ∈ l → f x = None.
Proof.
  induction l as [|x l IH]; simpl.
  - split; [intros _ y Hy; by apply elem_of_nil in Hy|done].
  - destruct (f x) eqn:Hx.
    + split; [done|]. intros H. specialize (H x ltac:(left)). congruence.
    + rewrite IH. split.
      * intros H y Hy. apply elem_of_cons in Hy as [->|Hy]; auto.
      * intros H y Hy. apply H. by right.
Qed.

(** The generator in terms of the directory: nothing and [KeyError] for
    no directory; otherwise what the files deserialize to, in the order
    of their sorted names, and [KeyError] at the end when that is
    nothing. *)
Lemma getitem_spec (fs : gmap string (gmap string bytes)) commitment :
  getitem fs commitment =
    match fs !! commitment_timestamps_path commitment with
    | None => ([], Raise KeyError)
    | Some d =>
        let yielded :=
          omap (parsed d commitment) (merge_sort Calendar.name_le (Calendar.listdir d)) in
        (yielded, match yielded with [] => Raise KeyError | _ :: _ => Ok tt end)
    end.
Proof.
  unfold Calendar.getitem.
  destruct (fs !! commitment_timestamps_path commitment) as [d|]; [|done].
  destruct (Calendar.listdir d) as [|n ns] eqn:Hls; [done|].
  rewrite scan_spec; [done|].
  intros name Hname. rewrite merge_sort_Permutation, <- Hls in Hname.
  by apply listdir_lookup.
Qed.

(** C7: during a lookup every stored proof file that fails to deserialize
    is skipped and the valid ones are still yielded, in the order of the
    sorted file names; the lookup fails with [KeyError] exactly when the
    directory of the commitment is absent, is empty, or every file in it
    fails to deserialize, and it fails in no other way; a directory with
    one corrupt and one valid file yields exactly the valid proof and no
    error. *)
Theorem lookup_skips_corrupt (fs : gmap string (gmap string bytes)) (commitment : bytes) :
  let dir := fs !! commitment_timestamps_path commitment in
  let yielded := (getitem fs commitment).1 in
  let ending := (getitem fs commitment).2 in
  (∀ d, dir = Some d →
     yielded = omap (parsed d commitment)
                 (merge_sort Calendar.name_le (Calendar.listdir d))) ∧
  (ending = Raise KeyError ↔
     dir = None ∨ dir = Some ∅ ∨
     ∃ d, dir = Some d ∧
          ∀ name contents, d !! name = Some contents →
                           deserialize contents commitment = None) ∧
  (ending = Raise KeyError ∧ yielded = [] ∨ ending = Ok tt ∧ yielded ≠ []) ∧
  (∀ corrupt valid bad good stamp,
     corrupt ≠ valid →
     dir = Some {[corrupt := bad; valid := good]} →
     deserialize bad commitment = None →
     deserialize good commitment = Some stamp →
     getitem fs commitment = ([stamp], Ok tt)).
Proof.
  cbv zeta. rewrite getitem_spec.
  destruct (fs !! commitment_timestamps_path commitment) as [d|] eqn:Hd; cbn [fst snd].
  2:{ split; [done|]. split; [by split; [left|]|]. split; [by left|]. done. }
  set (names := merge_sort Calendar.name_le (Calendar.listdir d)).
  assert (Hall : omap (parsed d commitment) names = [] ↔
                 ∀ name contents, d !! name = Some contents →
                                  deserialize contents commitment = None).
  { rewrite omap_nil_iff. split.
    - intros H name contents Hc. specialize (H name).
      rewrite Hc in H. apply H. unfold names. rewrite merge_sort_Permutation.
      apply listdir_lookup. by exists contents.
    - intros H name _. destruct (d !! name) as [contents|] eqn:Hc; [|done].
      simpl. by eapply H. }
  split; [by intros ? [= <-]|]. split; [|split].
  - split.
    + intros Hend. right. right. exists d. split; [done|]. apply Hall.
      by destruct (omap _ names).
    + intros [?|[[= ->]|(d' & [= <-] & H)]]; [done|done|].
      apply Hall in H. by rewrite H.
  - destruct (omap _ names); [by left|by right].
  - intros corrupt valid bad good stamp Hne [= ->] Hbad Hgood.
    assert (HP : names ≡ₚ [corrupt; valid]).
    { unfold names, Calendar.listdir. rewrite merge_sort_Permutation.
      rewrite map_to_list_insert by (by apply lookup_singleton_ne).
      by rewrite map_to_list_singleton. }
    assert (Hy : omap (parsed ({[corrupt := bad; valid := good]} : gmap string bytes)
                         commitment) names ≡ₚ [stamp]).
    { rewrite HP. cbn [omap list_omap].
      rewrite lookup_insert_eq. cbn [mbind option_bind]. rewrite Hbad.
      rewrite lookup_insert_ne by done. rewrite lookup_singleton_eq.
      cbn [mbind option_bind]. by rewrite Hgood. }
    apply Permutation_singleton_r in Hy. by rewrite Hy.
Qed.

End CalendarLookup.

Lemma lookup_skips_corrupt_witness :
  let fs : gmap string (gmap string bytes) :=
    {[ "calendar/commitment" :=
         {[ "btcblk-0000001-aa" := [xff; x01]; "btcblk-0000002-bb" := [x00; x2a] ]} ]} in
  Calendar.getitem toy_deserialize toy_path fs [x01] = ([[x2a]], Ok tt).
Proof.
  intros fs.
  destruct (lookup_skips_corrupt toy_deserialize toy_path fs [x01]) as (_ & _ & _ & H).
  apply (H "btcblk-0000001-aa" "btcblk-0000002-bb" [xff; x01] [x00; x2a] [x2a]);
    [done | reflexivity | reflexivity | reflexivity].
Defined.

(** ** The keyed timestamp store *)

Section StoreFacts.
Variable deserialize_ops : loc → bytes → M unit.
Variable merge_ops : gmap bytes bytes → loc → loc → LevelDbCalendar.WriteBatch →
                     M LevelDbCalendar.WriteBatch.

Local Abbreviation add := (LevelDbCalendar.add deserialize_ops merge_ops).
Local Abbreviation add_timestamp := (LevelDbCalendar.add_timestamp deserialize_ops merge_ops).
Local Abbreviation get_timestamp := (LevelDbCalendar.get_timestamp deserialize_ops).

(** The batch that [add] writes is the empty one it created: whatever
    [__add_timestamp] computes, returns or raises, the database after
    [add] is the database before it. *)
Lemma add_store_unchanged (db : gmap bytes bytes) new h :
  (add db new h).1.1 = db.
Proof.
  unfold LevelDbCalendar.add.
  by destruct (add_timestamp db new [] h) as [h' [batch|e]].
Qed.


(** C1 fails on the code.  The store is empty; [A] (at location 0) and
    [B] (at location 2) are timestamps for one root with disjoint
    branches, a hash and an append.  After [add(A)] and [add(B)], in
    either order, the store is still empty and holds nothing for the
    root, whatever the part of [__add_timestamp] that is cut off does
    with the batch it was given. *)
Theorem store_add_discards_branches :
  let root := replicate 32 x01 in
  let h := [mkTimestamp root [] [(OpSHA256, 1%nat)];
            mkTimestamp (toy_sha256 root) [] [];
            mkTimestamp root [] [(OpAppend [x02], 3%nat)];
            mkTimestamp (root ++ [x02]) [] []] in
  (let '(db1, h1, _) := add ∅ 0%nat h in
   let '(db2, _, _) := add db1 2%nat h1 in
   db2 = ∅ ∧ LevelDbCalendar.contains db2 root = false) ∧
  (let '(db1, h1, _) := add ∅ 2%nat h in
   let '(db2, _, _) := add db1 0%nat h1 in
   db2 = ∅ ∧ LevelDbCalendar.contains db2 root = false).
Proof.
  intros root h. split.
  - pose proof (add_store_unchanged ∅ 0%nat h) as H1.
    destruct (add ∅ 0%nat h) as [[db1 h1] r1]. simpl in H1. subst db1.
    pose proof (add_store_unchanged ∅ 2%nat h1) as H2.
    destruct (add ∅ 2%nat h1) as [[db2 h2] r2]. simpl in H2. by subst db2.
  - pose proof (add_store_unchanged ∅ 2%nat h) as H1.
    destruct (add ∅ 2%nat h) as [[db1 h1] r1]. simpl in H1. subst db1.
    pose proof (add_store_unchanged ∅ 0%nat h1) as H2.
    destruct (add ∅ 0%nat h1) as [[db2 h2] r2]. simpl in H2. by subst db2.
Qed.

End StoreFacts.

(** ** The aggregator *)

Section AggregatorFacts.
Import Aggregator.
Local Open Scope nat_scope.
Variable sha256 : bytes → bytes.

(** What [submit] does before it waits: three timestamps are allocated,
    the caller's for [m], the nonced one, and its hash, which is queued
    with a new, unset event. *)
Lemma submit_enqueue_spec (s : State) (m nonce : bytes) :
  let n := length (heap_ s) in
  ∃ h',
    submit_enqueue sha256 s m nonce =
      (mk h' (digest_queue s ++ [(n + 2, length (events s))])
          (events s ++ [false]) (calendar s),
       Ok (n, length (events s))) ∧
    length h' = n + 3 ∧
    h' !! n = Some (mkTimestamp m [] [(OpPrepend nonce, n + 1)]) ∧
    h' !! (n + 1) = Some (mkTimestamp (nonce ++ m) [] [(OpSHA256, n + 2)]) ∧
    h' !! (n + 2) = Some (mkTimestamp (sha256 (nonce ++ m)) [] []) ∧
    (∀ l, l < n → h' !! l = heap_ s !! l).
Proof.
  cbv zeta. set (h := heap_ s). set (n := length h).
  set (h0 := h ++ [mkTimestamp m [] []]).
  assert (H0n : h0 !! n = Some (mkTimestamp m [] [])) by apply list_lookup_middle, eq_refl.
  assert (Hlen0 : length h0 = S n) by (unfold h0; rewrite length_app; simpl; fold n; lia).
  destruct (ops_add_new_spec sha256 h0 n _ (OpPrepend nonce) H0n eq_refl)
    as (h1 & E1 & Hlen1 & H1n & H1s & H1f).
  rewrite Hlen0 in *. simpl in H1n, H1s.
  destruct (ops_add_new_spec sha256 h1 (S n) _ OpSHA256 H1s eq_refl)
    as (h2 & E2 & Hlen2 & H2s & H2c & H2f).
  rewrite Hlen1 in *. simpl in H2s, H2c.
  replace (n + 1) with (S n) by lia. replace (n + 2) with (S (S n)) by lia.
  exists h2. split.
  { unfold submit_enqueue. fold h.
    assert (E0 : new_timestamp m h = (h0, Ok n)) by done.
    assert (E12 : nonce_timestamp sha256 n nonce h0 = (h2, Ok (S (S n)))).
    { unfold nonce_timestamp. by rewrite (bind_ok _ _ _ _ _ E1). }
    rewrite (bind_ok _ _ _ _ _ E0).
    by rewrite (bind_ok _ _ _ _ _ E12). }
  split; [lia|].
  split; [by rewrite H2f by lia|]. split; [done|]. split; [done|].
  intros l Hl. rewrite H2f, H1f by lia. unfold h0. by rewrite lookup_app_l by (fold n; lia).
Qed.

Lemma extends_preserved (h h' : heap) :
  (∀ l t, h !! l = Some t → h' !! l = Some t) → preserved h h'.
Proof.
  intros Hext. split; [by intros l t Hl _; apply Hext|].
  intros l m. unfold msg_at. destruct (h !! l) as [t|] eqn:Hl; [|done].
  by rewrite (Hext _ _ Hl).
Qed.

(** One more caller: its timestamp leads to the stamp it queued, and the
    queue is still a frontier. *)
Lemma submit_enqueue_frontier (s : State) (m nonce : bytes) orig :
  frontier sha256 (heap_ s) orig (digest_queue s).*1 →
  ∃ s' timestamp done_event,
    submit_enqueue sha256 s m nonce = (s', Ok (timestamp, done_event)) ∧
    calendar s' = calendar s ∧
    events s' = events s ++ [false] ∧ done_event = length (events s) ∧
    (digest_queue s').*2 = (digest_queue s).*2 ++ [done_event] ∧
    length (digest_queue s') = S (length (digest_queue s)) ∧
    preserved (heap_ s) (heap_ s') ∧
    msg_at (heap_ s') timestamp = Some m ∧
    frontier sha256 (heap_ s') (orig ++ [timestamp]) (digest_queue s').*1.
Proof.
  intros (Hnd & Hleaf & Hreach).
  destruct (submit_enqueue_spec s m nonce) as (h' & E & Hlen & Ht & Hs & Hn & Hf).
  set (n := length (heap_ s)) in *.
  eexists _, _, _. split; [exact E|]. cbn [calendar events digest_queue heap_].
  split; [done|]. split; [done|]. split; [done|].
  split; [by rewrite fmap_app|]. split; [rewrite length_app; simpl; lia|].
  assert (Hpre : preserved (heap_ s) h').
  { apply extends_preserved. intros l t Hl. rewrite Hf; [done|].
    by eapply lookup_lt_Some. }
  split; [done|]. split; [unfold msg_at; by rewrite Ht|].
  rewrite fmap_app. cbn [fmap list_fmap fst].
  assert (Hnew : reaches sha256 h' n (n + 2)).
  { exists [OpPrepend nonce; OpSHA256], m. unfold msg_at.
    split; [by rewrite Ht|]. split.
    - simpl. rewrite Ht. simpl. rewrite decide_True by done.
      rewrite Hs. simpl. by rewrite ?decide_True.
    - by rewrite Hn. }
  split; [|split].
  - apply NoDup_app. split; [done|]. split; [|apply NoDup_singleton].
    intros y Hy Hin. apply list_elem_of_singleton in Hin as ->.
    apply Hleaf, digest_leaf_lt in Hy. fold n in Hy. lia.
  - intros y Hy. apply elem_of_app in Hy as [Hy|Hy].
    + destruct (Hleaf y Hy) as (t & m' & Hyt & Hops & Hmsg).
      exists t, m'. split; [|done]. rewrite Hf; [done|]. by eapply lookup_lt_Some.
    + apply list_elem_of_singleton in Hy as ->. by eexists _, _.
  - intros x Hx. apply elem_of_app in Hx as [Hx|Hx].
    + destruct (Hreach x Hx) as (y & Hy & Hxy). exists y.
      split; [apply elem_of_app; by left|]. by eapply reaches_preserved.
    + apply list_elem_of_singleton in Hx as ->. exists (n + 2).
      split; [apply elem_of_app; right; left|done].
Qed.

(** The callers of an interval, one after the other. *)
Lemma submit_all_frontier (batch : list (bytes * bytes)) :
  ∀ (s : State) orig,
    frontier sha256 (heap_ s) orig (digest_queue s).*1 →
    ∃ s' helds,
      submit_all sha256 s batch = (s', Ok helds) ∧
      calendar s' = calendar s ∧
      length (events s') = length (events s) + length batch ∧
      (digest_queue s').*2 = (digest_queue s).*2 ++ helds.*2 ∧
      length (digest_queue s') = length (digest_queue s) + length batch ∧
      preserved (heap_ s) (heap_ s') ∧
      Forall (λ ev, ev < length (events s')) helds.*2 ∧
      Forall2 (λ dn held, msg_at (heap_ s') held.1 = Some dn.1) batch helds ∧
      frontier sha256 (heap_ s') (orig ++ helds.*1) (digest_queue s').*1.
Proof.
  induction batch as [|[m nonce] batch IH]; intros s orig HF.
  - exists s, []. simpl. rewrite !app_nil_r.
    repeat split; try done; try lia; try apply HF.
  - destruct (submit_enqueue_frontier s m nonce orig HF)
      as (s1 & ts & ev & E1 & Hcal1 & Hev1 & Hevn & Hq1 & Hlq1 & Hpre1 & Hmsg1 & HF1).
    destruct (IH s1 (orig ++ [ts]) HF1)
      as (s2 & helds & E2 & Hcal2 & Hev2 & Hq2 & Hlq2 & Hpre2 & Hlt2 & Hm2 & HF2).
    exists s2, ((ts, ev) :: helds). cbn [submit_all]. rewrite E1, E2.
    split; [done|]. split; [congruence|].
    split; [rewrite Hev2, Hev1, length_app; simpl; lia|].
    split; [rewrite Hq2, Hq1, <- app_assoc; done|].
    split; [rewrite Hlq2, Hlq1; simpl; lia|].
    split; [by eapply preserved_trans|].
    split.
    { cbn [fmap list_fmap snd]. constructor; [|done].
      rewrite Hev2, Hev1, length_app. simpl. lia. }
    split.
    { constructor; [|done]. simpl. by apply Hpre2. }
    cbn [fmap list_fmap fst]. by rewrite <- app_assoc in HF2.
Qed.

Lemma set_events_lookup done_events :
  ∀ evs ev,
    evs !! ev = Some true ∨ (ev ∈ done_events ∧ ev < length evs) →
    set_events done_events evs !! ev = Some true.
Proof.
  induction done_events as [|d done_events IH]; intros evs ev H; simpl.
  - destruct H as [H|[H _]]; [done|by apply elem_of_nil in H].
  - apply IH. destruct (decide (d = ev)) as [->|Hne].
    + left. apply list_lookup_insert_eq.
      destruct H as [H|[_ H]]; [by eapply lookup_lt_Some|done].
    + rewrite list_lookup_insert_ne by done. rewrite length_insert.
      destruct H as [H|[H Hlt]]; [by left|right].
      apply elem_of_cons in H as [->|H]; done.
Qed.

(** [Calendar.submit] of a root without ops, whose message is a digest. *)
Lemma calendar_submit_leaf (cal : Calendar.t) root now h :
  (∀ m, length (sha256 m) = 32) →
  digest_leaf sha256 h root → (0 ≤ now < 2 ^ 32)%Z →
  Journal.aligned (Calendar.journal cal) →
  ∃ h' st C,
    Calendar.submit sha256 cal root now h =
      (Calendar.mk (Calendar.journal cal ++ st ++ C) (Calendar.uri cal), h', Ok tt) ∧
    Calendar.pack_be32 now = Ok st ∧ length st = 4 ∧
    msg_at h root = Some C ∧ length C = 32 ∧
    preserved h h'.
Proof.
  intros Hsha (t & m & Hroot & Hops & Hmsg) Hnow Hal.
  destruct (pack_be32_spec now Hnow) as (st & Hpack & Hst & _).
  assert (HC : length (msg t) = 32) by (by rewrite Hmsg).
  destruct (calendar_submit_new sha256 cal root t now st h)
    as (h' & E & Hlen & Hr' & Hn' & Hf); try done.
  { by rewrite Hops. }
  { rewrite length_app, Hst, HC. done. }
  exists h', st, (msg t). split; [done|]. split; [done|]. split; [done|].
  split; [unfold msg_at; by rewrite Hroot|]. split; [done|].
  split.
  - intros l t' Hl Hne. assert (l ≠ root) by (intros ->; congruence).
    rewrite Hf; [done..|]. by eapply lookup_lt_Some.
  - intros l m'. unfold msg_at. destruct (h !! l) as [t'|] eqn:Hl; [|done].
    destruct (decide (l = root)) as [->|Hne].
    + rewrite Hr'. simpl. congruence.
    + rewrite Hf; [by rewrite Hl|done|]. by eapply lookup_lt_Some.
Qed.

(** An iteration of the loop keeps the messages, however it ends. *)
Lemma loop_iteration_msgs_kept (s : State) now s' r :
  loop_iteration sha256 s now = (s', r) → msgs_kept (heap_ s) (heap_ s').
Proof.
  unfold loop_iteration.
  destruct ((digest_queue s).*1) as [|d ds]; [intros [= <- _]; apply msgs_kept_refl|].
  destruct (make_merkle_tree sha256 (d :: ds) (heap_ s)) as [h1 [[root|]|e]] eqn:E;
    pose proof (keeps_make_merkle_tree sha256 _ _ _ _ E) as H1;
    [|by intros [= <- _]..].
  destruct (Calendar.submit sha256 (calendar s) root now h1) as [[cal' h2] [[]|e]] eqn:E2;
    pose proof (calendar_submit_msgs_kept sha256 _ _ _ _ _ _ _ E2) as H2;
    intros [= <- _]; by eapply msgs_kept_trans.
Qed.

(** C9: when the queue is empty at an interval tick, the iteration of the
    loop submits nothing to the calendar and writes nothing to the
    journal: it leaves the whole state, the calendar and its journal file
    included, as it was. *)
Theorem loop_iteration_empty_queue (s : State) (now : Z) :
  digest_queue s = [] →
  loop_iteration sha256 s now = (s, Ok tt) ∧
  calendar (loop_iteration sha256 s now).1 = calendar s ∧
  Calendar.journal (calendar (loop_iteration sha256 s now).1) = Calendar.journal (calendar s).
Proof.
  intros Hq. assert (E : loop_iteration sha256 s now = (s, Ok tt)).
  { unfold loop_iteration. rewrite Hq. by destruct s; simpl in *; subst. }
  by rewrite E.
Qed.

(** C10: the timestamp [submit(msg)] returns is the timestamp created for
    [msg] itself: its message is [msg], when the call has queued the
    nonced value and after any iteration of the loop; what is queued is
    the timestamp reached from it by the nonce op and the hash, whose
    message is the hash of the nonced message; and once the event is set
    the call returns that first timestamp. *)
Theorem submit_rooted_at_msg (s : State) (m nonce : bytes) :
  ∃ s' timestamp done_event nonced,
    submit_enqueue sha256 s m nonce = (s', Ok (timestamp, done_event)) ∧
    digest_queue s' = digest_queue s ++ [(nonced, done_event)] ∧
    msg_at (heap_ s') timestamp = Some m ∧
    resolves sha256 (heap_ s') timestamp [OpPrepend nonce; OpSHA256] nonced ∧
    msg_at (heap_ s') nonced = Some (sha256 (nonce ++ m)) ∧
    nonced ≠ timestamp ∧
    (∀ now s'' r, loop_iteration sha256 s' now = (s'', r) →
                  msg_at (heap_ s'') timestamp = Some m) ∧
    (∀ s'', events s'' !! done_event = Some true →
            submit_return s'' (timestamp, done_event) = Some timestamp).
Proof.
  destruct (submit_enqueue_spec s m nonce) as (h' & E & Hlen & Ht & Hs & Hn & Hf).
  eexists _, _, _, _. split; [exact E|]. cbn [heap_ digest_queue].
  assert (Hm : msg_at h' (length (heap_ s)) = Some m) by (unfold msg_at; by rewrite Ht).
  split; [done|]. split; [done|]. split.
  { exists m. split; [done|]. split.
    - simpl. rewrite Ht. simpl. rewrite decide_True by done.
      rewrite Hs. simpl. by rewrite ?decide_True.
    - unfold msg_at. by rewrite Hn. }
  split; [unfold msg_at; by rewrite Hn|]. split; [lia|]. split.
  - intros now s'' r Hloop.
    by apply (loop_iteration_msgs_kept _ _ _ _ Hloop).
  - intros s'' Hev. unfold submit_return. simpl. by rewrite Hev.
Qed.

End AggregatorFacts.

Lemma loop_iteration_empty_queue_witness :
  let s := Aggregator.mk [mkTimestamp [x01] [] []] [] [true]
             (Calendar.mk (replicate 36 x2a) [x75]) in
  Aggregator.loop_iteration toy_sha256 s 5 = (s, Ok tt) ∧
  Aggregator.calendar (Aggregator.loop_iteration toy_sha256 s 5).1 = Aggregator.calendar s ∧
  Calendar.journal (Aggregator.calendar (Aggregator.loop_iteration toy_sha256 s 5).1) =
    Calendar.journal (Aggregator.calendar s).
Proof.
  apply (loop_iteration_empty_queue toy_sha256
           (Aggregator.mk [mkTimestamp [x01] [] []] [] [true]
              (Calendar.mk (replicate 36 x2a) [x75])) 5).
  reflexivity.
Defined.

Lemma toy_sha256_length m : length (toy_sha256 m) = 32%nat.
Proof.
  unfold toy_sha256. rewrite length_take, length_app, length_replicate. lia.
Qed.

(** ** The journal: bounds, persistence and sequences of calls *)

Section JournalMore.
Import Journal.

(** The largest offset of the file system of the journal. *)
Variable max_offset : Z.

Local Abbreviation getitem := (Journal.getitem max_offset).

(** The file after a sequence of calls of [submit], each on the file the
    one before left, whether it returned or raised. *)
Local Abbreviation after_submits f es := (foldl (λ g c, (submit g c).1) f es).

Lemma getitem_ok_inv f idx r :
  getitem f idx = Ok r →
  0 ≤ idx ∧ (Z.to_nat (idx * Z.of_nat COMMITMENT_SIZE) + COMMITMENT_SIZE ≤ length f)%nat ∧
  r = read_at f (Z.to_nat (idx * Z.of_nat COMMITMENT_SIZE)) COMMITMENT_SIZE.
Proof.
  unfold Journal.getitem.
  destruct (seek max_offset f (idx * Z.of_nat COMMITMENT_SIZE)) as [off|e] eqn:Hs; [|done].
  apply seek_ok_inv in Hs as (H0 & -> & _). cbv zeta. rewrite read_at_length.
  destruct (Nat.eqb_spec
    (COMMITMENT_SIZE `min` (length f - Z.to_nat (idx * Z.of_nat COMMITMENT_SIZE)))
    COMMITMENT_SIZE) as [E|E]; [|done].
  intros [= <-]. unfold COMMITMENT_SIZE in *. repeat split; lia.
Qed.

(** When [seek] raises, [get] raises the same, which is not a
    [KeyError]. *)
Lemma getitem_seek_raises f idx e :
  seek max_offset f (idx * Z.of_nat COMMITMENT_SIZE) = Raise e →
  getitem f idx = Raise e ∧ (e = ValueError ∨ e = OSError).
Proof.
  intros Hs. unfold Journal.getitem. rewrite Hs. split; [done|].
  revert Hs. unfold seek.
  destruct (_ && _); [done|]. destruct (_ || _); [intros [= <-]; by left|].
  destruct (_ || _); [intros [= <-]; by right|done].
Qed.

Lemma getitem_app f g idx r : getitem f idx = Ok r → getitem (f ++ g) idx = Ok r.
Proof.
  intros H. apply getitem_ok_inv in H as (Hidx & Hle & ->).
  rewrite getitem_nonneg
    by (done || (left; rewrite length_app; unfold COMMITMENT_SIZE in *; lia)).
  cbv zeta.
  rewrite decide_True by (rewrite length_app; lia).
  f_equal. unfold read_at. rewrite drop_app_le by lia.
  rewrite take_app_le; [done|]. rewrite length_drop. lia.
Qed.

Lemma submit_fst f e : (submit f e).1 = f ∨ (submit f e).1 = f ++ e.
Proof.
  unfold submit.
  destruct (negb (length e =? COMMITMENT_SIZE)%nat); [by left|].
  destruct (negb (length f mod COMMITMENT_SIZE =? 0)%nat); [by left|by right].
Qed.

Lemma open_writer_app f :
  ∃ pad, open_writer f = f ++ replicate pad x00 ∧ (pad < COMMITMENT_SIZE)%nat ∧
         (pad = 0%nat ↔ aligned f).
Proof.
  unfold open_writer, aligned. cbv zeta.
  pose proof (Nat.mod_upper_bound (length f) COMMITMENT_SIZE ltac:(done)) as Hlt.
  destruct (Nat.eqb_spec (length f mod COMMITMENT_SIZE) 0) as [E|E].
  - exists 0%nat. simpl. rewrite app_nil_r.
    split; [done|]. split; [unfold COMMITMENT_SIZE; lia|done].
  - eexists. split; [done|]. split; lia.
Qed.

Lemma submit_keeps_aligned f e : aligned f → aligned (submit f e).1.
Proof.
  intros Hf. unfold submit.
  destruct (Nat.eqb_spec (length e) COMMITMENT_SIZE) as [He|He]; [|done]. cbn [negb].
  destruct (Nat.eqb_spec (length f mod COMMITMENT_SIZE) 0) as [_|Hn]; [|done].
  cbn [negb fst].
  unfold aligned in *. rewrite length_app, He.
  by rewrite <- Nat.Div0.add_mod_idemp_l, Hf.
Qed.

Lemma after_submits_aligned es : ∀ f, aligned f → aligned (after_submits f es).
Proof.
  induction es as [|e es IH]; intros f Hf; [done|].
  simpl. by apply IH, submit_keeps_aligned.
Qed.

Lemma aligned_app f e : aligned f → length e = COMMITMENT_SIZE → aligned (f ++ e).
Proof. intros Hf He. by eapply submit_aligned, journal_submit_ok. Qed.

Lemma after_submits_ok es :
  ∀ f, aligned f → Forall (λ e, length e = COMMITMENT_SIZE) es →
       after_submits f es = f ++ concat es.
Proof.
  induction es as [|e es IH]; intros f Hf Hes; simpl.
  - by rewrite app_nil_r.
  - apply Forall_cons in Hes as [He Hes].
    rewrite (journal_submit_ok f e Hf He). cbn [fst].
    rewrite IH; [by rewrite <- app_assoc|by apply aligned_app|done].
Qed.

Lemma aligned_concat es :
  ∀ f, aligned f → Forall (λ e, length e = COMMITMENT_SIZE) es → aligned (f ++ concat es).
Proof.
  intros f Hf Hes. rewrite <- after_submits_ok by done. by apply after_submits_aligned.
Qed.

Lemma entries_concat es :
  ∀ f, aligned f → Forall (λ e, length e = COMMITMENT_SIZE) es →
       entries (f ++ concat es) = entries f + Z.of_nat (length es).
Proof.
  induction es as [|e es IH]; intros f Hf Hes; simpl.
  - rewrite app_nil_r. lia.
  - apply Forall_cons in Hes as [He Hes].
    rewrite app_assoc, IH, entries_app by (try apply aligned_app; done). lia.
Qed.

(** X1: [get] serves exactly the indices of the complete records of the
    file: it returns for [0 <= idx < len(file) // 36] and for no other
    index, and what it returns is 36 bytes long, the bytes of the file
    from offset [36 * idx].  It raises [KeyError] exactly for the indices
    past the last complete record whose offset can be sought, one inside
    the file or one that the file system can address; for every other
    index it raises what [seek] raises, [ValueError] or [OSError]. *)
Theorem journal_getitem_bounds (f : file) (idx : Z) :
  ((∃ r, getitem f idx = Ok r) ↔ 0 ≤ idx < entries f) ∧
  (getitem f idx = Raise KeyError ↔
     entries f ≤ idx ∧
     (idx * 36 ≤ Z.of_nat (length f) ∨ (idx * 36 ≤ max_offset ∧ idx * 36 < 2 ^ 63))) ∧
  (getitem f idx = Raise ValueError ∨ getitem f idx = Raise OSError ↔
     idx < 0 ∨
     (Z.of_nat (length f) < idx * 36 ∧ (max_offset < idx * 36 ∨ 2 ^ 63 ≤ idx * 36))) ∧
  (∀ r, getitem f idx = Ok r →
        length r = 36%nat ∧ r = take 36 (drop (36 * Z.to_nat idx) f)).
Proof.
  assert (Hent : ∀ i, 0 ≤ i →
    ((Z.to_nat (i * Z.of_nat COMMITMENT_SIZE) + COMMITMENT_SIZE ≤ length f)%nat ↔
     i < entries f)).
  { intros i Hi. unfold entries, COMMITMENT_SIZE. cbn [Nat.add].
    pose proof (Nat.div_mod_eq (length f) 36) as Hdm.
    pose proof (Nat.mod_upper_bound (length f) 36 ltac:(done)) as Hlt.
    split; intros H; nia. }
  assert (H0 : 0 ≤ entries f) by (unfold entries; lia).
  assert (Hcases :
    (0 ≤ idx ∧ (idx * 36 ≤ Z.of_nat (length f) ∨
                (idx * 36 ≤ max_offset ∧ idx * 36 < 2 ^ 63))) ∨
    (idx < 0 ∨ (Z.of_nat (length f) < idx * 36 ∧
                (max_offset < idx * 36 ∨ 2 ^ 63 ≤ idx * 36)))) by lia.
  assert (Hbad : idx < 0 ∨ (Z.of_nat (length f) < idx * 36 ∧
                   (max_offset < idx * 36 ∨ 2 ^ 63 ≤ idx * 36)) →
                 ∃ e, getitem f idx = Raise e ∧ (e = ValueError ∨ e = OSError)).
  { intros Hb.
    destruct (seek max_offset f (idx * Z.of_nat COMMITMENT_SIZE)) as [off|e] eqn:Hs.
    - apply seek_ok_inv in Hs as (? & _ & ?). unfold COMMITMENT_SIZE in *. lia.
    - exists e. by apply getitem_seek_raises. }
  split; [|split; [|split]].
  - split.
    + intros [r Hr]. apply getitem_ok_inv in Hr as (Hidx & Hle & _).
      split; [done|]. by apply Hent.
    + intros [Hidx Hlt]. apply Hent in Hlt; [|done].
      rewrite getitem_nonneg by (done || (left; unfold COMMITMENT_SIZE in *; lia)).
      cbv zeta. rewrite decide_True by done. by eexists.
  - destruct Hcases as [[Hidx Hoff]|Hb].
    + rewrite getitem_nonneg by done. cbv zeta. case_decide as Hle.
      * apply Hent in Hle; [|done]. split; [done|]. intros [? _]. lia.
      * split; [|done]. intros _. split; [|done].
        destruct (Z.le_gt_cases (entries f) idx) as [|Hlt]; [done|].
        apply Hent in Hlt; done.
    + destruct (Hbad Hb) as (e & -> & He). split.
      * intros [= ->]. by destruct He.
      * intros [Hge Hoff]. lia.
  - destruct Hcases as [[Hidx Hoff]|Hb].
    + rewrite getitem_nonneg by done. cbv zeta. split; [|lia].
      case_decide; intros [?|?]; done.
    + destruct (Hbad Hb) as (e & -> & [->| ->]); split; try done; intros _;
        [by left|by right].
  - intros r Hr. apply getitem_ok_inv in Hr as (Hidx & Hle & ->).
    split.
    + rewrite read_at_length. unfold COMMITMENT_SIZE in *. lia.
    + unfold read_at. do 2 f_equal. unfold COMMITMENT_SIZE. lia.
Qed.

(** X2: the journal is append-only: an entry that can be read at an index
    is read unchanged at that index after any call of [submit], whatever
    is submitted and however the call ends, and after the file is opened
    for writing again, padding included. *)
Theorem journal_append_only (f : file) (e : bytes) (idx : Z) (r : bytes) :
  getitem f idx = Ok r →
  getitem (submit f e).1 idx = Ok r ∧ getitem (open_writer f) idx = Ok r.
Proof.
  intros Hr. split.
  - destruct (submit_fst f e) as [-> | ->]; [done|by apply getitem_app].
  - destruct (open_writer_app f) as (pad & -> & _). by apply getitem_app.
Qed.

(** X3: entries submitted one after the other to a journal opened for
    writing are all accepted and get consecutive indices in the order of
    submission: the file is the opened file followed by the entries, and
    the i-th entry submitted is read at the index of the first one plus
    [i]. *)
Theorem journal_submit_sequence (f0 : file) (es : list bytes) :
  Forall (λ e, length e = COMMITMENT_SIZE) es →
  let f := open_writer f0 in
  after_submits f es = f ++ concat es ∧
  entries (after_submits f es) = entries f + Z.of_nat (length es) ∧
  ∀ i e, es !! i = Some e →
    submit (after_submits f (take i es)) e = (after_submits f (take (S i) es), Ok tt) ∧
    getitem (after_submits f es) (entries f + Z.of_nat i) = Ok e.
Proof.
  intros Hes f. assert (Hf : aligned f) by apply open_writer_aligned.
  split; [by apply after_submits_ok|].
  split; [rewrite after_submits_ok by done; by apply entries_concat|].
  intros i e Hi.
  assert (He : length e = COMMITMENT_SIZE).
  { eapply Forall_forall in Hes; [exact Hes|]. by eapply list_elem_of_lookup_2. }
  assert (Htk : Forall (λ e, length e = COMMITMENT_SIZE) (take i es)) by by apply Forall_take.
  split.
  - rewrite (take_S_r _ _ _ Hi), foldl_snoc.
    set (g := after_submits f (take i es)).
    assert (Hg : aligned g) by (by apply after_submits_aligned).
    by rewrite (journal_submit_ok g e Hg He).
  - rewrite after_submits_ok by done.
    rewrite <- (take_drop_middle es i e Hi) at 1.
    rewrite concat_app, concat_cons, !app_assoc.
    apply getitem_app.
    replace (entries f + Z.of_nat i) with (entries (f ++ concat (take i es))).
    + apply getitem_last; [by apply aligned_concat|done].
    + rewrite entries_concat by done. rewrite length_take.
      apply lookup_lt_Some in Hi. lia.
Qed.

(** X4: the assertion of [submit] cannot fail on a journal opened by
    [JournalWriter]: after the file was opened for writing, and after any
    sequence of calls of [submit] with entries of any length, the file is
    a whole number of records, and the next call raises no
    [AssertionError]; it returns exactly when its entry is 36 bytes long
    and raises [ValueError] otherwise. *)
Theorem journal_assert_never_fails (f0 : file) (es : list bytes) (e : bytes) :
  let f := after_submits (open_writer f0) es in
  aligned f ∧
  (submit f e).2 ≠ Raise AssertionError ∧
  ((submit f e).2 = Ok tt ↔ length e = COMMITMENT_SIZE) ∧
  ((submit f e).2 = Raise ValueError ↔ length e ≠ COMMITMENT_SIZE).
Proof.
  intros f.
  assert (Hf : aligned f) by apply after_submits_aligned, open_writer_aligned.
  split; [done|].
  destruct (decide (length e = COMMITMENT_SIZE)) as [He|He].
  - rewrite (journal_submit_ok f e Hf He). cbn [snd]. by repeat split.
  - unfold submit. destruct (Nat.eqb_spec (length e) COMMITMENT_SIZE); [done|].
    cbn [negb snd]. by repeat split.
Qed.

(** X5: opening the journal for writing changes nothing in a file that is
    a whole number of records, otherwise it appends fewer than 36 zero
    bytes, which complete the last record; it never removes or changes a
    byte; and opening the file again after that changes nothing more. *)
Theorem journal_reopen (f : file) :
  open_writer (open_writer f) = open_writer f ∧
  (open_writer f = f ↔ aligned f) ∧
  (∃ pad, open_writer f = f ++ replicate pad x00 ∧ (pad < 36)%nat) ∧
  entries (open_writer f) = (if decide (aligned f) then entries f else entries f + 1).
Proof.
  assert (Hid : ∀ g, aligned g → open_writer g = g).
  { intros g Hg. unfold open_writer, aligned in *. cbv zeta. by rewrite Hg. }
  destruct (open_writer_app f) as (pad & E & Hpad & Hal).
  split; [apply Hid, open_writer_aligned|].
  split; [|split].
  - split; [|apply Hid]. intros <-. apply open_writer_aligned.
  - by exists pad.
  - case_decide as Hf; [by rewrite Hid|].
    pose proof (open_writer_aligned f) as Ho. revert Ho. rewrite E.
    unfold aligned, entries. rewrite length_app, length_replicate.
    assert (pad ≠ 0%nat) by (intros ?; by apply Hf, Hal).
    unfold aligned in Hf. unfold COMMITMENT_SIZE in *. cbn [Nat.add] in *.
    intros Ho.
    pose proof (Nat.div_mod_eq (length f) 36) as Hdm.
    pose proof (Nat.mod_upper_bound (length f) 36 ltac:(done)) as Hlt.
    pose proof (Nat.div_mod_eq (length f + pad) 36) as Hdm'.
    rewrite Ho in Hdm'. nia.
Qed.

(** X6: a journal file that is a whole number of records is the
    concatenation of its entries: reading the indices from 0 up to the
    number of records gives the blocks of the file in order. *)
Theorem journal_is_its_entries (f : file) :
  aligned f →
  ∃ rs, Z.of_nat (length rs) = entries f ∧ concat rs = f ∧
        ∀ i r, rs !! i = Some r → getitem f (Z.of_nat i) = Ok r.
Proof.
  intros Hf.
  assert (∃ n, length f = (n * COMMITMENT_SIZE)%nat) as [n Hn].
  { exists (length f / COMMITMENT_SIZE)%nat. unfold aligned in Hf.
    pose proof (Nat.div_mod_eq (length f) COMMITMENT_SIZE). lia. }
  clear Hf. revert f Hn. induction n as [|n IH]; intros f Hn.
  - exists []. apply nil_length_inv in Hn as ->. by repeat split.
  - set (g := take (n * COMMITMENT_SIZE) f). set (e := drop (n * COMMITMENT_SIZE) f).
    assert (Hfe : f = g ++ e) by (unfold g, e; by rewrite take_drop).
    assert (Hg : length g = (n * COMMITMENT_SIZE)%nat) by (unfold g; rewrite length_take; lia).
    assert (He : length e = COMMITMENT_SIZE) by (unfold e; rewrite length_drop; lia).
    assert (Hag : aligned g) by (unfold aligned; rewrite Hg; apply Nat.Div0.mod_mul).
    assert (Heg : entries g = Z.of_nat n).
    { unfold entries. rewrite Hg, Nat.div_mul by done. done. }
    destruct (IH g Hg) as (rs & Hlen & Hcat & Hget).
    exists (rs ++ [e]). rewrite Hfe. split; [|split].
    + rewrite length_app, entries_app by done. simpl. lia.
    + rewrite concat_app, Hcat. simpl. by rewrite app_nil_r.
    + intros i r Hi. apply lookup_app_Some in Hi as [Hi|[Hge Hi]].
      * by apply getitem_app, Hget.
      * apply list_lookup_singleton_Some in Hi as [Hi <-].
        replace (Z.of_nat i) with (entries g) by lia.
        by apply getitem_last.
Qed.

End JournalMore.

Lemma journal_append_only_witness :
  let f := replicate 36 x2a ++ [xde; xad] in
  let e := replicate 36 x07 in
  Journal.getitem ext4_max_offset (Journal.submit f e).1 0 = Ok (replicate 36 x2a) ∧
  Journal.getitem ext4_max_offset (Journal.open_writer f) 0 = Ok (replicate 36 x2a).
Proof.
  apply (journal_append_only ext4_max_offset (replicate 36 x2a ++ [xde; xad]) (replicate 36 x07) 0).
  reflexivity.
Defined.

Lemma journal_submit_sequence_witness :
  let es := [replicate 36 x01; replicate 36 x02] in
  let f := Journal.open_writer [xff] in
  foldl (λ f e, (Journal.submit f e).1) f es = f ++ concat es ∧
  Journal.entries (foldl (λ f e, (Journal.submit f e).1) f es) =
    Journal.entries f + Z.of_nat (length es) ∧
  ∀ i e, es !! i = Some e →
    Journal.submit (foldl (λ f e, (Journal.submit f e).1) f (take i es)) e =
      (foldl (λ f e, (Journal.submit f e).1) f (take (S i) es), Ok tt) ∧
    Journal.getitem ext4_max_offset (foldl (λ f e, (Journal.submit f e).1) f es)
      (Journal.entries f + Z.of_nat i) = Ok e.
Proof.
  apply (journal_submit_sequence ext4_max_offset [xff] [replicate 36 x01; replicate 36 x02]).
  repeat constructor.
Defined.

Lemma journal_is_its_entries_witness :
  let f := replicate 36 x01 ++ replicate 36 x02 in
  ∃ rs, Z.of_nat (length rs) = Journal.entries f ∧ concat rs = f ∧
        ∀ i r, rs !! i = Some r → Journal.getitem ext4_max_offset f (Z.of_nat i) = Ok r.
Proof.
  apply (journal_is_its_entries ext4_max_offset (replicate 36 x01 ++ replicate 36 x02)).
  reflexivity.
Defined.

(** ** The calendar: failed and repeated submissions *)

Section CalendarSubmitMore.
Import Ots.
Variable sha256 : bytes → bytes.

(** The largest offset of the file system of the journal. *)
Variable max_offset : Z.

Lemma journal_submit_cases f e :
  (Journal.submit f e = (f ++ e, Ok tt) ∧ length e = Journal.COMMITMENT_SIZE ∧
   Journal.aligned f) ∨
  (∃ x, Journal.submit f e = (f, Raise x)).
Proof.
  unfold Journal.submit, Journal.aligned.
  destruct (Nat.eqb_spec (length e) Journal.COMMITMENT_SIZE) as [He|He]; cbn [negb];
    [|right; by eexists].
  destruct (Nat.eqb_spec (length f mod Journal.COMMITMENT_SIZE) 0) as [Hf|Hf]; cbn [negb];
    [by left|right; by eexists].
Qed.

Lemma journal_submit_short f e :
  length e ≠ Journal.COMMITMENT_SIZE → Journal.submit f e = (f, Raise ValueError).
Proof.
  intros He. unfold Journal.submit.
  by destruct (Nat.eqb_spec (length e) Journal.COMMITMENT_SIZE).
Qed.

(** The part of [Calendar.submit] that acts on the timestamps, for a
    commitment without the time-prefix op: the timestamp of the
    time-prefixed commitment is created with the pending attestation. *)
Lemma calendar_submit_marks (uri : bytes) c t st h :
  h !! c = Some t → ops_get (ops t) (OpPrepend st) = None →
  ∃ h', (commitment ← ops_add sha256 c (OpPrepend st);
         _ ← attestations_add commitment (PendingAttestation uri);
         c' ← get_obj commitment;
         mret (msg c')) h = (h', Ok (st ++ msg t)) ∧
    length h' = S (length h) ∧
    h' !! c = Some (mkTimestamp (msg t) (attestations t)
                      (ops t ++ [(OpPrepend st, length h)])) ∧
    h' !! length h = Some (mkTimestamp (st ++ msg t) [PendingAttestation uri] []) ∧
    (∀ l, l ≠ c → (l < length h)%nat → h' !! l = h !! l).
Proof.
  intros Hc Hop.
  pose proof (lookup_lt_Some _ _ _ Hc) as Hclt.
  destruct (ops_add_new_spec sha256 h c t (OpPrepend st) Hc Hop)
    as (h1 & E1 & Hlen1 & H1c & H1n & H1f).
  simpl in H1n.
  assert (E2 : attestations_add (length h) (PendingAttestation uri) h1 =
            (<[length h := mkTimestamp (st ++ msg t) [PendingAttestation uri] []]> h1,
             Ok tt)).
  { unfold attestations_add.
    rewrite (bind_ok _ _ _ _ _ (get_obj_ok _ _ _ H1n)). cbn [attestations].
    case_decide as Hin; [by apply not_elem_of_nil in Hin|done]. }
  set (h2 := <[length h := _]> h1) in E2.
  assert (H2n : h2 !! length h =
                Some (mkTimestamp (st ++ msg t) [PendingAttestation uri] [])).
  { unfold h2. apply list_lookup_insert_eq. lia. }
  exists h2. split.
  { rewrite (bind_ok _ _ _ _ _ E1), (bind_ok _ _ _ _ _ E2).
    by rewrite (bind_ok _ _ _ _ _ (get_obj_ok _ _ _ H2n)). }
  split; [unfold h2; rewrite length_insert; lia|].
  split; [unfold h2; rewrite list_lookup_insert_ne by lia; done|].
  split; [done|].
  intros l Hl1 Hl2. unfold h2. rewrite list_lookup_insert_ne by lia. by apply H1f.
Qed.

(** The same part for a commitment that has the op and, under it, the
    pending attestation: nothing changes. *)
Lemma calendar_submit_marked (uri : bytes) c t st l' t' h :
  h !! c = Some t → ops_get (ops t) (OpPrepend st) = Some l' → h !! l' = Some t' →
  PendingAttestation uri ∈ attestations t' →
  (commitment ← ops_add sha256 c (OpPrepend st);
   _ ← attestations_add commitment (PendingAttestation uri);
   c' ← get_obj commitment;
   mret (msg c')) h = (h, Ok (msg t')).
Proof.
  intros Hc Hop Hl' Hin.
  rewrite (bind_ok _ _ _ _ _ (ops_add_old sha256 _ _ _ _ _ Hc Hop)).
  assert (E2 : attestations_add l' (PendingAttestation uri) h = (h, Ok tt)).
  { unfold attestations_add. rewrite (bind_ok _ _ _ _ _ (get_obj_ok _ _ _ Hl')).
    by rewrite decide_True. }
  rewrite (bind_ok _ _ _ _ _ E2).
  by rewrite (bind_ok _ _ _ _ _ (get_obj_ok _ _ _ Hl')).
Qed.

(** X7: what a failed [Calendar.submit] leaves behind.  At a time that
    does not fit 32 bits [struct.pack] raises and nothing changes.  For a
    commitment whose message is not 32 bytes long the call raises
    [ValueError] and the journal is as before, but the timestamps are not:
    the commitment has got the time-prefix op, and the timestamp under it
    the pending attestation with the URI of the calendar, for a record
    that was never written. *)
Theorem calendar_submit_failures (cal : Calendar.t) (c : loc) (t : Timestamp)
    (now : Z) (h : heap) :
  h !! c = Some t → ops t = [] →
  (¬ (0 ≤ now < 2 ^ 32) →
     Calendar.submit sha256 cal c now h = (cal, h, Raise StructError)) ∧
  (0 ≤ now < 2 ^ 32 → length (msg t) ≠ 32%nat →
     ∃ st h',
       Calendar.pack_be32 now = Ok st ∧
       Calendar.submit sha256 cal c now h = (cal, h', Raise ValueError) ∧
       h' !! c = Some (mkTimestamp (msg t) (attestations t) [(OpPrepend st, length h)]) ∧
       h' !! length h =
         Some (mkTimestamp (st ++ msg t) [PendingAttestation (Calendar.uri cal)] [])).
Proof.
  intros Hc Hops. split.
  - intros Hnow. unfold Calendar.submit. by rewrite pack_be32_raises.
  - intros Hnow Hlen.
    destruct (pack_be32_spec now Hnow) as (st & Hpack & Hst & _).
    destruct (calendar_submit_marks (Calendar.uri cal) c t st h Hc)
      as (h' & E & _ & Hc' & Hn' & _); [by rewrite Hops|].
    rewrite Hops in Hc'. simpl in Hc'.
    exists st, h'. split; [done|]. split; [|done].
    unfold Calendar.submit. rewrite Hpack, E.
    rewrite journal_submit_short; [by destruct cal|].
    rewrite length_app, Hst. unfold Journal.COMMITMENT_SIZE. lia.
Qed.

(** X8: [Calendar.submit] does not recognise a commitment it has already
    journaled: submitted again within the same second, the commitment
    keeps its timestamps as the first call left them, and the same record
    is appended to the journal a second time. *)
Theorem calendar_submit_twice (cal : Calendar.t) (c : loc) (t : Timestamp)
    (now : Z) (h : heap) :
  h !! c = Some t → ops t = [] → length (msg t) = 32%nat →
  0 ≤ now < 2 ^ 32 → Journal.aligned (Calendar.journal cal) →
  ∃ st cal1 h1,
    Calendar.pack_be32 now = Ok st ∧
    Calendar.submit sha256 cal c now h = (cal1, h1, Ok tt) ∧
    Calendar.journal cal1 = Calendar.journal cal ++ st ++ msg t ∧
    Calendar.submit sha256 cal1 c now h1 =
      (Calendar.mk (Calendar.journal cal ++ (st ++ msg t) ++ (st ++ msg t))
         (Calendar.uri cal), h1, Ok tt).
Proof.
  intros Hc Hops Hmsg Hnow Hal.
  destruct (pack_be32_spec now Hnow) as (st & Hpack & Hst & _).
  assert (Hrec : length (st ++ msg t) = Journal.COMMITMENT_SIZE)
    by (rewrite length_app, Hst, Hmsg; done).
  destruct (calendar_submit_marks (Calendar.uri cal) c t st h Hc)
    as (h1 & E & _ & Hc1 & Hn1 & _); [by rewrite Hops|].
  rewrite Hops in Hc1. simpl in Hc1.
  eexists st, _, h1. split; [done|]. split.
  { unfold Calendar.submit. rewrite Hpack, E.
    by rewrite (journal_submit_ok _ _ Hal Hrec). }
  cbn [Calendar.journal Calendar.uri]. split; [done|].
  unfold Calendar.submit. rewrite Hpack. cbn [Calendar.journal Calendar.uri].
  assert (E2 := λ Hop Hin, calendar_submit_marked (Calendar.uri cal) c _ st (length h) _ h1
                             Hc1 Hop Hn1 Hin).
  simpl in E2. rewrite decide_True in E2 by done.
  rewrite (E2 eq_refl ltac:(left)).
  rewrite journal_submit_ok; [by rewrite <- app_assoc|by apply aligned_app|done].
Qed.

(** X9: the second of the journal record tells submissions apart: a
    commitment submitted at two different times is journaled as two
    different records, each the time of its submission followed by the
    digest, at consecutive indices, and the commitment has one
    time-prefix op for each. *)
Theorem calendar_submit_distinct_times (cal : Calendar.t) (c : loc) (t : Timestamp)
    (now1 now2 : Z) (h : heap) :
  h !! c = Some t → ops t = [] → length (msg t) = 32%nat →
  0 ≤ now1 < 2 ^ 32 → 0 ≤ now2 < 2 ^ 32 → now1 ≠ now2 →
  Journal.aligned (Calendar.journal cal) →
  ∃ st1 st2 cal1 h1 cal2 h2,
    Calendar.submit sha256 cal c now1 h = (cal1, h1, Ok tt) ∧
    Calendar.submit sha256 cal1 c now2 h1 = (cal2, h2, Ok tt) ∧
    Calendar.unpack_be st1 = now1 ∧ Calendar.unpack_be st2 = now2 ∧
    st1 ++ msg t ≠ st2 ++ msg t ∧
    Journal.getitem max_offset (Calendar.journal cal2) (Journal.entries (Calendar.journal cal)) =
      Ok (st1 ++ msg t) ∧
    Journal.getitem max_offset (Calendar.journal cal2) (Journal.entries (Calendar.journal cal) + 1) =
      Ok (st2 ++ msg t) ∧
    h2 !! c = Some (mkTimestamp (msg t) (attestations t)
                      [(OpPrepend st1, length h); (OpPrepend st2, S (length h))]).
Proof.
  intros Hc Hops Hmsg Hnow1 Hnow2 Hne Hal.
  destruct (pack_be32_spec now1 Hnow1) as (st1 & Hpack1 & Hst1 & Hun1).
  destruct (pack_be32_spec now2 Hnow2) as (st2 & Hpack2 & Hst2 & Hun2).
  assert (Hst : st1 ≠ st2) by congruence.
  assert (Hrec1 : length (st1 ++ msg t) = Journal.COMMITMENT_SIZE)
    by (rewrite length_app, Hst1, Hmsg; done).
  assert (Hrec2 : length (st2 ++ msg t) = Journal.COMMITMENT_SIZE)
    by (rewrite length_app, Hst2, Hmsg; done).
  destruct (calendar_submit_marks (Calendar.uri cal) c t st1 h Hc)
    as (h1 & E1 & Hlen1 & Hc1 & _ & _); [by rewrite Hops|].
  rewrite Hops in Hc1. simpl in Hc1.
  destruct (calendar_submit_marks (Calendar.uri cal) c _ st2 h1 Hc1)
    as (h2 & E2 & _ & Hc2 & _ & _).
  { simpl. rewrite decide_False; [done|]. by intros [= ?]. }
  simpl in Hc2. rewrite Hlen1 in Hc2. cbn [msg] in E2.
  assert (Hal1 : Journal.aligned (Calendar.journal cal ++ st1 ++ msg t))
    by by apply aligned_app.
  eexists st1, st2, _, h1, _, h2. split.
  { unfold Calendar.submit. rewrite Hpack1, E1.
    by rewrite (journal_submit_ok _ _ Hal Hrec1). }
  split.
  { unfold Calendar.submit. rewrite Hpack2. cbn [Calendar.journal Calendar.uri].
    rewrite E2. by rewrite (journal_submit_ok _ _ Hal1 Hrec2). }
  cbn [Calendar.journal].
  split; [done|]. split; [done|].
  split; [by intros ?%(inj (λ x, x ++ msg t))|].
  split; [by apply getitem_app, getitem_last|].
  split; [|done].
  rewrite <- (entries_app _ _ Hal Hrec1). by apply getitem_last.
Qed.

(** How [Calendar.submit] leaves the calendar: with the URI it had, and
    with one more record in the journal when it returns, with the journal
    it had when it raises. *)
Lemma calendar_submit_journal (cal : Calendar.t) c now h cal' h' r :
  Calendar.submit sha256 cal c now h = (cal', h', r) →
  Calendar.uri cal' = Calendar.uri cal ∧
  ((r = Ok tt ∧ ∃ record, Calendar.journal cal' = Calendar.journal cal ++ record ∧
                          length record = Journal.COMMITMENT_SIZE) ∨
   (r ≠ Ok tt ∧ Calendar.journal cal' = Calendar.journal cal)).
Proof.
  unfold Calendar.submit.
  destruct (Calendar.pack_be32 now) as [st|e]; [|intros [= <- _ <-]; split; [done|by right]].
  match goal with
  | |- context [match ?m h with _ => _ end] => destruct (m h) as [h1 [cm|e]]
  end; [|intros [= <- _ <-]; split; [done|by right]].
  destruct (journal_submit_cases (Calendar.journal cal) cm) as [(-> & Hlen & _)|[x ->]];
    intros [= <- _ <-]; cbn [Calendar.uri Calendar.journal]; (split; [done|]).
  - left. split; [done|]. by exists cm.
  - by right.
Qed.

(** X10: what [Calendar.submit] never does, however it ends: it does not
    change the URI of the calendar; it does not touch the bytes already in
    the journal, to which it appends one record of 36 bytes when it
    returns and nothing when it raises; it keeps a journal of whole
    records one; and it changes the message of no timestamp. *)
Theorem calendar_submit_invariants (cal : Calendar.t) (c : loc) (now : Z) (h : heap) :
  let '(cal', h', r) := Calendar.submit sha256 cal c now h in
  Calendar.uri cal' = Calendar.uri cal ∧
  (∃ record, Calendar.journal cal' = Calendar.journal cal ++ record ∧
             (r = Ok tt → length record = 36%nat) ∧ (r ≠ Ok tt → record = [])) ∧
  (Journal.aligned (Calendar.journal cal) → Journal.aligned (Calendar.journal cal')) ∧
  msgs_kept h h'.
Proof.
  destruct (Calendar.submit sha256 cal c now h) as [[cal' h'] r] eqn:E.
  pose proof (calendar_submit_msgs_kept sha256 _ _ _ _ _ _ _ E) as Hk.
  destruct (calendar_submit_journal _ _ _ _ _ _ _ E) as [Huri Hj].
  split; [done|]. split; [|split; [|done]].
  - destruct Hj as [(-> & record & -> & Hlen)|[Hr ->]].
    + exists record. by repeat split.
    + exists []. by rewrite app_nil_r.
  - intros Hal. destruct Hj as [(_ & record & -> & Hlen)|[_ ->]]; [|done].
    by apply aligned_app.
Qed.

End CalendarSubmitMore.

Lemma calendar_submit_failures_witness :
  let t := mkTimestamp [x01; x02] [] [] in
  let cal := Calendar.mk [] [x75] in
  (¬ (0 ≤ 5 < 2 ^ 32) →
     Calendar.submit toy_sha256 cal 0%nat 5 [t] = (cal, [t], Raise StructError)) ∧
  (0 ≤ 5 < 2 ^ 32 → length (msg t) ≠ 32%nat →
     ∃ st h',
       Calendar.pack_be32 5 = Ok st ∧
       Calendar.submit toy_sha256 cal 0%nat 5 [t] = (cal, h', Raise ValueError) ∧
       h' !! 0%nat = Some (mkTimestamp (msg t) (attestations t) [(OpPrepend st, length [t])]) ∧
       h' !! length [t] =
         Some (mkTimestamp (st ++ msg t) [PendingAttestation (Calendar.uri cal)] [])).
Proof.
  apply (calendar_submit_failures toy_sha256 (Calendar.mk [] [x75]) 0%nat
           (mkTimestamp [x01; x02] [] []) 5 [mkTimestamp [x01; x02] [] []]);
    reflexivity.
Defined.

Lemma calendar_submit_twice_witness :
  let t := mkTimestamp (replicate 32 x01) [] [] in
  let cal := Calendar.mk [] [x75] in
  ∃ st cal1 h1,
    Calendar.pack_be32 1478197983 = Ok st ∧
    Calendar.submit toy_sha256 cal 0%nat 1478197983 [t] = (cal1, h1, Ok tt) ∧
    Calendar.journal cal1 = Calendar.journal cal ++ st ++ msg t ∧
    Calendar.submit toy_sha256 cal1 0%nat 1478197983 h1 =
      (Calendar.mk (Calendar.journal cal ++ (st ++ msg t) ++ (st ++ msg t))
         (Calendar.uri cal), h1, Ok tt).
Proof.
  apply (calendar_submit_twice toy_sha256 (Calendar.mk [] [x75]) 0%nat
           (mkTimestamp (replicate 32 x01) [] []) 1478197983
           [mkTimestamp (replicate 32 x01) [] []]);
    [reflexivity | reflexivity | reflexivity | lia | reflexivity].
Defined.

Lemma calendar_submit_distinct_times_witness :
  let t := mkTimestamp (replicate 32 x01) [] [] in
  let cal := Calendar.mk [] [x75] in
  ∃ st1 st2 cal1 h1 cal2 h2,
    Calendar.submit toy_sha256 cal 0%nat 5 [t] = (cal1, h1, Ok tt) ∧
    Calendar.submit toy_sha256 cal1 0%nat 6 h1 = (cal2, h2, Ok tt) ∧
    Calendar.unpack_be st1 = 5 ∧ Calendar.unpack_be st2 = 6 ∧
    st1 ++ msg t ≠ st2 ++ msg t ∧
    Journal.getitem ext4_max_offset (Calendar.journal cal2) (Journal.entries (Calendar.journal cal)) =
      Ok (st1 ++ msg t) ∧
    Journal.getitem ext4_max_offset (Calendar.journal cal2) (Journal.entries (Calendar.journal cal) + 1) =
      Ok (st2 ++ msg t) ∧
    h2 !! 0%nat = Some (mkTimestamp (msg t) (attestations t)
                          [(OpPrepend st1, length [t]); (OpPrepend st2, S (length [t]))]).
Proof.
  apply (calendar_submit_distinct_times toy_sha256 ext4_max_offset (Calendar.mk [] [x75]) 0%nat
           (mkTimestamp (replicate 32 x01) [] []) 5 6
           [mkTimestamp (replicate 32 x01) [] []]);
    [reflexivity | reflexivity | reflexivity | lia | lia | lia | reflexivity].
Defined.

(** ** The calendar: membership, and the order of a lookup *)

#[global] Instance name_le_total : Total Calendar.name_le.
Proof. intros a b. apply String.leb_total. Qed.

#[global] Instance name_le_trans : Transitive Calendar.name_le.
Proof.
  intros a b c Hab Hbc. unfold Calendar.name_le in *.
  apply Is_true_true. apply Is_true_true in Hab, Hbc.
  exact (transitivity (R := String.le) Hab Hbc).
Qed.

#[global] Instance name_le_antisymm : AntiSymm (=) Calendar.name_le.
Proof. intros a b Hab Hba. by apply String.leb_antisym. Qed.

(** Sorting makes the order of the listing irrelevant. *)
Lemma sorted_listing (listing listing' : list string) :
  listing ≡ₚ listing' →
  merge_sort Calendar.name_le listing = merge_sort Calendar.name_le listing'.
Proof.
  intros HP. apply (Sorted_unique Calendar.name_le).
  - apply Sorted_merge_sort, _.
  - apply Sorted_merge_sort, _.
  - by rewrite !merge_sort_Permutation.
Qed.


Section CalendarContains.
Context {Stamp : Type}.
Variable deserialize : bytes → bytes → option Stamp.
Variable commitment_timestamps_path : bytes → string.

Local Abbreviation getitem := (Calendar.getitem deserialize commitment_timestamps_path).
Local Abbreviation contains := (Calendar.contains deserialize commitment_timestamps_path).

(** X11: [commitment in calendar] never raises on the files of the
    calendar, and it is true exactly when a lookup of the commitment
    yields a timestamp: when the directory of the commitment has a file
    that deserializes.  This is also when the lookup ends without
    [KeyError]. *)
Theorem calendar_contains_iff_lookup (fs : gmap string (gmap string bytes))
    (commitment : bytes) :
  let stored :=
    ∃ d name contents stamp,
      fs !! commitment_timestamps_path commitment = Some d ∧
      d !! name = Some contents ∧ deserialize contents commitment = Some stamp in
  (contains fs commitment = Return true ∨ contains fs commitment = Return false) ∧
  (contains fs commitment = Return true ↔ stored) ∧
  (contains fs commitment = Return true ↔ (getitem fs commitment).1 ≠ []) ∧
  (contains fs commitment = Return false ↔ (getitem fs commitment).2 = Raise KeyError).
Proof.
  cbv zeta. unfold Calendar.contains. rewrite getitem_spec.
  destruct (fs !! commitment_timestamps_path commitment) as [d|] eqn:Hd; cbn [fst snd].
  2:{ simpl. split; [by right|]. split; [|split; [done|done]].
      split; [done|]. by intros (? & ? & ? & ? & ? & _). }
  set (names := merge_sort Calendar.name_le (Calendar.listdir d)).
  set (parsed := λ name : string, d !! name ≫= λ contents : bytes,
                   deserialize contents commitment).
  assert (Hst : omap parsed names ≠ [] ↔
                ∃ d' name contents stamp, Some d = Some d' ∧ d' !! name = Some contents ∧
                                          deserialize contents commitment = Some stamp).
  { rewrite omap_nil_iff. split.
    - intros Hne. destruct (decide (Exists (λ n, is_Some (parsed n)) names)) as [Hex|Hno].
      + apply Exists_exists in Hex as (name & _ & stamp & Hp).
        unfold parsed in Hp. destruct (d !! name) as [contents|] eqn:Hc; [|done].
        by exists d, name, contents, stamp.
      + exfalso. apply Hne. intros name Hin.
        destruct (parsed name) as [stamp|] eqn:Hp; [|done].
        exfalso. apply Hno, Exists_exists. by exists name.
    - intros (d' & name & contents & stamp & [= <-] & Hc & Hs) Hall.
      specialize (Hall name). unfold parsed in Hall. rewrite Hc in Hall.
      simpl in Hall. rewrite Hs in Hall. discriminate Hall.
      unfold names. rewrite merge_sort_Permutation.
      apply listdir_lookup. by exists contents. }
  cbv zeta. destruct (omap parsed names) as [|stamp stamps] eqn:Ho; simpl.
  - split; [by right|]. split; [|done].
    split; [done|]. intros H. by apply Hst in H.
  - split; [by left|]. split; [|done].
    split; [|done]. intros _. by apply Hst.
Qed.

(** X12: the timestamps of a lookup do not depend on the order in which
    [os.listdir] lists the directory: for every listing of the files the
    sorted file names are the same, in ascending order, and so are the
    timestamps yielded and the way the generator ends. *)
Theorem lookup_order_independent (d : gmap string bytes) (commitment : bytes)
    (listing : list string) :
  listing ≡ₚ Calendar.listdir d →
  Sorted Calendar.name_le (merge_sort Calendar.name_le listing) ∧
  merge_sort Calendar.name_le listing = merge_sort Calendar.name_le (Calendar.listdir d) ∧
  Calendar.scan deserialize d commitment (merge_sort Calendar.name_le listing) true =
    Calendar.scan deserialize d commitment
      (merge_sort Calendar.name_le (Calendar.listdir d)) true.
Proof.
  intros HP. split; [apply Sorted_merge_sort, _|].
  by rewrite (sorted_listing _ _ HP).
Qed.

End CalendarContains.

Lemma lookup_order_independent_witness :
  let d : gmap string bytes := {[ "b" := [x00; x01]; "a" := [x00; x02] ]} in
  Sorted Calendar.name_le (merge_sort Calendar.name_le ["b"; "a"]) ∧
  merge_sort Calendar.name_le ["b"; "a"] = merge_sort Calendar.name_le (Calendar.listdir d) ∧
  Calendar.scan toy_deserialize d [x01] (merge_sort Calendar.name_le ["b"; "a"]) true =
    Calendar.scan toy_deserialize d [x01]
      (merge_sort Calendar.name_le (Calendar.listdir d)) true.
Proof.
  apply (lookup_order_independent toy_deserialize
           ({[ "b" := [x00; x01]; "a" := [x00; x02] ]} : gmap string bytes) [x01] ["b"; "a"]).
  unfold Calendar.listdir.
  rewrite map_to_list_insert by done. rewrite map_to_list_singleton. done.
Defined.

(** ** File names: decimal and hexadecimal digits, paths *)

Section Strings.
Import (notations) Stdlib.Strings.Ascii.

Lemma string_app_cons c s t : String c s +:+ t = String c (s +:+ t).
Proof. reflexivity. Qed.

Lemma string_app_nil_l t : "" +:+ t = t.
Proof. reflexivity. Qed.

Lemma string_app_assoc s t u : (s +:+ t) +:+ u = s +:+ (t +:+ u).
Proof. induction s as [|c s IH]; [done|]. rewrite !string_app_cons. by rewrite IH. Qed.

Lemma string_length_app s t :
  String.length (s +:+ t) = (String.length s + String.length t)%nat.
Proof. induction s as [|c s IH]; [done|]. rewrite string_app_cons. simpl. by rewrite IH. Qed.

Lemma chars_all_app P s t : chars_all P (s +:+ t) ↔ chars_all P s ∧ chars_all P t.
Proof.
  induction s as [|c s IH]; [simpl; tauto|]. rewrite string_app_cons. simpl. rewrite IH. tauto.
Qed.

Lemma chars_all_impl (P Q : Ascii.ascii → Prop) s :
  (∀ c, P c → Q c) → chars_all P s → chars_all Q s.
Proof. intros HPQ. induction s as [|c s IH]; simpl; [done|]. intros [??]. auto. Qed.

Lemma decimal_value_bound s : chars_all is_digit s → 0 ≤ decimal_value s < 10 ^ Z.of_nat (String.length s).
Proof.
  induction s as [|c s IH]; simpl; [lia|]. intros [Hc Hs]. specialize (IH Hs).
  unfold is_digit in Hc.
  replace (Z.of_nat (S (String.length s))) with (Z.of_nat (String.length s) + 1) by lia.
  rewrite Z.pow_add_r by lia. change (10 ^ 1) with 10.
  pose proof (Z.pow_pos_nonneg 10 (Z.of_nat (String.length s)) ltac:(lia) ltac:(lia)).
  set (P := 10 ^ Z.of_nat (String.length s)) in *.
  set (k := Z.of_N (Ascii.N_of_ascii c)). assert (48 ≤ k ≤ 57) by (unfold k; lia).
  nia.
Qed.

Lemma decimal_value_app s t :
  decimal_value (s +:+ t) =
    decimal_value s * 10 ^ Z.of_nat (String.length t) + decimal_value t.
Proof.
  induction s as [|c s IH]; [rewrite string_app_nil_l; simpl; lia|]. rewrite string_app_cons. simpl.
  rewrite IH, string_length_app, Nat2Z.inj_add, Z.pow_add_r by lia. ring.
Qed.
End Strings.

Section Decimal.
Import (notations) Stdlib.Strings.Ascii.

Lemma N_of_digit d : 0 ≤ d ≤ 9 → Z.of_N (Ascii.N_of_ascii (Calendar.digit d)) = 48 + d.
Proof.
  intros Hd. unfold Calendar.digit. rewrite Ascii.N_ascii_embedding; lia.
Qed.

Lemma digit_is_digit d : 0 ≤ d ≤ 9 → is_digit (Calendar.digit d).
Proof. intros Hd. unfold is_digit. pose proof (N_of_digit d Hd). lia. Qed.

Lemma decimal_fuel_spec fuel :
  ∀ n acc, 0 ≤ n < 10 ^ Z.of_nat fuel →
    ∃ ds, Calendar.decimal_fuel fuel n acc = ds +:+ acc ∧
          chars_all is_digit ds ∧ decimal_value ds = n ∧
          ((String.length ds ≤ 1)%nat ∨ 10 ^ (Z.of_nat (String.length ds) - 1) ≤ n).
Proof.
  induction fuel as [|fuel IH]; intros n acc Hn.
  - exists "". change (10 ^ Z.of_nat 0) with 1 in Hn.
    split; [done|]. split; [done|]. split; [simpl; lia|]. left. simpl. lia.
  - cbn [Calendar.decimal_fuel]. cbv zeta.
    assert (Hm : 0 ≤ n `mod` 10 ≤ 9) by (pose proof (Z.mod_pos_bound n 10); lia).
    destruct (Z.ltb_spec n 10) as [Hlt|Hge].
    + exists (String (Calendar.digit (n `mod` 10)) "").
      split; [done|]. split; [by split; [apply digit_is_digit|]|].
      split; [|by left]. simpl. rewrite N_of_digit by done.
      rewrite Z.mod_small by lia. lia.
    + replace (Z.of_nat (S fuel)) with (Z.of_nat fuel + 1) in Hn by lia.
      rewrite Z.pow_add_r in Hn by lia. change (10 ^ 1) with 10 in Hn.
      destruct (IH (n `div` 10) (String (Calendar.digit (n `mod` 10)) acc))
        as (ds & E & Hds & Hv & Hl).
      { split; [apply Z.div_pos; lia|]. apply Z.div_lt_upper_bound; lia. }
      exists (ds +:+ String (Calendar.digit (n `mod` 10)) "").
      split; [by rewrite E, string_app_assoc|].
      split; [apply chars_all_app; split; [done|]; by split; [apply digit_is_digit|]|].
      split.
      * rewrite decimal_value_app, Hv. simpl. rewrite N_of_digit by done.
        pose proof (Z.div_mod n 10 ltac:(lia)). lia.
      * right. rewrite string_length_app. simpl.
        replace (Z.of_nat (String.length ds + 1) - 1) with (Z.of_nat (String.length ds)) by lia.
        destruct Hl as [Hl|Hl].
        -- assert (Z.of_nat (String.length ds) = 0 ∨ Z.of_nat (String.length ds) = 1) as [->| ->] by lia;
             simpl; lia.
        -- destruct (decide (String.length ds = 0%nat)) as [->|Hpos]; [simpl; lia|].
           replace (Z.of_nat (String.length ds)) with ((Z.of_nat (String.length ds) - 1) + 1) by lia.
           rewrite Z.pow_add_r by lia. change (10 ^ 1) with 10.
           pose proof (Z.div_mod n 10 ltac:(lia)). lia.
Qed.
End Decimal.

Section Format.
Import (notations) Stdlib.Strings.Ascii.

Lemma string_app_nil_r s : s +:+ "" = s.
Proof. induction s as [|c s IH]; [done|]. by rewrite string_app_cons, IH. Qed.

Lemma decimal_spec n :
  0 ≤ n →
  chars_all is_digit (Calendar.decimal n) ∧ decimal_value (Calendar.decimal n) = n ∧
  (n < 10 ^ 7 → (String.length (Calendar.decimal n) ≤ 7)%nat).
Proof.
  intros Hn. unfold Calendar.decimal.
  destruct (decimal_fuel_spec (S (Z.to_nat (Z.log2 n))) n "") as (ds & -> & Hds & Hv & Hl).
  { split; [done|]. destruct (decide (n = 0)) as [->|Hne]; [done|].
    pose proof (Z.log2_spec n ltac:(lia)) as [_ Hlog].
    pose proof (Z.log2_nonneg n).
    replace (Z.of_nat (S (Z.to_nat (Z.log2 n)))) with (Z.succ (Z.log2 n)) by lia.
    eapply Z.lt_le_trans; [exact Hlog|]. apply Z.pow_le_mono_l. lia. }
  rewrite string_app_nil_r. split; [done|]. split; [done|].
  intros Hlt. destruct Hl as [Hl|Hl]; [lia|].
  destruct (decide (String.length ds ≤ 7)%nat) as [|Hgt]; [done|]. exfalso.
  assert (10 ^ 7 ≤ 10 ^ (Z.of_nat (String.length ds) - 1)) by (apply Z.pow_le_mono_r; lia).
  lia.
Qed.

Lemma zeros_spec k :
  chars_all is_digit (Calendar.zeros k) ∧ decimal_value (Calendar.zeros k) = 0 ∧
  String.length (Calendar.zeros k) = k.
Proof.
  induction k as [|k (IH1 & IH2 & IH3)]; [done|]. simpl.
  split; [split; [unfold is_digit; simpl; lia|done]|].
  split; [rewrite IH2; simpl; lia|by rewrite IH3].
Qed.

(** ['%07d'] of a number that is not negative. *)
Lemma format_07d_nonneg n :
  0 ≤ n →
  chars_all is_digit (Calendar.format_07d n) ∧
  decimal_value (Calendar.format_07d n) = n ∧
  (n < 10 ^ 7 → String.length (Calendar.format_07d n) = 7%nat).
Proof.
  intros Hn. unfold Calendar.format_07d. cbv zeta.
  destruct (Z.ltb_spec n 0) as [|_]; [lia|].
  rewrite Z.abs_eq by done.
  destruct (decimal_spec n Hn) as (Hds & Hv & Hl).
  destruct (zeros_spec (7 - String.length (Calendar.decimal n))) as (Hz1 & Hz2 & Hz3).
  split; [by apply chars_all_app|].
  split; [rewrite decimal_value_app, Hz2, Hv; lia|].
  intros Hlt. specialize (Hl Hlt). rewrite string_length_app, Hz3. lia.
Qed.

Lemma format_07d_chars n :
  chars_all (λ c, is_digit c ∨ c = "-"%char) (Calendar.format_07d n).
Proof.
  unfold Calendar.format_07d. cbv zeta.
  destruct (decimal_spec (Z.abs n) ltac:(lia)) as (Hds & _ & _).
  assert (Hd : ∀ s, chars_all is_digit s → chars_all (λ c, is_digit c ∨ c = "-"%char) s).
  { intros s. apply chars_all_impl. by left. }
  destruct (Z.ltb_spec n 0).
  - rewrite string_app_cons, string_app_nil_l. split; [by right|].
    apply chars_all_app. split; apply Hd; [apply zeros_spec|done].
  - apply chars_all_app. split; apply Hd; [apply zeros_spec|done].
Qed.

(** Strings of digits of one length compare as their numbers do, whatever
    follows them. *)
Lemma compare_decimal a :
  ∀ b x y, String.length a = String.length b →
    chars_all is_digit a → chars_all is_digit b →
    decimal_value a < decimal_value b →
    String.compare (a +:+ x) (b +:+ y) = Lt.
Proof.
  induction a as [|c a IH]; intros [|c' b] x y Hlen Ha Hb Hv; try done.
  simpl in Hlen, Ha, Hb, Hv. destruct Ha as [Hc Ha], Hb as [Hc' Hb].
  injection Hlen as Hlen. rewrite <- Hlen in Hv.
  pose proof (decimal_value_bound a Ha). pose proof (decimal_value_bound b Hb).
  rewrite <- Hlen in *.
  pose proof (Z.pow_pos_nonneg 10 (Z.of_nat (String.length a)) ltac:(lia) ltac:(lia)).
  set (P := 10 ^ Z.of_nat (String.length a)) in *.
  unfold is_digit in Hc, Hc'.
  rewrite !string_app_cons. cbn [String.compare]. unfold Ascii.compare.
  destruct (N.compare_spec (Ascii.N_of_ascii c) (Ascii.N_of_ascii c')) as [E|E|E].
  - apply IH; try done. rewrite E in Hv. lia.
  - done.
  - exfalso. nia.
Qed.
End Format.

Section Hex.
Import (notations) Stdlib.Strings.Ascii.

Lemma N_of_hexdigit d :
  (d < 16)%N →
  Ascii.N_of_ascii (Calendar.hexdigit d) = (if (d <? 10)%N then 48 + d else 87 + d)%N.
Proof.
  intros Hd. unfold Calendar.hexdigit. apply Ascii.N_ascii_embedding.
  destruct (N.ltb_spec d 10); lia.
Qed.

Lemma hexdigit_inj d d' :
  (d < 16)%N → (d' < 16)%N → Calendar.hexdigit d = Calendar.hexdigit d' → d = d'.
Proof.
  intros Hd Hd' E. apply (f_equal Ascii.N_of_ascii) in E.
  rewrite !N_of_hexdigit in E by done.
  destruct (N.ltb_spec d 10), (N.ltb_spec d' 10); lia.
Qed.

Lemma byte_nibbles b :
  (Byte.to_N b `div` 16 < 16)%N ∧ (Byte.to_N b `mod` 16 < 16)%N.
Proof.
  pose proof (Byte.to_N_bounded b). split.
  - apply N.Div0.div_lt_upper_bound. lia.
  - apply N.mod_lt. lia.
Qed.

Lemma hexlify_inj bs : ∀ bs', Calendar.hexlify bs = Calendar.hexlify bs' → bs = bs'.
Proof.
  induction bs as [|b bs IH]; intros [|b' bs'] E; try done.
  simpl in E. injection E as E1 E2 E3.
  destruct (byte_nibbles b), (byte_nibbles b').
  apply hexdigit_inj in E1, E2; try done.
  f_equal; [|by apply IH].
  assert (Byte.to_N b = Byte.to_N b') as Hb.
  { rewrite (N.div_mod (Byte.to_N b) 16), (N.div_mod (Byte.to_N b') 16) by lia. lia. }
  apply (f_equal Byte.of_N) in Hb. rewrite !Byte.of_to_N in Hb. by injection Hb.
Qed.

Lemma b2lx_inj bs bs' : Calendar.b2lx bs = Calendar.b2lx bs' → bs = bs'.
Proof.
  unfold Calendar.b2lx. intros E%hexlify_inj. by apply (inj reverse).
Qed.

Lemma hexlify_chars bs :
  chars_all (λ c, c ≠ "/"%char) (Calendar.hexlify bs).
Proof.
  assert (Hd : ∀ d, (d < 16)%N → Calendar.hexdigit d ≠ "/"%char).
  { intros d Hd E. apply (f_equal Ascii.N_of_ascii) in E.
    rewrite N_of_hexdigit in E by done. simpl in E.
    destruct (N.ltb_spec d 10); lia. }
  induction bs as [|b bs IH]; [done|]. simpl.
  destruct (byte_nibbles b). split; [by apply Hd|]. split; [by apply Hd|done].
Qed.
End Hex.

Section Paths.
Import (notations) Stdlib.Strings.Ascii.

(** A string is split in one way at the first occurrence of a
    character. *)
Lemma app_sep_inj (sep : Ascii.ascii) s1 :
  ∀ s2 r1 r2,
    chars_all (λ c, c ≠ sep) s1 → chars_all (λ c, c ≠ sep) s2 →
    s1 +:+ String sep r1 = s2 +:+ String sep r2 → s1 = s2 ∧ r1 = r2.
Proof.
  induction s1 as [|c s1 IH]; intros [|c' s2] r1 r2 H1 H2 E.
  - rewrite !string_app_nil_l in E. by injection E.
  - rewrite string_app_nil_l, string_app_cons in E. injection E as -> _. by destruct H2.
  - rewrite string_app_nil_l, string_app_cons in E. injection E as -> _. by destruct H1.
  - rewrite !string_app_cons in E. injection E as -> E.
    destruct H1, H2. destruct (IH s2 r1 r2) as [-> ->]; done.
Qed.

Lemma split_at_last_slash_None name :
  chars_all (λ c, c ≠ "/"%char) name → Calendar.split_at_last_slash name = None.
Proof.
  induction name as [|c name IH]; [done|]. intros [Hc Hn]. simpl.
  rewrite IH by done. by destruct (Ascii.eqb_spec c "/").
Qed.

(** The path of a file in a directory is split into the two. *)
Lemma split_path_app dir name :
  chars_all (λ c, c ≠ "/"%char) name →
  Calendar.split_path (dir +:+ String "/" name) = (dir, name).
Proof.
  intros Hn. unfold Calendar.split_path.
  assert (Calendar.split_at_last_slash (dir +:+ String "/" name) = Some (dir, name)) as ->;
    [|done].
  induction dir as [|c dir IH].
  - rewrite string_app_nil_l. simpl. by rewrite split_at_last_slash_None.
  - rewrite string_app_cons. simpl. by rewrite IH.
Qed.
End Paths.

(** ** The paths of the proof files *)

Section VerificationPath.
Import (notations) Stdlib.Strings.Ascii.
Variable commitment_timestamps_path : bytes → string.

Local Abbreviation verification_path :=
  (Calendar.commitment_verification_path commitment_timestamps_path).

(** The name of the file of a Bitcoin attestation. *)
Local Abbreviation file_name height m :=
  ("btcblk-" +:+ Calendar.format_07d height +:+ "-" +:+ Calendar.b2lx m).

Lemma verification_path_bitcoin c v height :
  Calendar.VerifyOp.attestation v = BitcoinBlockHeaderAttestation height →
  verification_path c v =
    Ok (commitment_timestamps_path c +:+
        String "/" (file_name height (Calendar.VerifyOp.msg v))).
Proof. intros Hv. unfold Calendar.commitment_verification_path. by rewrite Hv. Qed.

Lemma ascii_compare_refl c : Ascii.compare c c = Eq.
Proof. apply N.compare_refl. Qed.

Lemma is_digit_not c (x : Ascii.ascii) :
  is_digit c → ¬ (48 ≤ Ascii.N_of_ascii x ≤ 57)%N → c ≠ x.
Proof. intros Hc Hx ->. by apply Hx. Qed.

Lemma file_name_no_slash height m :
  chars_all (λ c, c ≠ "/"%char) (file_name height m).
Proof.
  repeat (rewrite string_app_cons; split; [done|]). rewrite string_app_nil_l.
  apply chars_all_app. split.
  - eapply chars_all_impl; [|apply format_07d_chars].
    intros c [Hc| ->]; [|done]. apply (is_digit_not _ _ Hc). simpl. lia.
  - rewrite string_app_cons, string_app_nil_l. split; [done|]. apply hexlify_chars.
Qed.

Lemma file_name_inj h1 m1 h2 m2 :
  0 ≤ h1 → 0 ≤ h2 → file_name h1 m1 = file_name h2 m2 → h1 = h2 ∧ m1 = m2.
Proof.
  intros Hh1 Hh2 E.
  rewrite !string_app_cons, !string_app_nil_l in E. injection E as E.
  destruct (format_07d_nonneg h1 Hh1) as (Hd1 & Hv1 & _).
  destruct (format_07d_nonneg h2 Hh2) as (Hd2 & Hv2 & _).
  apply app_sep_inj in E as [Ef Em].
  - split; [congruence|by apply b2lx_inj].
  - eapply chars_all_impl; [|exact Hd1]. intros c Hc. apply (is_digit_not _ _ Hc). simpl. lia.
  - eapply chars_all_impl; [|exact Hd2]. intros c Hc. apply (is_digit_not _ _ Hc). simpl. lia.
Qed.

Lemma file_name_lt h1 m1 h2 m2 :
  0 ≤ h1 < h2 → h2 < 10 ^ 7 →
  String.compare (file_name h1 m1) (file_name h2 m2) = Lt.
Proof.
  intros Hh1 Hh2.
  destruct (format_07d_nonneg h1 ltac:(lia)) as (Hd1 & Hv1 & Hl1).
  destruct (format_07d_nonneg h2 ltac:(lia)) as (Hd2 & Hv2 & Hl2).
  rewrite !string_app_cons, !string_app_nil_l.
  cbn [String.compare]. unfold Ascii.compare at 1 2 3 4 5 6 7.
  rewrite !N.compare_refl.
  apply compare_decimal; try done; [rewrite Hl1, Hl2; lia|lia].
Qed.

Lemma name_lt_le a b :
  String.compare a b = Lt → Calendar.name_le a b ∧ ¬ Calendar.name_le b a ∧ a ≠ b.
Proof.
  intros Hlt. unfold Calendar.name_le, String.leb.
  rewrite (String.compare_antisym b a), Hlt. simpl.
  split; [done|]. split; [done|]. intros ->.
  assert (String.compare b b = Eq) as E; [|congruence].
  clear Hlt. induction b as [|c b IH]; [done|]. simpl.
  by rewrite ascii_compare_refl.
Qed.

(** X13: distinct Bitcoin attestations of a commitment get distinct
    files: two objects that differ in the block height or in the message
    have different paths. *)
Theorem verification_path_injective (commitment : bytes) (v1 v2 : Calendar.VerifyOp.t)
    (height1 height2 : Z) :
  Calendar.VerifyOp.attestation v1 = BitcoinBlockHeaderAttestation height1 →
  Calendar.VerifyOp.attestation v2 = BitcoinBlockHeaderAttestation height2 →
  0 ≤ height1 → 0 ≤ height2 → v1 ≠ v2 →
  verification_path commitment v1 ≠ verification_path commitment v2.
Proof.
  intros Hv1 Hv2 Hh1 Hh2 Hne E. apply Hne.
  rewrite (verification_path_bitcoin _ _ _ Hv1), (verification_path_bitcoin _ _ _ Hv2) in E.
  injection E as E. apply (inj (String.app _)) in E. injection E as E.
  assert (height1 = height2 ∧ Calendar.VerifyOp.msg v1 = Calendar.VerifyOp.msg v2)
    as [-> Hm].
  { apply file_name_inj; [done|done|]. f_equal. exact E. }
  destruct v1, v2. simpl in *. congruence.
Qed.

(** X14: the names of the files of Bitcoin attestations sort by block
    height, for heights of up to seven digits: the file of the lower block
    comes first in the order of [sorted], whatever the messages are, and
    the path of each file is that of the directory of the commitment, a
    slash, and the name. *)
Theorem verification_paths_sort_by_height (commitment : bytes)
    (v1 v2 : Calendar.VerifyOp.t) (height1 height2 : Z) :
  Calendar.VerifyOp.attestation v1 = BitcoinBlockHeaderAttestation height1 →
  Calendar.VerifyOp.attestation v2 = BitcoinBlockHeaderAttestation height2 →
  0 ≤ height1 < height2 → height2 < 10 ^ 7 →
  ∃ name1 name2,
    verification_path commitment v1 =
      Ok (commitment_timestamps_path commitment +:+ "/" +:+ name1) ∧
    verification_path commitment v2 =
      Ok (commitment_timestamps_path commitment +:+ "/" +:+ name2) ∧
    Calendar.split_path (commitment_timestamps_path commitment +:+ "/" +:+ name1) =
      (commitment_timestamps_path commitment, name1) ∧
    Calendar.split_path (commitment_timestamps_path commitment +:+ "/" +:+ name2) =
      (commitment_timestamps_path commitment, name2) ∧
    Calendar.name_le name1 name2 ∧ ¬ Calendar.name_le name2 name1 ∧
    merge_sort Calendar.name_le [name2; name1] = [name1; name2].
Proof.
  intros Hv1 Hv2 Hh1 Hh2.
  exists (file_name height1 (Calendar.VerifyOp.msg v1)),
         (file_name height2 (Calendar.VerifyOp.msg v2)).
  split; [by apply verification_path_bitcoin|].
  split; [by apply verification_path_bitcoin|].
  split; [apply split_path_app, file_name_no_slash|].
  split; [apply split_path_app, file_name_no_slash|].
  destruct (name_lt_le _ _ (file_name_lt height1 (Calendar.VerifyOp.msg v1) height2
                              (Calendar.VerifyOp.msg v2) Hh1 Hh2)) as (Hle & Hnle & Hne).
  split; [done|]. split; [done|].
  apply (Sorted_unique Calendar.name_le).
  - apply Sorted_merge_sort, _.
  - repeat constructor. done.
  - rewrite merge_sort_Permutation. apply Permutation_swap.
Qed.
End VerificationPath.

Lemma verification_path_injective_witness :
  let v1 := Calendar.VerifyOp.mk (BitcoinBlockHeaderAttestation 438123) [x01; xab] in
  let v2 := Calendar.VerifyOp.mk (BitcoinBlockHeaderAttestation 438123) [x01; xac] in
  Calendar.commitment_verification_path toy_path [x07] v1 ≠
  Calendar.commitment_verification_path toy_path [x07] v2.
Proof.
  apply (verification_path_injective toy_path [x07]
           (Calendar.VerifyOp.mk (BitcoinBlockHeaderAttestation 438123) [x01; xab])
           (Calendar.VerifyOp.mk (BitcoinBlockHeaderAttestation 438123) [x01; xac])
           438123 438123); [reflexivity | reflexivity | lia | lia | discriminate].
Defined.

Lemma verification_paths_sort_by_height_witness :
  let v1 := Calendar.VerifyOp.mk (BitcoinBlockHeaderAttestation 99999) [xff] in
  let v2 := Calendar.VerifyOp.mk (BitcoinBlockHeaderAttestation 100000) [x00] in
  ∃ name1 name2,
    Calendar.commitment_verification_path toy_path [x01] v1 =
      Ok (toy_path [x01] +:+ "/" +:+ name1) ∧
    Calendar.commitment_verification_path toy_path [x01] v2 =
      Ok (toy_path [x01] +:+ "/" +:+ name2) ∧
    Calendar.split_path (toy_path [x01] +:+ "/" +:+ name1) = (toy_path [x01], name1) ∧
    Calendar.split_path (toy_path [x01] +:+ "/" +:+ name2) = (toy_path [x01], name2) ∧
    Calendar.name_le name1 name2 ∧ ¬ Calendar.name_le name2 name1 ∧
    merge_sort Calendar.name_le [name2; name1] = [name1; name2].
Proof.
  apply (verification_paths_sort_by_height toy_path [x01]
           (Calendar.VerifyOp.mk (BitcoinBlockHeaderAttestation 99999) [xff])
           (Calendar.VerifyOp.mk (BitcoinBlockHeaderAttestation 100000) [x00])
           99999 100000); [reflexivity | reflexivity | lia | lia].
Defined.

(** ** The calendar: storing proofs *)

Section ProofFiles.
Import (notations) Stdlib.Strings.Ascii.
Context {Stamp : Type}.
Variable stamp_msg : Stamp → bytes.
Variable all_attestations : Stamp → list (bytes * Attestation).
Variable serialize : Stamp → bytes.
Variable deserialize : bytes → bytes → option Stamp.
Variable commitment_timestamps_path : bytes → string.

Local Abbreviation add :=
  (Calendar.add_commitment_timestamp stamp_msg all_attestations serialize
     commitment_timestamps_path).
Local Abbreviation store :=
  (Calendar.store_attestations serialize commitment_timestamps_path).
Local Abbreviation getitem := (Calendar.getitem deserialize commitment_timestamps_path).
Local Abbreviation contains := (Calendar.contains deserialize commitment_timestamps_path).
(** The files of [fs'] that are not files of [fs] hold [contents]. *)
Local Abbreviation new_files_hold fs fs' contents :=
  (∀ dir d' name x, fs' !! dir = Some d' → d' !! name = Some x →
     (∃ d, fs !! dir = Some d ∧ d !! name = Some x) ∨ x = contents).

Lemma files_kept_refl fs : files_kept fs fs.
Proof. intros dir d name x Hd Hx. by exists d. Qed.

Lemma files_kept_trans fs1 fs2 fs3 :
  files_kept fs1 fs2 → files_kept fs2 fs3 → files_kept fs1 fs3.
Proof.
  intros H12 H23 dir d name x Hd Hx.
  destruct (H12 _ _ _ _ Hd Hx) as (d2 & Hd2 & Hx2). by eapply H23.
Qed.

Lemma makedirs_lookup fs path :
  Calendar.makedirs fs path !! path = Some (default ∅ (fs !! path)) ∧
  (∀ dir, dir ≠ path → Calendar.makedirs fs path !! dir = fs !! dir).
Proof.
  unfold Calendar.makedirs. destruct (fs !! path) as [d|] eqn:Hp; simpl.
  - done.
  - split; [apply lookup_insert_eq|]. intros dir Hne. by apply lookup_insert_ne.
Qed.

Lemma makedirs_kept fs path :
  files_kept fs (Calendar.makedirs fs path) ∧
  (∀ x, new_files_hold fs (Calendar.makedirs fs path) x).
Proof.
  destruct (makedirs_lookup fs path) as [Hp Hne]. split.
  - intros dir d name x Hd Hx. destruct (decide (dir = path)) as [->|Hdir].
    + rewrite Hp, Hd. by exists d.
    + rewrite Hne, Hd by done. by exists d.
  - intros x dir d' name y Hd' Hy. left. destruct (decide (dir = path)) as [->|Hdir].
    + rewrite Hp in Hd'. injection Hd' as <-.
      destruct (fs !! path) as [d|]; [by exists d|done].
    + rewrite Hne in Hd' by done. by exists d'.
Qed.

Lemma create_file_kept fs path contents fs' r :
  Calendar.create_file fs path contents = (fs', r) →
  files_kept fs fs' ∧ new_files_hold fs fs' contents ∧
  (∀ dir, is_Some (fs !! dir) → is_Some (fs' !! dir)).
Proof.
  unfold Calendar.create_file. destruct (Calendar.split_path path) as [dir0 name0].
  destruct (fs !! dir0) as [d0|] eqn:Hd0.
  2:{ intros [= <- _]. split; [apply files_kept_refl|]. split; [|done].
      intros dir d' name x ??. left. by exists d'. }
  destruct (d0 !! name0) as [x0|] eqn:Hx0.
  { intros [= <- _]. split; [apply files_kept_refl|]. split; [|done].
    intros dir d' name x ??. left. by exists d'. }
  intros [= <- _]. split; [|split].
  - intros dir d name x Hd Hx. destruct (decide (dir = dir0)) as [->|Hdir].
    + rewrite lookup_insert_eq. eexists. split; [done|].
      assert (d = d0) as -> by congruence.
      rewrite lookup_insert_ne; [done|]. intros <-. congruence.
    + rewrite lookup_insert_ne by done. by exists d.
  - intros dir d' name x Hd' Hx. destruct (decide (dir = dir0)) as [->|Hdir].
    + rewrite lookup_insert_eq in Hd'. injection Hd' as <-.
      destruct (decide (name = name0)) as [->|Hname].
      * rewrite lookup_insert_eq in Hx. right. congruence.
      * rewrite lookup_insert_ne in Hx by done. left. by exists d0.
    + rewrite lookup_insert_ne in Hd' by done. left. by exists d'.
  - intros dir Hdir. destruct (decide (dir = dir0)) as [->|Hne].
    + rewrite lookup_insert_eq. by eexists.
    + by rewrite lookup_insert_ne.
Qed.

Lemma store_kept t pairs :
  ∀ fs fs' r, store fs t pairs = (fs', r) →
    files_kept fs fs' ∧ new_files_hold fs fs' (serialize t) ∧
    (∀ dir, is_Some (fs !! dir) → is_Some (fs' !! dir)).
Proof.
  induction pairs as [|[m v] pairs IH]; intros fs fs' r;
    cbn [Calendar.store_attestations].
  { intros [= <- _]. split; [apply files_kept_refl|]. split; [|done].
    intros dir d' name x ??. left. by exists d'. }
  destruct (Calendar.call_commitment_verification_path commitment_timestamps_path m
              (Calendar.AttestationObject v)) as [path|e].
  2:{ intros [= <- _]. split; [apply files_kept_refl|]. split; [|done].
      intros dir d' name x ??. left. by exists d'. }
  destruct (Calendar.create_file fs path (serialize t)) as [fs1 [u|e]] eqn:E;
    apply create_file_kept in E as (Hk1 & Hn1 & Hd1).
  - intros E2. apply IH in E2 as (Hk2 & Hn2 & Hd2).
    split; [by eapply files_kept_trans|]. split; [|by auto].
    intros dir d' name x Hd' Hx.
    destruct (Hn2 _ _ _ _ Hd' Hx) as [(d1 & Hd1' & Hx1)| ->]; [|by right].
    by eapply Hn1.
  - by intros [= <- _].
Qed.

(** X15: [add_commitment_timestamp] never overwrites: every file that
    was stored before the call is stored after it with the same contents,
    however the call ends; the files it adds hold the serialized
    timestamp; and the directory of the commitment exists after it. *)
Theorem add_commitment_timestamp_keeps_files (fs : gmap string (gmap string bytes))
    (timestamp : Stamp) :
  let '(fs', r) := add fs timestamp in
  files_kept fs fs' ∧
  (∀ dir d' name contents,
     fs' !! dir = Some d' → d' !! name = Some contents →
     (∃ d, fs !! dir = Some d ∧ d !! name = Some contents) ∨
     contents = serialize timestamp) ∧
  is_Some (fs' !! commitment_timestamps_path (stamp_msg timestamp)).
Proof.
  destruct (add fs timestamp) as [fs' r] eqn:E.
  unfold Calendar.add_commitment_timestamp in E. cbv zeta in E.
  apply store_kept in E as (Hk & Hn & Hd).
  destruct (makedirs_kept fs (commitment_timestamps_path (stamp_msg timestamp)))
    as [Hk0 Hn0].
  split; [by eapply files_kept_trans|]. split.
  - intros dir d' name x Hd' Hx.
    destruct (Hn _ _ _ _ Hd' Hx) as [(d1 & Hd1' & Hx1)| ->]; [|by right].
    by eapply Hn0.
  - apply Hd. rewrite (proj1 (makedirs_lookup _ _)). by eexists.
Qed.

(** X18: no proof is stored.  [add_commitment_timestamp] makes the
    directory of the message of the timestamp and returns when the
    timestamp has no attestation; when it has one, the call stops with
    [AttributeError] at the first, which is handed to
    [__commitment_verification_path] where an object with an attribute
    [attestation] is read.  Either way no file is created: a directory
    that was there is as it was, the directory that was made is empty, a
    lookup in it raises [KeyError] and the message is not in the
    calendar, so that a lookup of the message gives after the call
    what it gave before. *)
Theorem add_stores_nothing (fs : gmap string (gmap string bytes)) (timestamp : Stamp) :
  let commitment := stamp_msg timestamp in
  let dir := commitment_timestamps_path commitment in
  (all_attestations timestamp = [] →
     add fs timestamp = (Calendar.makedirs fs dir, Ok tt)) ∧
  (all_attestations timestamp ≠ [] →
     add fs timestamp = (Calendar.makedirs fs dir, Raise AttributeError)) ∧
  (is_Some (fs !! dir) → Calendar.makedirs fs dir = fs) ∧
  (fs !! dir = None →
     Calendar.makedirs fs dir !! dir = Some ∅ ∧
     getitem (Calendar.makedirs fs dir) commitment = ([], Raise KeyError) ∧
     contains (Calendar.makedirs fs dir) commitment = Return false) ∧
  (∀ fs' r, add fs timestamp = (fs', r) →
     getitem fs' commitment = getitem fs commitment ∧
     contains fs' commitment = contains fs commitment ∧
     ∀ dir' d' name contents,
       fs' !! dir' = Some d' → d' !! name = Some contents →
       ∃ d, fs !! dir' = Some d ∧ d !! name = Some contents).
Proof.
  intros commitment dir.
  assert (Hadd : add fs timestamp =
            (Calendar.makedirs fs dir,
             match all_attestations timestamp with
             | [] => Ok tt
             | _ :: _ => Raise AttributeError
             end)).
  { unfold Calendar.add_commitment_timestamp. cbv zeta. fold commitment dir.
    by destruct (all_attestations timestamp) as [|[m a] rest]. }
  assert (Hsome : is_Some (fs !! dir) → Calendar.makedirs fs dir = fs).
  { intros [d Hd]. unfold Calendar.makedirs. by rewrite Hd. }
  assert (Hnone : fs !! dir = None →
            Calendar.makedirs fs dir !! dir = Some ∅ ∧
            getitem (Calendar.makedirs fs dir) commitment = ([], Raise KeyError)).
  { intros Hd.
    assert (Hm : Calendar.makedirs fs dir !! dir = Some ∅)
      by (rewrite (proj1 (makedirs_lookup fs dir)), Hd; done).
    split; [done|]. unfold Calendar.getitem. fold dir. cbv zeta.
    rewrite Hm. unfold Calendar.listdir. by rewrite map_to_list_empty. }
  split; [|split; [|split; [|split]]].
  - intros Hall. by rewrite Hadd, Hall.
  - intros Hall. rewrite Hadd. by destruct (all_attestations timestamp).
  - done.
  - intros Hd. destruct (Hnone Hd) as [Hm E]. split; [done|]. split; [done|].
    unfold Calendar.contains. by rewrite E.
  - intros fs' r. rewrite Hadd. intros [= <- _].
    assert (Hget : getitem (Calendar.makedirs fs dir) commitment = getitem fs commitment).
    { destruct (fs !! dir) as [d|] eqn:Hd.
      - by rewrite Hsome.
      - rewrite (proj2 (Hnone eq_refl)). unfold Calendar.getitem. fold dir.
        by rewrite Hd. }
    split; [done|]. split; [unfold Calendar.contains; by rewrite Hget|].
    intros dir' d' name contents Hd' Hx.
    destruct (proj2 (makedirs_kept fs dir) contents _ _ _ _ Hd' Hx) as [H|H]; [done|].
    destruct (decide (dir' = dir)) as [->|Hne].
    + rewrite (proj1 (makedirs_lookup fs dir)) in Hd'. injection Hd' as <-.
      destruct (fs !! dir) as [d|]; [by exists d|done].
    + rewrite (proj2 (makedirs_lookup fs dir)) in Hd' by done. by exists d'.
Qed.

End ProofFiles.

(** ** The aggregator: waiting, release, and the committed digest *)

Section AggregatorMore.
Import Aggregator.
Local Open Scope nat_scope.
Variable sha256 : bytes → bytes.

Lemma set_events_lookup_ne done_events :
  ∀ evs ev, ev ∉ done_events → set_events done_events evs !! ev = evs !! ev.
Proof.
  induction done_events as [|d done_events IH]; intros evs ev Hnin; simpl; [done|].
  apply not_elem_of_cons in Hnin as [Hne Hnin].
  rewrite IH by done. by apply list_lookup_insert_ne.
Qed.

Lemma submit_return_Some (s : State) held :
  is_Some (submit_return s held) ↔ events s !! snd held = Some true.
Proof.
  unfold submit_return. destruct (events s !! snd held) as [[]|]; split; try done;
    by intros [? [=]].
Qed.

Lemma submit_return_None (s : State) held :
  submit_return s held = None ↔ events s !! snd held ≠ Some true.
Proof.
  unfold submit_return. destruct (events s !! snd held) as [[]|]; split; done.
Qed.

(** X20: a caller is released only when its commitment is in the
    journal.  A caller that waits before an iteration of the loop and has
    returned after it was released by this iteration: its digest was in
    the queue that the iteration drained, the iteration ended without
    error, and it appended a record of 36 bytes to the journal.  A caller
    that was released stays released. *)
Theorem release_implies_journaled (s s' : State) (now : Z) (r : res unit)
    (held : loc * nat) :
  loop_iteration sha256 s now = (s', r) →
  (submit_return s held = None → is_Some (submit_return s' held) →
     r = Ok tt ∧ snd held ∈ (digest_queue s).*2 ∧
     ∃ record, length record = 36 ∧
               Calendar.journal (calendar s') = Calendar.journal (calendar s) ++ record) ∧
  (is_Some (submit_return s held) → submit_return s' held = submit_return s held).
Proof.
  intros E.
  assert (Hcases : (events s' = events s) ∨
            (r = Ok tt ∧ events s' = set_events (digest_queue s).*2 (events s) ∧
             ∃ record, length record = 36 ∧
               Calendar.journal (calendar s') = Calendar.journal (calendar s) ++ record)).
  { revert E. unfold loop_iteration.
    destruct ((digest_queue s).*1) as [|d ds]; [intros [= <- _]; by left|].
    destruct (make_merkle_tree sha256 (d :: ds) (heap_ s)) as [h1 [[root|]|e]];
      [|intros [= <- _]; by left..].
    destruct (Calendar.submit sha256 (calendar s) root now h1) as [[cal' h2] [u|e]] eqn:E2;
      [|intros [= <- _]; by left].
    intros [= <- <-]. right. cbn [events calendar].
    destruct (calendar_submit_journal sha256 _ _ _ _ _ _ _ E2)
      as [_ [(_ & record & Hj & Hlen)|[Hne _]]]; [|by destruct u].
    split; [by destruct u|]. split; [done|]. by exists record. }
  split.
  - intros Hwait Hret. apply submit_return_None in Hwait. apply submit_return_Some in Hret.
    destruct Hcases as [Hev|(-> & Hev & Hrec)]; [by rewrite Hev in Hret|].
    split; [done|]. split; [|done].
    destruct (decide (snd held ∈ (digest_queue s).*2)) as [|Hnin]; [done|].
    rewrite Hev, set_events_lookup_ne in Hret by done. done.
  - intros Hret. pose proof Hret as Hret'. apply submit_return_Some in Hret'.
    assert (events s' !! snd held = Some true) as Hev'.
    { destruct Hcases as [->|(_ & -> & _)]; [done|]. apply set_events_lookup. by left. }
    unfold submit_return. by rewrite Hret', Hev'.
Qed.

Lemma submit_enqueue_events (s : State) (m nonce : bytes) s' r :
  submit_enqueue sha256 s m nonce = (s', r) →
  ∃ timestamp, r = Ok (timestamp, length (events s)) ∧ events s' = events s ++ [false].
Proof.
  destruct (submit_enqueue_spec sha256 s m nonce) as (h' & E & _). cbv zeta in E.
  rewrite E. intros [= <- <-]. by eexists.
Qed.

Lemma submit_all_events (batch : list (bytes * bytes)) :
  ∀ (s s' : State) helds,
    submit_all sha256 s batch = (s', Ok helds) →
    events s' = events s ++ replicate (length helds) false ∧
    helds.*2 = seq (length (events s)) (length helds).
Proof.
  induction batch as [|[m nonce] batch IH]; intros s s' helds; simpl.
  - intros [= <- <-]. simpl. by rewrite app_nil_r.
  - destruct (submit_enqueue sha256 s m nonce) as [s1 r1] eqn:E1.
    destruct (submit_enqueue_events _ _ _ _ _ E1) as (ts & -> & Hev1).
    destruct (submit_all sha256 s1 batch) as [s2 [helds2|e]] eqn:E2; [|done].
    intros [= <- <-]. destruct (IH _ _ _ E2) as [Hev2 Hh2].
    rewrite Hev2, Hev1, <- app_assoc. split; [done|].
    cbn [fmap list_fmap snd length seq]. f_equal.
    rewrite Hh2, Hev1, length_app. simpl. f_equal. lia.
Qed.

(** X21: every caller waits on an event of its own.  [submit] leaves the
    caller waiting on a new event, which is not set, and changes no other
    event; the callers that come after it get other events, and however
    many of them queue their digests, the caller keeps waiting. *)
Theorem submit_waits_for_its_event (s : State) (m nonce : bytes) :
  ∃ s' timestamp done_event,
    submit_enqueue sha256 s m nonce = (s', Ok (timestamp, done_event)) ∧
    done_event = length (events s) ∧
    submit_return s' (timestamp, done_event) = None ∧
    (∀ held, snd held < length (events s) → submit_return s' held = submit_return s held) ∧
    (∀ batch s'' helds,
       submit_all sha256 s' batch = (s'', Ok helds) →
       submit_return s'' (timestamp, done_event) = None ∧ done_event ∉ helds.*2).
Proof.
  destruct (submit_enqueue sha256 s m nonce) as [s' r] eqn:E.
  destruct (submit_enqueue_events _ _ _ _ _ E) as (ts & -> & Hev).
  exists s', ts, (length (events s)). split; [done|]. split; [done|].
  split; [|split].
  - unfold submit_return. cbn [snd]. rewrite Hev. by rewrite list_lookup_middle.
  - intros held Hlt. unfold submit_return. rewrite Hev. by rewrite lookup_app_l.
  - intros batch s'' helds E2. destruct (submit_all_events _ _ _ _ E2) as [Hev2 Hh2].
    split.
    + unfold submit_return. cbn [snd]. rewrite Hev2, Hev.
      rewrite lookup_app_l by (rewrite length_app; simpl; lia).
      by rewrite list_lookup_middle.
    + rewrite Hh2, Hev, length_app. simpl. rewrite elem_of_seq. lia.
Qed.

Lemma make_merkle_tree_singleton stamp h :
  make_merkle_tree sha256 [stamp] h = (h, Ok (Some stamp)).
Proof. reflexivity. Qed.

(** X22: one caller, end to end.  When one digest is queued at the tick,
    its own nonced digest is the commitment: the record that the
    iteration appends to the journal is the four bytes of the time
    followed by the hash of the nonce and the message, the caller is
    released, and from its timestamp the nonce op, the hash and the
    time-prefix op lead to the timestamp of the record, which has the
    pending attestation with the URI of the calendar. *)
Theorem single_submission_record (s0 : State) (m nonce : bytes) (now : Z) :
  (∀ x, length (sha256 x) = 32) →
  digest_queue s0 = [] → Journal.aligned (Calendar.journal (calendar s0)) →
  (0 ≤ now < 2 ^ 32)%Z →
  ∃ s1 timestamp done_event s2 st commitment,
    submit_enqueue sha256 s0 m nonce = (s1, Ok (timestamp, done_event)) ∧
    loop_iteration sha256 s1 now = (s2, Ok tt) ∧
    Calendar.pack_be32 now = Ok st ∧
    Calendar.journal (calendar s2) =
      Calendar.journal (calendar s0) ++ st ++ sha256 (nonce ++ m) ∧
    submit_return s2 (timestamp, done_event) = Some timestamp ∧
    msg_at (heap_ s2) timestamp = Some m ∧
    follow (heap_ s2) timestamp [OpPrepend nonce; OpSHA256; OpPrepend st] =
      Some commitment ∧
    heap_ s2 !! commitment =
      Some (mkTimestamp (st ++ sha256 (nonce ++ m))
              [PendingAttestation (Calendar.uri (calendar s0))] []).
Proof.
  intros Hsha Hq Hal Hnow.
  destruct (submit_enqueue_spec sha256 s0 m nonce) as (h1 & E1 & Hlen1 & Ht & Hs & Hn & Hf).
  cbv zeta in E1. set (n := length (heap_ s0)) in *.
  destruct (pack_be32_spec now Hnow) as (st & Hpack & Hst & _).
  destruct (calendar_submit_new sha256 (calendar s0) (n + 2) _ now st h1 Hn)
    as (h2 & E2 & Hlen2 & Hr2 & Hc2 & Hf2); [done|done| |done|].
  { cbn [msg]. rewrite length_app, Hst, Hsha. done. }
  simpl in Hr2, Hc2.
  eexists _, n, (length (events s0)), _, st, (length h1).
  split; [exact E1|]. split.
  { unfold loop_iteration. cbn [digest_queue heap_ calendar events]. rewrite Hq.
    cbn [app fmap list_fmap fst snd]. rewrite make_merkle_tree_singleton.
    rewrite E2. reflexivity. }
  cbn [heap_ calendar events Calendar.journal].
  split; [done|]. split; [done|].
  assert (H2t : h2 !! n = Some (mkTimestamp m [] [(OpPrepend nonce, n + 1)]))
    by (rewrite Hf2 by lia; done).
  assert (H2s : h2 !! (n + 1) = Some (mkTimestamp (nonce ++ m) [] [(OpSHA256, n + 2)]))
    by (rewrite Hf2 by lia; done).
  split.
  { unfold submit_return. cbn [fst snd events set_events foldl].
    rewrite list_lookup_insert_eq; [done|]. rewrite length_app. simpl. lia. }
  split; [unfold msg_at; by rewrite H2t|].
  split; [|done].
  cbn [follow]. rewrite H2t. cbn [ops ops_get]. rewrite decide_True by done.
  rewrite H2s. cbn [ops ops_get]. rewrite decide_True by done.
  rewrite Hr2. cbn [ops ops_get]. by rewrite decide_True.
Qed.

Lemma make_merkle_tree_pair left right h h' parent :
  cat_sha256 sha256 left right h = (h', Ok parent) →
  make_merkle_tree sha256 [left; right] h = (h', Ok (Some parent)).
Proof.
  intros E. unfold make_merkle_tree. cbn [length merkle_levels].
  assert (Ep : merkle_pass sha256 (Some left) [right] [] h = (h', Ok (None, [parent]))).
  { cbn [merkle_pass]. by rewrite (bind_ok _ _ _ _ _ E). }
  by rewrite (bind_ok _ _ _ _ _ Ep).
Qed.

(** X23: two callers, end to end.  When two digests are queued at the
    tick, the commitment is the hash of the first nonced digest followed
    by the second: the record appended to the journal is the time followed
    by this hash, both callers are released, and their timestamps lead to
    the timestamp of the record, the first by its nonce op, the hash, the
    second digest appended, the hash and the time-prefix op, the second by
    its nonce op, the hash, the first digest prepended, the hash and the
    time-prefix op. *)
Theorem two_submissions_record (s0 : State) (m1 nonce1 m2 nonce2 : bytes) (now : Z) :
  (∀ x, length (sha256 x) = 32) →
  digest_queue s0 = [] → Journal.aligned (Calendar.journal (calendar s0)) →
  (0 ≤ now < 2 ^ 32)%Z →
  let digest1 := sha256 (nonce1 ++ m1) in
  let digest2 := sha256 (nonce2 ++ m2) in
  let root := sha256 (digest1 ++ digest2) in
  ∃ s1 t1 e1 t2 e2 s2 st commitment,
    submit_all sha256 s0 [(m1, nonce1); (m2, nonce2)] = (s1, Ok [(t1, e1); (t2, e2)]) ∧
    loop_iteration sha256 s1 now = (s2, Ok tt) ∧
    Calendar.pack_be32 now = Ok st ∧
    Calendar.journal (calendar s2) = Calendar.journal (calendar s0) ++ st ++ root ∧
    submit_return s2 (t1, e1) = Some t1 ∧ submit_return s2 (t2, e2) = Some t2 ∧
    msg_at (heap_ s2) t1 = Some m1 ∧ msg_at (heap_ s2) t2 = Some m2 ∧
    follow (heap_ s2) t1
      [OpPrepend nonce1; OpSHA256; OpAppend digest2; OpSHA256; OpPrepend st] =
      Some commitment ∧
    follow (heap_ s2) t2
      [OpPrepend nonce2; OpSHA256; OpPrepend digest1; OpSHA256; OpPrepend st] =
      Some commitment ∧
    heap_ s2 !! commitment =
      Some (mkTimestamp (st ++ root) [PendingAttestation (Calendar.uri (calendar s0))] []).
Proof.
  intros Hsha Hq Hal Hnow digest1 digest2 root.
  destruct (submit_enqueue_spec sha256 s0 m1 nonce1)
    as (h1 & E1 & Hlen1 & H1t & H1s & H1n & H1f).
  cbv zeta in E1. set (n := length (heap_ s0)) in *.
  rewrite Hq in E1. cbn [app] in E1.
  set (s1 := mk h1 _ _ _) in E1.
  destruct (submit_enqueue_spec sha256 s1 m2 nonce2)
    as (h2 & E2 & Hlen2 & H2t & H2s & H2n & H2f).
  cbv zeta in E2.
  cbn [s1 heap_ digest_queue events calendar] in E2, Hlen2, H2t, H2s, H2n, H2f.
  rewrite Hlen1 in *. cbn [app] in E2.
  fold digest1 in H1n. fold digest2 in H2n.
  assert (Hl : h2 !! (n + 2) = Some (mkTimestamp digest1 [] []))
    by (rewrite H2f by lia; done).
  destruct (cat_sha256_spec sha256 h2 (n + 2) (n + 3 + 2) _ _ ltac:(lia) Hl H2n eq_refl eq_refl)
    as (h3 & E3 & Hlen3 & H3l & H3r & H3c & H3p & H3f).
  cbn [msg attestations] in H3l, H3r, H3c, H3p. rewrite Hlen2 in *. fold root in H3p.
  destruct (pack_be32_spec now Hnow) as (st & Hpack & Hst & _).
  destruct (calendar_submit_new sha256 (calendar s0) (n + 3 + 3 + 2) _ now st h3 H3p)
    as (h4 & E4 & Hlen4 & H4r & H4c & H4f); [done|done| |done|].
  { cbn [msg]. unfold root. rewrite length_app, Hst, Hsha. done. }
  cbn [msg attestations ops app] in H4r, H4c. rewrite Hlen3 in *.
  eexists _, n, (length (events s0)), (n + 3), (length (events s0 ++ [false])), _, st,
    (n + 3 + 3 + 3).
  split.
  { cbn [submit_all]. rewrite E1. fold s1. rewrite E2. reflexivity. }
  split.
  { unfold loop_iteration. cbn [digest_queue heap_ calendar events fmap list_fmap fst snd].
    rewrite (make_merkle_tree_pair _ _ _ _ _ E3). rewrite E4. reflexivity. }
  cbn [heap_ calendar events Calendar.journal].
  split; [done|]. split; [done|].
  split.
  { unfold submit_return. cbn [fst snd events].
    rewrite set_events_lookup; [done|]. right. split; [left|].
    rewrite !length_app. simpl. lia. }
  split.
  { unfold submit_return. cbn [fst snd events].
    rewrite set_events_lookup; [done|]. right. split; [right; left|].
    rewrite !length_app. simpl. lia. }
  assert (G1 : h4 !! n = Some (mkTimestamp m1 [] [(OpPrepend nonce1, n + 1)])).
  { rewrite H4f, H3f, H2f by lia. done. }
  assert (G2 : h4 !! (n + 1) = Some (mkTimestamp (nonce1 ++ m1) [] [(OpSHA256, n + 2)])).
  { rewrite H4f, H3f, H2f by lia. done. }
  assert (G3 : h4 !! (n + 2) =
               Some (mkTimestamp digest1 [] [(OpAppend digest2, n + 3 + 3 + 1)])).
  { rewrite H4f by lia. done. }
  assert (G4 : h4 !! (n + 3) = Some (mkTimestamp m2 [] [(OpPrepend nonce2, n + 3 + 1)])).
  { rewrite H4f, H3f by lia. done. }
  assert (G5 : h4 !! (n + 3 + 1) =
               Some (mkTimestamp (nonce2 ++ m2) [] [(OpSHA256, n + 3 + 2)])).
  { rewrite H4f, H3f by lia. done. }
  assert (G6 : h4 !! (n + 3 + 2) =
               Some (mkTimestamp digest2 [] [(OpPrepend digest1, n + 3 + 3 + 1)])).
  { rewrite H4f by lia. done. }
  assert (G7 : h4 !! (n + 3 + 3 + 1) =
               Some (mkTimestamp (digest1 ++ digest2) [] [(OpSHA256, n + 3 + 3 + 2)])).
  { rewrite H4f by lia. done. }
  split; [unfold msg_at; by rewrite G1|]. split; [unfold msg_at; by rewrite G4|].
  split; [|split; [|done]].
  - cbn [follow]. rewrite G1. cbn [ops ops_get]. rewrite decide_True by done.
    rewrite G2. cbn [ops ops_get]. rewrite decide_True by done.
    rewrite G3. cbn [ops ops_get]. rewrite decide_True by done.
    rewrite G7. cbn [ops ops_get]. rewrite decide_True by done.
    rewrite H4r. cbn [ops ops_get]. by rewrite decide_True.
  - cbn [follow]. rewrite G4. cbn [ops ops_get]. rewrite decide_True by done.
    rewrite G5. cbn [ops ops_get]. rewrite decide_True by done.
    rewrite G6. cbn [ops ops_get]. rewrite decide_True by done.
    rewrite G7. cbn [ops ops_get]. rewrite decide_True by done.
    rewrite H4r. cbn [ops ops_get]. by rewrite decide_True.
Qed.
End AggregatorMore.

Lemma release_implies_journaled_witness :
  let s0 := Aggregator.mk [] [] [] (Calendar.mk [] [x75]) in
  let s := (Aggregator.submit_enqueue toy_sha256 s0 [x01] [xaa]).1 in
  let s' := (Aggregator.loop_iteration toy_sha256 s 5).1 in
  let r := (Aggregator.loop_iteration toy_sha256 s 5).2 in
  let held := (0%nat, 0%nat) in
  (Aggregator.submit_return s held = None → is_Some (Aggregator.submit_return s' held) →
     r = Ok tt ∧ snd held ∈ (Aggregator.digest_queue s).*2 ∧
     ∃ record, length record = 36%nat ∧
               Calendar.journal (Aggregator.calendar s') =
                 Calendar.journal (Aggregator.calendar s) ++ record) ∧
  (is_Some (Aggregator.submit_return s held) →
     Aggregator.submit_return s' held = Aggregator.submit_return s held).
Proof.
  apply (release_implies_journaled toy_sha256
           (Aggregator.submit_enqueue toy_sha256
              (Aggregator.mk [] [] [] (Calendar.mk [] [x75])) [x01] [xaa]).1
           _ 5 _ (0%nat, 0%nat)).
  apply surjective_pairing.
Defined.

Lemma single_submission_record_witness :
  let s0 := Aggregator.mk [] [] [] (Calendar.mk [] [x75]) in
  ∃ s1 timestamp done_event s2 st commitment,
    Aggregator.submit_enqueue toy_sha256 s0 [x01] [xaa] = (s1, Ok (timestamp, done_event)) ∧
    Aggregator.loop_iteration toy_sha256 s1 1478197983 = (s2, Ok tt) ∧
    Calendar.pack_be32 1478197983 = Ok st ∧
    Calendar.journal (Aggregator.calendar s2) =
      Calendar.journal (Aggregator.calendar s0) ++ st ++ toy_sha256 ([xaa] ++ [x01]) ∧
    Aggregator.submit_return s2 (timestamp, done_event) = Some timestamp ∧
    msg_at (Aggregator.heap_ s2) timestamp = Some [x01] ∧
    follow (Aggregator.heap_ s2) timestamp [OpPrepend [xaa]; OpSHA256; OpPrepend st] =
      Some commitment ∧
    Aggregator.heap_ s2 !! commitment =
      Some (mkTimestamp (st ++ toy_sha256 ([xaa] ++ [x01]))
              [PendingAttestation (Calendar.uri (Aggregator.calendar s0))] []).
Proof.
  apply (single_submission_record toy_sha256
           (Aggregator.mk [] [] [] (Calendar.mk [] [x75])) [x01] [xaa] 1478197983).
  - apply toy_sha256_length.
  - reflexivity.
  - reflexivity.
  - lia.
Defined.

Lemma two_submissions_record_witness :
  let s0 := Aggregator.mk [] [] [] (Calendar.mk [] [x75]) in
  let digest1 := toy_sha256 ([xaa] ++ [x01]) in
  let digest2 := toy_sha256 ([xbb] ++ [x02]) in
  let root := toy_sha256 (digest1 ++ digest2) in
  ∃ s1 t1 e1 t2 e2 s2 st commitment,
    Aggregator.submit_all toy_sha256 s0 [([x01], [xaa]); ([x02], [xbb])] =
      (s1, Ok [(t1, e1); (t2, e2)]) ∧
    Aggregator.loop_iteration toy_sha256 s1 1478197983 = (s2, Ok tt) ∧
    Calendar.pack_be32 1478197983 = Ok st ∧
    Calendar.journal (Aggregator.calendar s2) =
      Calendar.journal (Aggregator.calendar s0) ++ st ++ root ∧
    Aggregator.submit_return s2 (t1, e1) = Some t1 ∧
    Aggregator.submit_return s2 (t2, e2) = Some t2 ∧
    msg_at (Aggregator.heap_ s2) t1 = Some [x01] ∧
    msg_at (Aggregator.heap_ s2) t2 = Some [x02] ∧
    follow (Aggregator.heap_ s2) t1
      [OpPrepend [xaa]; OpSHA256; OpAppend digest2; OpSHA256; OpPrepend st] =
      Some commitment ∧
    follow (Aggregator.heap_ s2) t2
      [OpPrepend [xbb]; OpSHA256; OpPrepend digest1; OpSHA256; OpPrepend st] =
      Some commitment ∧
    Aggregator.heap_ s2 !! commitment =
      Some (mkTimestamp (st ++ root)
              [PendingAttestation (Calendar.uri (Aggregator.calendar s0))] []).
Proof.
  apply (two_submissions_record toy_sha256
           (Aggregator.mk [] [] [] (Calendar.mk [] [x75])) [x01] [xaa] [x02] [xbb]
           1478197983).
  - apply toy_sha256_length.
  - reflexivity.
  - reflexivity.
  - lia.
Defined.

Section AggregatorFailure.
Import Aggregator.
Local Open Scope nat_scope.
Variable sha256 : bytes → bytes.

(** X26: a failed iteration loses its batch.  When an iteration of the
    loop raises, there was a batch in the queue; the queue is empty after
    it, nothing was written to the journal, and no event was set: the
    callers of the batch keep waiting, and their digests are no longer
    queued. *)
Theorem failed_iteration_loses_batch (s s' : State) (now : Z) (e : exn) :
  loop_iteration sha256 s now = (s', Raise e) →
  digest_queue s ≠ [] ∧ digest_queue s' = [] ∧
  events s' = events s ∧
  Calendar.journal (calendar s') = Calendar.journal (calendar s) ∧
  (∀ held, submit_return s' held = submit_return s held).
Proof.
  intros E.
  assert (digest_queue s ≠ [] ∧ digest_queue s' = [] ∧ events s' = events s ∧
          Calendar.journal (calendar s') = Calendar.journal (calendar s)) as (? & ? & Hev & ?).
  { revert E. unfold loop_iteration.
    destruct (digest_queue s) as [|q qs] eqn:Hq; [done|]. cbn [fmap list_fmap].
    destruct (make_merkle_tree sha256 _ (heap_ s)) as [h1 [[root|]|e1]];
      [|by intros [= <- _]..].
    destruct (Calendar.submit sha256 (calendar s) root now h1) as [[cal' h2] [u|e2]] eqn:E2;
      [done|].
    intros [= <- _]. cbn [digest_queue events calendar].
    destruct (calendar_submit_journal sha256 _ _ _ _ _ _ _ E2) as [_ [[[=] _]|[_ Hj]]].
    done. }
  repeat (split; [done|]). intros held. unfold submit_return. by rewrite Hev.
Qed.
End AggregatorFailure.

Lemma failed_iteration_loses_batch_witness :
  let s0 := Aggregator.mk [] [] [] (Calendar.mk [] [x75]) in
  let s := (Aggregator.submit_enqueue toy_sha256 s0 [x01] [xaa]).1 in
  let s' := (Aggregator.loop_iteration toy_sha256 s (2 ^ 32)).1 in
  Aggregator.digest_queue s ≠ [] ∧ Aggregator.digest_queue s' = [] ∧
  Aggregator.events s' = Aggregator.events s ∧
  Calendar.journal (Aggregator.calendar s') = Calendar.journal (Aggregator.calendar s) ∧
  (∀ held, Aggregator.submit_return s' held = Aggregator.submit_return s held).
Proof.
  apply (failed_iteration_loses_batch toy_sha256
           (Aggregator.submit_enqueue toy_sha256
              (Aggregator.mk [] [] [] (Calendar.mk [] [x75])) [x01] [xaa]).1
           _ (2 ^ 32) StructError).
  reflexivity.
Defined.

(** ** The calendar: start-up *)

Section CalendarInit.
Variable LeveLB : res unit.

Lemma lstrip_spec bs :
  ∃ ws, bs = ws ++ Calendar.lstrip bs ∧ Forall (λ b, Calendar.is_space b = true) ws ∧
        (∀ b, head (Calendar.lstrip bs) = Some b → Calendar.is_space b = false).
Proof.
  induction bs as [|b bs (ws & Hbs & Hws & Hhd)]; [by exists []|].
  cbn [Calendar.lstrip]. destruct (Calendar.is_space b) eqn:Hb.
  - exists (b :: ws). split; [by rewrite Hbs at 1|]. split; [by constructor|done].
  - exists []. split; [done|]. split; [done|]. by intros ? [= <-].
Qed.

(** [strip] takes white space off both ends, and no more. *)
Lemma strip_spec bs :
  ∃ ws1 ws2,
    bs = ws1 ++ Calendar.strip bs ++ ws2 ∧
    Forall (λ b, Calendar.is_space b = true) ws1 ∧
    Forall (λ b, Calendar.is_space b = true) ws2 ∧
    (∀ b, head (Calendar.strip bs) = Some b → Calendar.is_space b = false) ∧
    (∀ b, last (Calendar.strip bs) = Some b → Calendar.is_space b = false).
Proof.
  unfold Calendar.strip.
  destruct (lstrip_spec bs) as (ws1 & Hbs & Hws1 & Hhd1).
  set (a := Calendar.lstrip bs) in *.
  destruct (lstrip_spec (reverse a)) as (ws2 & Ha & Hws2 & Hhd2).
  set (b := Calendar.lstrip (reverse a)) in *.
  assert (Ha' : a = reverse b ++ reverse ws2).
  { rewrite <- reverse_app, <- Ha. by rewrite reverse_involutive. }
  exists ws1, (reverse ws2). split; [by rewrite <- Ha'|].
  split; [done|]. split; [by apply Forall_reverse|]. split.
  - intros x Hx. apply Hhd1. rewrite Ha'.
    destruct (reverse b) as [|y ys]; [done|]. done.
  - intros x Hx. apply Hhd2. by rewrite last_reverse in Hx.
Qed.

(** X24: start-up.  [Calendar.__init__] opens the journal for writing
    before anything else, so that however the call ends, the journal file
    is what it was, padded to a whole number of records.  The call
    returns a calendar exactly when the database opens and the [uri] file
    exists; the journal of the calendar is the padded file, and its URI is
    the contents of the [uri] file without the white space at its two
    ends, and without more.  Without the [uri] file the call ends in
    [SystemExit(1)]. *)
Theorem calendar_init (journal_file : option (list byte)) (uri_file : option bytes) :
  let '(journal, r) := Calendar.init LeveLB journal_file uri_file in
  Journal.aligned journal ∧
  (∃ pad, journal = default [] journal_file ++ replicate pad x00 ∧ (pad < 36)%nat) ∧
  (∀ cal, r = Return cal →
     LeveLB = Ok tt ∧ Calendar.journal cal = journal ∧
     ∃ contents ws1 ws2,
       uri_file = Some contents ∧ contents = ws1 ++ Calendar.uri cal ++ ws2 ∧
       Forall (λ b, Calendar.is_space b = true) ws1 ∧
       Forall (λ b, Calendar.is_space b = true) ws2 ∧
       (∀ b, head (Calendar.uri cal) = Some b → Calendar.is_space b = false) ∧
       (∀ b, last (Calendar.uri cal) = Some b → Calendar.is_space b = false)) ∧
  (LeveLB = Ok tt → is_Some uri_file → ∃ cal, r = Return cal) ∧
  (LeveLB = Ok tt → uri_file = None → r = Except (SystemExit 1)) ∧
  (∀ e, LeveLB = Raise e → r = Except (Exn e)).
Proof.
  unfold Calendar.init. cbv zeta.
  set (journal := Journal.open_writer (default [] journal_file)).
  assert (Hal : Journal.aligned journal) by apply open_writer_aligned.
  assert (Hpad : ∃ pad, journal = default [] journal_file ++ replicate pad x00 ∧
                        (pad < 36)%nat).
  { destruct (open_writer_app (default [] journal_file)) as (pad & E & Hlt & _).
    by exists pad. }
  destruct LeveLB as [[]|e]; [destruct uri_file as [contents|]|].
  - split; [done|]. split; [done|]. split; [|split; [|split]]; try done.
    + intros cal [= <-]. split; [done|]. split; [done|].
      destruct (strip_spec contents) as (ws1 & ws2 & ? & ? & ? & ? & ?).
      by exists contents, ws1, ws2.
    + intros _ _. by eexists.
  - split; [done|]. split; [done|]. split; [done|]. split; [|done].
    by intros _ [? [=]].
  - split; [done|]. split; [done|]. split; [done|]. split; [done|]. split; [done|].
    by intros ? [= ->].
Qed.
End CalendarInit.

(** ** The aggregator: one batch after the other *)

Section AggregatorRounds.
Import Aggregator.
Local Open Scope nat_scope.
Variable sha256 : bytes → bytes.

(** The largest offset of the file system of the journal. *)
Variable max_offset : Z.

(** A batch of callers and the iteration of the loop that takes it, with
    what the iteration keeps: the timestamps that have ops, the messages,
    an empty queue and a journal of whole records. *)
Lemma aggregator_round (s0 : State) (batch : list (bytes * bytes)) (now : Z) :
  (∀ m, length (sha256 m) = 32) →
  digest_queue s0 = [] → Journal.aligned (Calendar.journal (calendar s0)) →
  (0 ≤ now < 2 ^ 32)%Z → batch ≠ [] →
  ∃ s1 helds s2 root C st,
    submit_all sha256 s0 batch = (s1, Ok helds) ∧
    loop_iteration sha256 s1 now = (s2, Ok tt) ∧
    msg_at (heap_ s2) root = Some C ∧ length C = 32 ∧
    Calendar.pack_be32 now = Ok st ∧ length st = 4 ∧
    Calendar.journal (calendar s2) = Calendar.journal (calendar s0) ++ st ++ C ∧
    digest_queue s2 = [] ∧
    preserved (heap_ s0) (heap_ s2) ∧
    (∀ ev, events s0 !! ev = Some true → events s2 !! ev = Some true) ∧
    ∀ i d nonce, batch !! i = Some (d, nonce) →
      ∃ timestamp done_event path,
        helds !! i = Some (timestamp, done_event) ∧
        events s2 !! done_event = Some true ∧
        msg_at (heap_ s2) timestamp = Some d ∧
        follow (heap_ s2) timestamp path = Some root ∧
        apply_ops sha256 path d = C.
Proof.
  intros Hsha Hq0 Hal Hnow Hne.
  assert (HF0 : frontier sha256 (heap_ s0) [] (digest_queue s0).*1).
  { rewrite Hq0. split; [apply NoDup_nil_2|].
    split; intros x Hx; by apply elem_of_nil in Hx. }
  destruct (submit_all_frontier sha256 batch s0 [] HF0)
    as (s1 & helds & E1 & Hcal1 & Hev1 & Hq1 & Hlq1 & Hpre1 & Hlt1 & Hm1 & HF1).
  rewrite Hq0 in Hq1, Hlq1. simpl in Hq1, Hlq1, HF1.
  destruct ((digest_queue s1).*1) as [|d ds] eqn:Hds.
  { apply (f_equal length) in Hds. rewrite length_fmap, Hlq1 in Hds.
    destruct batch; [done|simpl in Hds; lia]. }
  destruct (make_merkle_tree_returns sha256 helds.*1 (d :: ds) (heap_ s1))
    as (h2 & root & E2 & Hpre2 & HF2); [done|done|].
  destruct HF2 as (_ & Hleaf2 & Hreach2).
  assert (Hrl : digest_leaf sha256 h2 root) by (apply Hleaf2; left).
  destruct (calendar_submit_leaf sha256 (calendar s1) root now h2 Hsha Hrl Hnow)
    as (h3 & st & C & E3 & Hpack & Hst & Hroot & HC & Hpre3).
  { by rewrite Hcal1. }
  destruct (submit_all_events sha256 _ _ _ _ E1) as [Hevs1 _].
  exists s1, helds. eexists _, root, C, st. split; [done|]. split.
  { unfold loop_iteration. rewrite Hds, E2, E3. done. }
  cbn [heap_ calendar digest_queue events Calendar.journal].
  split; [by apply Hpre3|]. split; [done|]. split; [done|]. split; [done|].
  split; [by rewrite Hcal1|]. split; [done|].
  split; [eapply preserved_trans; [|exact Hpre3]; by eapply preserved_trans|].
  split.
  { intros ev Hev. apply set_events_lookup. left. rewrite Hevs1.
    by apply lookup_app_l_Some. }
  intros i dg nonce Hi.
  destruct (Forall2_lookup_l _ _ _ _ _ Hm1 Hi) as ([ts ev] & Hheld & Hmsg).
  simpl in Hmsg.
  assert (Hts : ts ∈ helds.*1).
  { apply list_elem_of_fmap. exists (ts, ev). split; [done|].
    by eapply list_elem_of_lookup_2. }
  assert (Hevin : ev ∈ helds.*2).
  { apply list_elem_of_fmap. exists (ts, ev). split; [done|].
    by eapply list_elem_of_lookup_2. }
  destruct (Hreach2 ts Hts) as (y & Hy & Hty).
  apply list_elem_of_singleton in Hy as ->.
  apply (reaches_preserved sha256 _ _ _ _ Hpre3) in Hty as (path & mx & Hmx & Hfol & Hres).
  assert (Hmsg3 : msg_at h3 ts = Some dg) by (by apply Hpre3, Hpre2).
  rewrite Hmsg3 in Hmx. injection Hmx as <-.
  assert (HrC : msg_at h3 root = Some C) by (by apply Hpre3).
  rewrite HrC in Hres. injection Hres as Hres.
  exists ts, ev, path. split; [done|]. split.
  { apply set_events_lookup. right. rewrite Hq1. split; [done|].
    by apply (proj1 (Forall_forall _ _) Hlt1). }
  by repeat split.
Qed.

(** X25: the proofs handed out stay valid.  After a batch was committed,
    a second batch is queued and committed by a later iteration of the
    loop: the journal holds the record of the first batch and after it the
    record of the second, and every caller of the first batch is still
    released, with a timestamp for its digest from which the same path of
    ops leads to the first commitment as before. *)
Theorem earlier_proofs_survive (s0 : State) (batch1 batch2 : list (bytes * bytes))
    (now1 now2 : Z) :
  (∀ m, length (sha256 m) = 32) →
  digest_queue s0 = [] → Journal.aligned (Calendar.journal (calendar s0)) →
  (0 ≤ now1 < 2 ^ 32)%Z → (0 ≤ now2 < 2 ^ 32)%Z → batch1 ≠ [] → batch2 ≠ [] →
  ∃ s1 helds1 s2 s3 helds2 s4 root1 C1 st1 C2 st2,
    submit_all sha256 s0 batch1 = (s1, Ok helds1) ∧
    loop_iteration sha256 s1 now1 = (s2, Ok tt) ∧
    submit_all sha256 s2 batch2 = (s3, Ok helds2) ∧
    loop_iteration sha256 s3 now2 = (s4, Ok tt) ∧
    Calendar.pack_be32 now1 = Ok st1 ∧ Calendar.pack_be32 now2 = Ok st2 ∧
    Calendar.journal (calendar s4) =
      Calendar.journal (calendar s0) ++ (st1 ++ C1) ++ (st2 ++ C2) ∧
    Journal.getitem max_offset (Calendar.journal (calendar s4))
      (Journal.entries (Calendar.journal (calendar s0))) = Ok (st1 ++ C1) ∧
    Journal.getitem max_offset (Calendar.journal (calendar s4))
      (Journal.entries (Calendar.journal (calendar s0)) + 1)%Z = Ok (st2 ++ C2) ∧
    msg_at (heap_ s4) root1 = Some C1 ∧
    ∀ i d nonce, batch1 !! i = Some (d, nonce) →
      ∃ timestamp done_event path,
        helds1 !! i = Some (timestamp, done_event) ∧
        submit_return s2 (timestamp, done_event) = Some timestamp ∧
        submit_return s4 (timestamp, done_event) = Some timestamp ∧
        msg_at (heap_ s4) timestamp = Some d ∧
        follow (heap_ s2) timestamp path = Some root1 ∧
        follow (heap_ s4) timestamp path = Some root1 ∧
        apply_ops sha256 path d = C1.
Proof.
  intros Hsha Hq0 Hal Hnow1 Hnow2 Hne1 Hne2.
  destruct (aggregator_round s0 batch1 now1 Hsha Hq0 Hal Hnow1 Hne1)
    as (s1 & helds1 & s2 & root1 & C1 & st1 & E1 & E2 & Hroot1 & HC1 & Hpack1 & Hst1 &
        Hj2 & Hq2 & _ & _ & Hall1).
  assert (Hrec1 : length (st1 ++ C1) = Journal.COMMITMENT_SIZE)
    by (rewrite length_app, Hst1, HC1; done).
  assert (Hal2 : Journal.aligned (Calendar.journal (calendar s2)))
    by (rewrite Hj2; by apply aligned_app).
  destruct (aggregator_round s2 batch2 now2 Hsha Hq2 Hal2 Hnow2 Hne2)
    as (s3 & helds2 & s4 & root2 & C2 & st2 & E3 & E4 & Hroot2 & HC2 & Hpack2 & Hst2 &
        Hj4 & _ & Hpre & Hevs & _).
  assert (Hrec2 : length (st2 ++ C2) = Journal.COMMITMENT_SIZE)
    by (rewrite length_app, Hst2, HC2; done).
  exists s1, helds1, s2, s3, helds2, s4, root1, C1, st1, C2, st2.
  repeat (split; [done|]).
  split; [by rewrite Hj4, Hj2, <- app_assoc|].
  split.
  { rewrite Hj4, Hj2. by apply getitem_app, getitem_last. }
  split.
  { rewrite Hj4, Hj2. rewrite <- (entries_app _ _ Hal Hrec1).
    apply getitem_last; [by apply aligned_app|done]. }
  split; [by apply Hpre|].
  intros i d nonce Hi.
  destruct (Hall1 i d nonce Hi) as (ts & ev & path & Hheld & Hev & Hmsg & Hfol & Hres).
  exists ts, ev, path. split; [done|].
  split; [unfold submit_return; simpl; by rewrite Hev|].
  split; [unfold submit_return; simpl; by rewrite (Hevs _ Hev)|].
  split; [by apply Hpre|]. split; [done|].
  split; [by eapply follow_preserved|done].
Qed.
End AggregatorRounds.

Lemma earlier_proofs_survive_witness :
  let s0 := Aggregator.mk [] [] [] (Calendar.mk [] [x75]) in
  let batch1 := [([x01], [xaa])] in
  let batch2 := [([x02], [xbb])] in
  ∃ s1 helds1 s2 s3 helds2 s4 root1 C1 st1 C2 st2,
    Aggregator.submit_all toy_sha256 s0 batch1 = (s1, Ok helds1) ∧
    Aggregator.loop_iteration toy_sha256 s1 5 = (s2, Ok tt) ∧
    Aggregator.submit_all toy_sha256 s2 batch2 = (s3, Ok helds2) ∧
    Aggregator.loop_iteration toy_sha256 s3 6 = (s4, Ok tt) ∧
    Calendar.pack_be32 5 = Ok st1 ∧ Calendar.pack_be32 6 = Ok st2 ∧
    Calendar.journal (Aggregator.calendar s4) =
      Calendar.journal (Aggregator.calendar s0) ++ (st1 ++ C1) ++ (st2 ++ C2) ∧
    Journal.getitem ext4_max_offset (Calendar.journal (Aggregator.calendar s4))
      (Journal.entries (Calendar.journal (Aggregator.calendar s0))) = Ok (st1 ++ C1) ∧
    Journal.getitem ext4_max_offset (Calendar.journal (Aggregator.calendar s4))
      (Journal.entries (Calendar.journal (Aggregator.calendar s0)) + 1) = Ok (st2 ++ C2) ∧
    msg_at (Aggregator.heap_ s4) root1 = Some C1 ∧
    ∀ i d nonce, batch1 !! i = Some (d, nonce) →
      ∃ timestamp done_event path,
        helds1 !! i = Some (timestamp, done_event) ∧
        Aggregator.submit_return s2 (timestamp, done_event) = Some timestamp ∧
        Aggregator.submit_return s4 (timestamp, done_event) = Some timestamp ∧
        msg_at (Aggregator.heap_ s4) timestamp = Some d ∧
        follow (Aggregator.heap_ s2) timestamp path = Some root1 ∧
        follow (Aggregator.heap_ s4) timestamp path = Some root1 ∧
        apply_ops toy_sha256 path d = C1.
Proof.
  apply (earlier_proofs_survive toy_sha256 ext4_max_offset
           (Aggregator.mk [] [] [] (Calendar.mk [] [x75]))
           [([x01], [xaa])] [([x02], [xbb])] 5 6).
  - apply toy_sha256_length.
  - reflexivity.
  - reflexivity.
  - lia.
  - lia.
  - done.
  - done.
Defined.
(** ** The aggregator: the batch of one interval *)

Section AggregatorBatch.
Import Aggregator.
Local Open Scope nat_scope.
Variable sha256 : bytes → bytes.

(** With nothing in the queue an iteration of the loop leaves the state
    as it is. *)
Lemma loop_iteration_idle (s : State) (now : Z) :
  digest_queue s = [] → loop_iteration sha256 s now = (s, Ok tt).
Proof.
  intros Hq. unfold loop_iteration. rewrite Hq. cbn [fmap list_fmap].
  destruct s as [h q evs cal]. simpl in Hq. by subst q.
Qed.

(** The callers of a batch wait until the loop takes it: their events
    are new and not set. *)
Lemma submit_all_waiting (s s' : State) (batch : list (bytes * bytes)) helds :
  submit_all sha256 s batch = (s', Ok helds) →
  ∀ i held, helds !! i = Some held → submit_return s' held = None.
Proof.
  intros E i [ts ev] Hi.
  destruct (submit_all_events sha256 _ _ _ _ E) as [Hev Hh].
  assert (Hevi : helds.*2 !! i = Some ev) by (by rewrite list_lookup_fmap, Hi).
  rewrite Hh in Hevi. apply lookup_seq in Hevi as [-> Hlt].
  unfold submit_return. cbn [snd]. rewrite Hev.
  rewrite lookup_app_r by lia.
  replace (length (events s) + i - length (events s)) with i by lia.
  by rewrite lookup_replicate_2.
Qed.

(** C3: for two distinct digests submitted within one interval, both
    callers wait until the iteration of the loop that takes the batch,
    and this iteration releases both; the timestamps they are returned
    are those of their digests, and from each its chain of ops leads to
    the one root timestamp, the ops applied to the submitted digest
    giving the one commitment digest.  The commitment is journaled
    once: nothing is written to the journal while the callers queue
    their digests, the iteration appends one record, the commitment
    digest behind the four bytes of the time, and it leaves the queue
    empty, so that the iterations after it, with no new submission, leave
    the journal and all the state as they are. *)
Theorem aggregator_batch_commits (s0 : State) (batch : list (bytes * bytes)) (now : Z) :
  (∀ m, length (sha256 m) = 32) →
  digest_queue s0 = [] → Journal.aligned (Calendar.journal (calendar s0)) →
  (0 ≤ now < 2 ^ 32)%Z → batch ≠ [] →
  ∃ s1 helds s2 root C st,
    submit_all sha256 s0 batch = (s1, Ok helds) ∧
    loop_iteration sha256 s1 now = (s2, Ok tt) ∧
    msg_at (heap_ s2) root = Some C ∧ length C = 32 ∧
    Calendar.pack_be32 now = Ok st ∧
    Calendar.journal (calendar s1) = Calendar.journal (calendar s0) ∧
    Calendar.journal (calendar s2) = Calendar.journal (calendar s0) ++ st ++ C ∧
    Journal.entries (Calendar.journal (calendar s2)) =
      (Journal.entries (Calendar.journal (calendar s0)) + 1)%Z ∧
    digest_queue s2 = [] ∧
    (∀ now', loop_iteration sha256 s2 now' = (s2, Ok tt)) ∧
    ∀ i d1 nonce1 j d2 nonce2,
      batch !! i = Some (d1, nonce1) → batch !! j = Some (d2, nonce2) → d1 ≠ d2 →
      ∃ t1 e1 path1 t2 e2 path2,
        helds !! i = Some (t1, e1) ∧ helds !! j = Some (t2, e2) ∧
        submit_return s1 (t1, e1) = None ∧ submit_return s1 (t2, e2) = None ∧
        submit_return s2 (t1, e1) = Some t1 ∧ submit_return s2 (t2, e2) = Some t2 ∧
        msg_at (heap_ s2) t1 = Some d1 ∧ msg_at (heap_ s2) t2 = Some d2 ∧
        follow (heap_ s2) t1 path1 = Some root ∧ apply_ops sha256 path1 d1 = C ∧
        follow (heap_ s2) t2 path2 = Some root ∧ apply_ops sha256 path2 d2 = C.
Proof.
  intros Hsha Hq0 Hal Hnow Hne.
  destruct (aggregator_round sha256 s0 batch now Hsha Hq0 Hal Hnow Hne)
    as (s1 & helds & s2 & root & C & st & E1 & E2 & Hroot & HC & Hpack & Hst & Hj & Hq2 &
        _ & _ & Hall).
  assert (Hcal1 : calendar s1 = calendar s0).
  { assert (HF0 : frontier sha256 (heap_ s0) [] (digest_queue s0).*1).
    { rewrite Hq0. split; [apply NoDup_nil_2|].
      split; intros x Hx; by apply elem_of_nil in Hx. }
    destruct (submit_all_frontier sha256 batch s0 [] HF0) as (s1' & helds' & E1' & Hc & _).
    rewrite E1 in E1'. by injection E1' as <- _. }
  pose proof (submit_all_waiting _ _ _ _ E1) as Hwait.
  exists s1, helds, s2, root, C, st. repeat (split; [done|]).
  split; [by rewrite Hcal1|]. split; [done|]. split.
  { rewrite Hj. apply entries_app; [done|]. rewrite length_app, Hst, HC. done. }
  split; [done|]. split; [intros now'; by apply loop_iteration_idle|].
  intros i d1 nonce1 j d2 nonce2 Hi Hj' _.
  destruct (Hall i d1 nonce1 Hi) as (t1 & e1 & path1 & Hh1 & Hev1 & ? & ? & ?).
  destruct (Hall j d2 nonce2 Hj') as (t2 & e2 & path2 & Hh2 & Hev2 & ? & ? & ?).
  exists t1, e1, path1, t2, e2, path2.
  split; [done|]. split; [done|].
  split; [by eapply Hwait|]. split; [by eapply Hwait|].
  split; [unfold submit_return; cbn [fst snd]; by rewrite Hev1|].
  split; [unfold submit_return; cbn [fst snd]; by rewrite Hev2|].
  by repeat split.
Qed.

End AggregatorBatch.

Lemma aggregator_batch_commits_witness :
  let s0 := Aggregator.mk [] [] [] (Calendar.mk [] [x75]) in
  let batch := [([x01], [xaa]); ([x02], [xbb])] in
  ∃ s1 helds s2 root C st,
    Aggregator.submit_all toy_sha256 s0 batch = (s1, Ok helds) ∧
    Aggregator.loop_iteration toy_sha256 s1 1478197983 = (s2, Ok tt) ∧
    msg_at (Aggregator.heap_ s2) root = Some C ∧ length C = 32%nat ∧
    Calendar.pack_be32 1478197983 = Ok st ∧
    Calendar.journal (Aggregator.calendar s1) = Calendar.journal (Aggregator.calendar s0) ∧
    Calendar.journal (Aggregator.calendar s2) =
      Calendar.journal (Aggregator.calendar s0) ++ st ++ C ∧
    Journal.entries (Calendar.journal (Aggregator.calendar s2)) =
      Journal.entries (Calendar.journal (Aggregator.calendar s0)) + 1 ∧
    Aggregator.digest_queue s2 = [] ∧
    (∀ now', Aggregator.loop_iteration toy_sha256 s2 now' = (s2, Ok tt)) ∧
    ∀ i d1 nonce1 j d2 nonce2,
      batch !! i = Some (d1, nonce1) → batch !! j = Some (d2, nonce2) → d1 ≠ d2 →
      ∃ t1 e1 path1 t2 e2 path2,
        helds !! i = Some (t1, e1) ∧ helds !! j = Some (t2, e2) ∧
        Aggregator.submit_return s1 (t1, e1) = None ∧
        Aggregator.submit_return s1 (t2, e2) = None ∧
        Aggregator.submit_return s2 (t1, e1) = Some t1 ∧
        Aggregator.submit_return s2 (t2, e2) = Some t2 ∧
        msg_at (Aggregator.heap_ s2) t1 = Some d1 ∧
        msg_at (Aggregator.heap_ s2) t2 = Some d2 ∧
        follow (Aggregator.heap_ s2) t1 path1 = Some root ∧
        apply_ops toy_sha256 path1 d1 = C ∧
        follow (Aggregator.heap_ s2) t2 path2 = Some root ∧
        apply_ops toy_sha256 path2 d2 = C.
Proof.
  apply (aggregator_batch_commits toy_sha256
           (Aggregator.mk [] [] [] (Calendar.mk [] [x75]))
           [([x01], [xaa]); ([x02], [xbb])] 1478197983).
  - apply toy_sha256_length.
  - reflexivity.
  - reflexivity.
  - lia.
  - done.
Defined.
